(** * Cricket-Scoring-Api: the ball-recording handler of routes/scoring.js

    A shallow embedding of [router.post('/ball')] (routes/scoring.js), of the
    Mongoose schemas it reads and writes (models/Match.js, models/Ball.js) and
    of the innings initialisation of [router.patch('/:id/start')]
    (routes/matches.js).

    Conventions of the embedding:
    - a JavaScript [Number] that the handler only ever adds to, compares or
      divides by six is an integer [Z]; [Math.floor (x / 6)] is [x / 6]
      (floor division) and the JavaScript remainder [x % 6] is [Z.rem x 6]
      (truncating, sign of the dividend).  JavaScript adds integers exactly
      while the sum stays a safe integer: a theorem that gives the exact
      value of a total which an arbitrary document may hold assumes the
      totals to be well within that range ([safeTotals]);
    - [req.body.runs] is a whole number, sent either as a JSON number or as
      a string: the [isNumeric] validator lets a numeric string through
      unconverted, and the handler's [+=] then concatenates.  The strings
      represented are the decimal digits of the number after any number of
      zeros; fractional values and strings with a plus sign, a decimal point
      or an exponent are not represented;
    - [match.overs] is a whole number.  The handler only compares the limit
      with the integer [Math.floor (balls / 6)], so a fractional limit acts
      as the next whole number;
    - the display value [innings.overs] is the only fractional number: it is
      an exact rational [Q], the rounding of doubles is not represented;
    - an [ObjectId] is its string; identifiers are taken to be well-formed,
      so that casting one never throws;
    - the two collections the handler touches are a finite map from match
      identifiers to match documents and an append-only list of ball
      documents; a document fetched by [findById] is private to the request
      until [save] writes it back. *)

From Stdlib Require Import ZArith QArith Lia Ascii.
From stdpp Require Import base option list sorting gmap strings pretty.

Local Close Scope Q_scope.
Local Open Scope Z_scope.

Definition ObjectId := string.

(** ** JavaScript values *)

(** What [req.body.runs] and the sums the handler forms from it can be: a
    number or a string. *)
Inductive JsValue :=
| JsNumber (n : Z)
| JsString (s : string).

(** [String (v)]: an integer prints as its decimal digits, with a minus sign
    when it is negative. *)
Definition jsToString (v : JsValue) : string :=
  match v with JsNumber n => pretty n | JsString s => s end.

(** The operator [+], and with it [+=]: the sum of two numbers, and the
    concatenation as soon as one operand is a string. *)
Definition jsPlus (a b : JsValue) : JsValue :=
  match a, b with
  | JsNumber x, JsNumber y => JsNumber (x + y)
  | _, _ => JsString (jsToString a +:+ jsToString b)
  end.

Definition digitValue (c : ascii) : option Z :=
  let n := Z.of_nat (nat_of_ascii c) in
  if (48 <=? n) && (n <=? 57) then Some (n - 48) else None.

Fixpoint digitsValue (acc : Z) (s : string) : option Z :=
  match s with
  | EmptyString => Some acc
  | String c s' => d ← digitValue c; digitsValue (10 * acc + d) s'
  end.

(** [Number (s)] on a string of decimal digits with an optional sign.
    [None] is [NaN]; it is also the answer for the empty string, which none
    of the strings formed here is. *)
Definition jsNumber (s : string) : option Z :=
  match s with
  | EmptyString => None
  | String c s' =>
    if bool_decide (c = "-"%char) then
      (if bool_decide (s' = EmptyString) then None
       else Z.opp <$> digitsValue 0 s')
    else if bool_decide (c = "+"%char) then
      (if bool_decide (s' = EmptyString) then None else digitsValue 0 s')
    else digitsValue 0 s
  end.

(** The cast that Mongoose applies to a value assigned to a [Number] path:
    a number is kept and a string goes through [Number]; [None] is the cast
    error raised on [NaN]. *)
Definition castNumber (v : JsValue) : option Z :=
  match v with JsNumber n => Some n | JsString s => jsNumber s end.

(** [x += v] on a [Number] path of a document.  The value [x + v] is cast
    when it is assigned; a value that does not cast is not assigned.  The
    values the handler assigns always cast ([runsToAdd_casts] below). *)
Definition plusAssign (x : Z) (v : JsValue) : Z :=
  default x (castNumber (jsPlus (JsNumber x) v)).

(** The [isNumeric] validator of express-validator, applied to the string
    form of the value: [/^[+-]?([0-9]*[.])?[0-9]+$/]. *)
Definition isDigit (c : ascii) : bool :=
  match digitValue c with Some _ => true | None => false end.

Fixpoint allDigits (s : string) : bool :=
  match s with
  | EmptyString => true
  | String c s' => isDigit c && allDigits s'
  end.

Fixpoint numericBody (seen : bool) (s : string) : bool :=
  match s with
  | EmptyString => seen
  | String c s' =>
    if isDigit c then numericBody true s'
    else bool_decide (c = "."%char) && negb (bool_decide (s' = EmptyString))
         && allDigits s'
  end.

Definition isNumeric (s : string) : bool :=
  match s with
  | EmptyString => false
  | String c s' =>
    if bool_decide (c = "-"%char) || bool_decide (c = "+"%char)
    then numericBody false s' else numericBody false s
  end.

Fixpoint zeros (k : nat) : string :=
  match k with O => EmptyString | S k => String "0" (zeros k) end.

(** ** Documents *)

(** [req.body] of POST /api/scoring/ball.  [runs] is the number that the
    field [runs] carries, and [runsSent] tells how it was sent: as a JSON
    number, which is what the route documents, or as the string of its
    decimal digits after [leadingZeros] zeros.  The five flags are JSON
    booleans, a flag left out being [false].  The optional [nonStriker],
    [wicketType], [wicketTaker], [fielder] and [commentary] are copied to
    the ball document and never read by the handler. *)
Module Body.
Inductive Sent :=
| asNumber
| asString (leadingZeros : nat).

Record t := mk {
  match_ : ObjectId;
  bowler : ObjectId;
  batsman : ObjectId;
  nonStriker : option ObjectId;
  runs : Z;
  runsSent : Sent;
  isWide : bool;
  isNoBall : bool;
  isBye : bool;
  isLegBye : bool;
  isWicket : bool;
  wicketType : option string;
  wicketTaker : option ObjectId;
  fielder : option ObjectId;
  commentary : option string
}.
End Body.

(** models/Ball.js: the request body spread into the document, with the
    computed [innings], [over] and [ball] on top.  The document holds the
    cast values: its [runs] is the number [Body.runs], however it was
    sent. *)
Module Ball.
Record t := mk {
  body : Body.t;
  innings : Z;
  over : Z;
  ball : Z
}.
End Ball.

Module Extras.
Record t := mk {
  wides : Z;
  noBalls : Z;
  byes : Z;
  legByes : Z
}.
End Extras.

(** One element of [match.innings] (models/Match.js). *)
Module Inn.
Record t := mk {
  battingTeam : option ObjectId;
  bowlingTeam : option ObjectId;
  runs : Z;
  wickets : Z;
  overs : Q;
  balls : Z;
  extras : Extras.t;
  isCompleted : bool
}.
End Inn.

Inductive Status := scheduled | live | completed | abandoned.

Inductive ResultType := by_runs | by_wickets | tie | no_result.

Module Res.
Record t := mk {
  winner : option ObjectId;
  resultType : option ResultType;
  margin : option string;
  manOfTheMatch : option ObjectId
}.
End Res.

Module Mat.
Record t := mk {
  team1 : ObjectId;
  team2 : ObjectId;
  overs : Z;
  status : Status;
  tossWinner : option ObjectId;
  tossDecision : option string;
  currentInnings : Z;
  innings : list Inn.t;
  result : Res.t
}.
End Mat.

Global Instance Status_eq_dec : EqDecision Status.
Proof. solve_decision. Defined.

(** The two collections. *)
Record Store := mkStore {
  matches : gmap ObjectId Mat.t;
  balls : list Ball.t
}.

(** What the handler answers: a failure with its HTTP status and message, or
    201 with the ball document and the match summary
    [{status, currentInnings, innings}]. *)
Inductive Response :=
| Failure (code : Z) (message : string)
| Created (ball : Ball.t) (status : Status) (currentInnings : Z)
          (innings : list Inn.t).

(** ** Ball index (scoring.js, lines 92-107) *)

Definition totalBalls (balls : Z) (isWide isNoBall : bool) : Z :=
  balls + (if isWide || isNoBall then 0 else 1).

Definition ballIndex (balls : Z) (isWide isNoBall : bool) : Z * Z :=
  let total := totalBalls balls isWide isNoBall in
  let over := total / 6 in
  let ball := Z.rem total 6 + 1 in
  (if ball =? 7 then over + 1 else over, if ball =? 7 then 1 else ball).

Definition ballData (m : Mat.t) (inn : Inn.t) (b : Body.t) : Ball.t :=
  let '(over, ball) := ballIndex (Inn.balls inn) (Body.isWide b) (Body.isNoBall b) in
  Ball.mk b (Mat.currentInnings m) over ball.

(** The values that the schema allows for [wicketType] (models/Ball.js,
    line 110). *)
Definition wicketTypes : list string :=
  ["bowled"; "caught"; "lbw"; "stumped"; "run-out"; "hit-wicket";
   "obstructing"; "handled-ball"; "timed-out"].

(** The validators of models/Ball.js that [ballRecord.save()] runs:
    [innings] in 1..4, [over] at least 0, [ball] in 1..6, [runs] in 0..6 and
    [wicketType], when there is one, in the enum.  The identifiers being
    well-formed, the casts of the [ObjectId] paths succeed. *)
Definition validBall (d : Ball.t) : bool :=
  (1 <=? Ball.innings d) && (Ball.innings d <=? 4)
  && (0 <=? Ball.over d)
  && (1 <=? Ball.ball d) && (Ball.ball d <=? 6)
  && (0 <=? Body.runs (Ball.body d)) && (Body.runs (Ball.body d) <=? 6)
  && match Body.wicketType (Ball.body d) with
     | None => true
     | Some w => bool_decide (w ∈ wicketTypes)
     end.

(** ** Runs and extras (scoring.js, lines 113-142) *)

Definition oversDisplay (balls : Z) : Q :=
  (inject_Z (balls / 6)
   + (if 0 <? Z.rem balls 6 then inject_Z (Z.rem balls 6) / inject_Z 10 else 0))%Q.

(** The string form of [req.body.runs]. *)
Definition sentText (b : Body.t) : string :=
  match Body.runsSent b with
  | Body.asNumber => pretty (Body.runs b)
  | Body.asString k => zeros k +:+ pretty (Body.runs b)
  end.

(** [req.body.runs] as the handler reads it: no sanitizer follows the
    validator, so a string stays a string. *)
Definition bodyRuns (b : Body.t) : JsValue :=
  match Body.runsSent b with
  | Body.asNumber => JsNumber (Body.runs b)
  | Body.asString _ => JsString (sentText b)
  end.

Definition addExtras (e : Extras.t) (b : Body.t) : Extras.t :=
  Extras.mk
    (if Body.isWide b then Extras.wides e + 1 else Extras.wides e)
    (if Body.isNoBall b then Extras.noBalls e + 1 else Extras.noBalls e)
    (if Body.isBye b then plusAssign (Extras.byes e) (bodyRuns b)
     else Extras.byes e)
    (if Body.isLegBye b then plusAssign (Extras.legByes e) (bodyRuns b)
     else Extras.legByes e).

Definition runsToAdd (b : Body.t) : JsValue :=
  let r := bodyRuns b in
  let r := if Body.isWide b then jsPlus r (JsNumber 1) else r in
  if Body.isNoBall b then jsPlus r (JsNumber 1) else r.

Definition accumulate (inn : Inn.t) (b : Body.t) : Inn.t :=
  let legal := negb (Body.isWide b) && negb (Body.isNoBall b) in
  let balls' := if legal then Inn.balls inn + 1 else Inn.balls inn in
  Inn.mk
    (Inn.battingTeam inn)
    (Inn.bowlingTeam inn)
    (plusAssign (Inn.runs inn) (runsToAdd b))
    (if Body.isWicket b then Inn.wickets inn + 1 else Inn.wickets inn)
    (if legal then oversDisplay balls' else Inn.overs inn)
    balls'
    (addExtras (Inn.extras inn) b)
    (Inn.isCompleted inn).

(** ** Completion and result (scoring.js, lines 144-187) *)

Definition markCompleted (inn : Inn.t) : Inn.t :=
  Inn.mk (Inn.battingTeam inn) (Inn.bowlingTeam inn) (Inn.runs inn)
         (Inn.wickets inn) (Inn.overs inn) (Inn.balls inn) (Inn.extras inn)
         true.

(** The object pushed on [match.innings] when the first innings ends. *)
Definition secondInnings (firstInnings : Inn.t) : Inn.t :=
  Inn.mk (Inn.bowlingTeam firstInnings) (Inn.battingTeam firstInnings)
         0 0 0%Q 0 (Extras.mk 0 0 0 0) false.

(** Lines 174-185.  The tie branch assigns [resultType] and [margin] only:
    [winner] keeps whatever the document held. *)
Definition calcResult (r : Res.t) (firstInnings secondInnings : Inn.t) : Res.t :=
  if Inn.runs firstInnings <? Inn.runs secondInnings then
    Res.mk (Inn.battingTeam secondInnings) (Some by_wickets)
           (Some (pretty (10 - Inn.wickets secondInnings) +:+ " wickets"))
           (Res.manOfTheMatch r)
  else if Inn.runs secondInnings <? Inn.runs firstInnings then
    Res.mk (Inn.battingTeam firstInnings) (Some by_runs)
           (Some (pretty (Inn.runs firstInnings - Inn.runs secondInnings) +:+ " runs"))
           (Res.manOfTheMatch r)
  else
    Res.mk (Res.winner r) (Some tie) (Some "Match tied") (Res.manOfTheMatch r).

Definition inningsOver (maxOvers : Z) (inn : Inn.t) : bool :=
  (maxOvers <=? Inn.balls inn / 6) || (10 <=? Inn.wickets inn).

Definition setInnings (m : Mat.t) (l : list Inn.t) : Mat.t :=
  Mat.mk (Mat.team1 m) (Mat.team2 m) (Mat.overs m) (Mat.status m)
         (Mat.tossWinner m) (Mat.tossDecision m) (Mat.currentInnings m) l
         (Mat.result m).

Definition startSecond (m : Mat.t) (l : list Inn.t) : Mat.t :=
  Mat.mk (Mat.team1 m) (Mat.team2 m) (Mat.overs m) (Mat.status m)
         (Mat.tossWinner m) (Mat.tossDecision m) 2 l (Mat.result m).

Definition finish (m : Mat.t) (l : list Inn.t) (r : Res.t) : Mat.t :=
  Mat.mk (Mat.team1 m) (Mat.team2 m) (Mat.overs m) completed
         (Mat.tossWinner m) (Mat.tossDecision m) (Mat.currentInnings m) l r.

(** Lines 113-187 on the fetched document: [i] is the position of the
    current innings [inn] in [match.innings].  The innings is a subdocument
    mutated in place, so [match.innings[0]] and [match.innings[1]] read the
    updated (and completed) innings.  [None] is the [TypeError] of reading a
    property of [undefined]. *)
Definition updateMatch (m : Mat.t) (i : nat) (inn : Inn.t) (b : Body.t)
  : option Mat.t :=
  let inn' := accumulate inn b in
  if inningsOver (Mat.overs m) inn' then
    let l := <[i := markCompleted inn']> (Mat.innings m) in
    if Mat.currentInnings m =? 1 then
      firstInnings ← l !! 0%nat;
      Some (startSecond m (l ++ [secondInnings firstInnings]))
    else
      firstInnings ← l !! 0%nat;
      second ← l !! 1%nat;
      Some (finish m l (calcResult (Mat.result m) firstInnings second))
  else Some (setInnings m (<[i := inn']> (Mat.innings m))).

(** ** The handler (scoring.js, lines 60-218) *)

(** express-validator: [notEmpty] on the three identifiers and [isNumeric]
    on the string form of [runs]. *)
Definition validRequest (b : Body.t) : bool :=
  bool_decide (Body.match_ b ≠ "") && bool_decide (Body.bowler b ≠ "")
  && bool_decide (Body.batsman b ≠ "") && isNumeric (sentText b).

(** [match.innings[match.currentInnings - 1]]: [undefined] off the array. *)
Definition currentInnings (m : Mat.t) : option (nat * Inn.t) :=
  if 1 <=? Mat.currentInnings m then
    let i := Z.to_nat (Mat.currentInnings m - 1) in
    inn ← Mat.innings m !! i; Some (i, inn)
  else None.

Definition recordBall (st : Store) (b : Body.t) : Response * Store :=
  if negb (validRequest b) then (Failure 400 "Validation failed", st) else
  match matches st !! Body.match_ b with
  | None => (Failure 400 "Match not found or not live", st)
  | Some m =>
    if negb (bool_decide (Mat.status m = live)) then
      (Failure 400 "Match not found or not live", st)
    else
      match currentInnings m with
      | None => (Failure 400 "Current innings is completed", st)
      | Some (i, inn) =>
        if Inn.isCompleted inn then
          (Failure 400 "Current innings is completed", st)
        else
          let d := ballData m inn b in
          if negb (validBall d) then (Failure 500 "Server error", st) else
          let st1 := mkStore (matches st) (balls st ++ [d]) in
          match updateMatch m i inn b with
          | None => (Failure 500 "Server error", st1)
          | Some m' =>
            (Created d (Mat.status m') (Mat.currentInnings m') (Mat.innings m'),
             mkStore (<[Body.match_ b := m']> (matches st1)) (balls st1))
          end
      end
  end.

(** ** Starting a match (matches.js, lines 244-283) *)

Definition freshInnings (batting bowling : ObjectId) : Inn.t :=
  Inn.mk (Some batting) (Some bowling) 0 0 0%Q 0 (Extras.mk 0 0 0 0) false.

(** [tossDecision] is optional in the request: [None] is [undefined], which
    equals neither ['bat'] nor ['bowl'] and which the schema's enum lets
    through.  The result is [None] when the match is not scheduled (400) or
    when [save] refuses a [tossDecision] outside the enum (500). *)
Definition startMatch (m : Mat.t) (tossWinner : ObjectId)
    (tossDecision : option string) : option Mat.t :=
  if negb (bool_decide (Mat.status m = scheduled)) then None else
  let other := if bool_decide (tossWinner = Mat.team1 m)
               then Mat.team2 m else Mat.team1 m in
  let battingTeam :=
    if bool_decide (tossDecision = Some "bat") then tossWinner else other in
  let bowlingTeam :=
    if bool_decide (tossDecision = Some "bowl") then tossWinner else other in
  if bool_decide (tossDecision = None) || bool_decide (tossDecision = Some "bat")
     || bool_decide (tossDecision = Some "bowl")
  then Some (Mat.mk (Mat.team1 m) (Mat.team2 m) (Mat.overs m) live
                    (Some tossWinner) tossDecision (Mat.currentInnings m)
                    [freshInnings battingTeam bowlingTeam] (Mat.result m))
  else None.

(** Match documents that scoring can be handed: a match just started, and
    every document a successful ball leaves behind. *)
Inductive reachable : Mat.t → Prop :=
| reachable_start m0 tossWinner tossDecision m :
    startMatch m0 tossWinner tossDecision = Some m → reachable m
| reachable_ball m i inn b m' :
    reachable m →
    Mat.status m = live →
    currentInnings m = Some (i, inn) →
    Inn.isCompleted inn = false →
    validBall (ballData m inn b) = true →
    updateMatch m i inn b = Some m' →
    reachable m'.

(** A run of the handler over a list of requests. *)
Definition recordBalls (st : Store) (reqs : list Body.t) : Store :=
  foldl (λ s b, snd (recordBall s b)) st reqs.

(** The request [b] gets past every guard of the handler on the store [st]:
    it targets the live match [m], whose current innings [inn], at position
    [i], is open, and the ball document passes the schema. *)
Definition accepts (st : Store) (b : Body.t) (m : Mat.t) (i : nat) (inn : Inn.t)
  : Prop :=
  validRequest b = true ∧
  matches st !! Body.match_ b = Some m ∧
  Mat.status m = live ∧
  currentInnings m = Some (i, inn) ∧
  Inn.isCompleted inn = false ∧
  validBall (ballData m inn b) = true.

Definition ballInRange (d : Ball.t) : Prop := 1 ≤ Ball.ball d ≤ 6.

(** The request sends [runs] as a JSON number. *)
Definition sentAsNumber (b : Body.t) : Prop :=
  Body.runsSent b = Body.asNumber.

(** A total well within the safe integers, below which JavaScript adds
    integers exactly: a few balls more leave it there. *)
Definition safeInteger (x : Z) : Prop := - 2 ^ 52 ≤ x ≤ 2 ^ 52.

Definition safeTotals (inn : Inn.t) : Prop :=
  safeInteger (Inn.runs inn) ∧ safeInteger (Inn.wickets inn) ∧
  safeInteger (Inn.balls inn) ∧
  safeInteger (Extras.wides (Inn.extras inn)) ∧
  safeInteger (Extras.noBalls (Inn.extras inn)) ∧
  safeInteger (Extras.byes (Inn.extras inn)) ∧
  safeInteger (Extras.legByes (Inn.extras inn)).

(** The current innings after the update: the accumulated totals, with
    [isCompleted] raised when the innings is over. *)
Definition scored (m : Mat.t) (inn : Inn.t) (b : Body.t) : Inn.t :=
  if inningsOver (Mat.overs m) (accumulate inn b)
  then markCompleted (accumulate inn b) else accumulate inn b.

(** What the handler maintains of the wickets of an innings. *)
Definition wicketsInvariant (inn : Inn.t) : Prop :=
  Inn.wickets inn ≤ 10 ∧ (Inn.isCompleted inn = false → Inn.wickets inn < 10).

(** ** Statements that the handler does not satisfy *)

(** C4 as the specification states it, for the run total: every recorded
    ball adds [runs + (1 if isWide) + (1 if isNoBall)] to [innings.runs]. *)
Definition runs_added : Prop :=
  ∀ st b m i inn m' inn',
    accepts st b m i inn →
    matches (snd (recordBall st b)) !! Body.match_ b = Some m' →
    Mat.innings m' !! i = Some inn' →
    Inn.runs inn'
    = Inn.runs inn + (Body.runs b + (if Body.isWide b then 1 else 0)
                                  + (if Body.isNoBall b then 1 else 0)).

(** C5 as the specification states it: a wide or a no-ball adds exactly 1
    to [innings.runs], whatever its [runs] value. *)
Definition wide_adds_one : Prop :=
  ∀ st b m i inn m' inn',
    accepts st b m i inn →
    Body.isWide b || Body.isNoBall b = true →
    matches (snd (recordBall st b)) !! Body.match_ b = Some m' →
    Mat.innings m' !! i = Some inn' →
    Inn.runs inn' = Inn.runs inn + 1.

(** C3 as the specification states it: the match is decided by the ball
    that takes the second innings past a first-innings total of 100, with
    wickets and overs in hand. *)
Definition chase_ends_match : Prop :=
  ∀ st b m i inn firstInnings m' second,
    accepts st b m i inn →
    Mat.currentInnings m = 2 →
    Mat.innings m !! 0%nat = Some firstInnings →
    Inn.runs firstInnings = 100 →
    matches (snd (recordBall st b)) !! Body.match_ b = Some m' →
    Mat.innings m' !! 1%nat = Some second →
    Inn.runs second = 101 →
    Inn.wickets second < 10 →
    Inn.balls second / 6 < Mat.overs m →
    Res.resultType (Mat.result m') = Some by_wickets ∧
    Res.margin (Mat.result m')
    = Some (pretty (10 - Inn.wickets second) +:+ " wickets") ∧
    Res.winner (Mat.result m') = Inn.battingTeam second.

(** C9 as the specification states it: one error when the match does not
    exist and a different one when it exists but is not live. *)
Definition missing_match_distinct : Prop :=
  ∀ st1 st2 b m,
    validRequest b = true →
    matches st1 !! Body.match_ b = None →
    matches st2 !! Body.match_ b = Some m →
    Mat.status m ≠ live →
    fst (recordBall st1 b) ≠ fst (recordBall st2 b).

(** ** Sample documents *)

Definition noResult : Res.t := Res.mk None None None None.

Definition delivery (runs : Z) (isWide isNoBall isBye isLegBye isWicket : bool)
  : Body.t :=
  Body.mk "m1" "p1" "p2" None runs Body.asNumber
          isWide isNoBall isBye isLegBye isWicket None None None None.

(** The same request with [runs] sent as a string, ["4"] for 4. *)
Definition deliveryAsString (runs : Z)
    (isWide isNoBall isBye isLegBye isWicket : bool) : Body.t :=
  Body.mk "m1" "p1" "p2" None runs (Body.asString 0)
          isWide isNoBall isBye isLegBye isWicket None None None None.

(** A wicket with the kind of dismissal [wicketType]. *)
Definition dismissal (wicketType : string) : Body.t :=
  Body.mk "m1" "p1" "p2" None 0 Body.asNumber
          false false false false true (Some wicketType) None None None.

Definition inningsAt (batting bowling : ObjectId) (runs wickets balls : Z)
    (isCompleted : bool) : Inn.t :=
  Inn.mk (Some batting) (Some bowling) runs wickets (oversDisplay balls) balls
         (Extras.mk 0 0 0 0) isCompleted.

Definition matchWith (overs : Z) (status : Status) (currentInnings : Z)
    (innings : list Inn.t) : Mat.t :=
  Mat.mk "A" "B" overs status (Some "A") (Some "bat") currentInnings innings
         noResult.

Definition storeOf (m : Mat.t) : Store := mkStore {["m1" := m]} [].

(** ** The ball log against the innings totals *)

(** The ball events of the [k]-th innings (counted from 0) of match [mid]:
    what [Ball.find({ match, innings })] selects, in the order of
    insertion. *)
Definition inInnings (mid : ObjectId) (k : nat) (d : Ball.t) : Prop :=
  Body.match_ (Ball.body d) = mid ∧ Ball.innings d = Z.of_nat k + 1.

Global Instance inInnings_dec mid k d : Decision (inInnings mid k d).
Proof. unfold inInnings. apply _. Defined.

Definition logged (st : Store) (mid : ObjectId) (k : nat) : list Ball.t :=
  filter (inInnings mid k) (balls st).

(** Sum of an integer quantity over ball events. *)
Definition total (f : Ball.t → Z) (l : list Ball.t) : Z :=
  foldr (λ d acc, f d + acc) 0 l.

Definition flag (c : bool) : Z := if c then 1 else 0.

Definition isLegal (d : Ball.t) : bool :=
  negb (Body.isWide (Ball.body d)) && negb (Body.isNoBall (Ball.body d)).

(** An innings as [/start] and the first-innings branch create it: every
    counter at 0 and not completed. *)
Definition zeroed (inn : Inn.t) : Prop :=
  Inn.runs inn = 0 ∧ Inn.wickets inn = 0 ∧ Inn.overs inn = 0%Q ∧
  Inn.balls inn = 0 ∧ Inn.extras inn = Extras.mk 0 0 0 0 ∧
  Inn.isCompleted inn = false.

(** The runs that a ball event is worth to its innings: its [runs], and 1
    for each of [isWide] and [isNoBall]. *)
Definition runsOf (d : Ball.t) : Z :=
  Body.runs (Ball.body d) + flag (Body.isWide (Ball.body d))
  + flag (Body.isNoBall (Ball.body d)).

(** The totals of an innings are those of its ball events. *)
Definition tallies (inn : Inn.t) (l : list Ball.t) : Prop :=
  Inn.runs inn = total runsOf l ∧
  Inn.wickets inn = total (λ d, flag (Body.isWicket (Ball.body d))) l ∧
  Inn.balls inn = total (λ d, flag (isLegal d)) l ∧
  Extras.wides (Inn.extras inn)
  = total (λ d, flag (Body.isWide (Ball.body d))) l ∧
  Extras.noBalls (Inn.extras inn)
  = total (λ d, flag (Body.isNoBall (Ball.body d))) l ∧
  Extras.byes (Inn.extras inn)
  = total (λ d, if Body.isBye (Ball.body d)
                then Body.runs (Ball.body d) else 0) l ∧
  Extras.legByes (Inn.extras inn)
  = total (λ d, if Body.isLegBye (Ball.body d)
                then Body.runs (Ball.body d) else 0) l.

(** The ball events of every match carry the number of one of its
    innings. *)
Definition numbered (st : Store) : Prop :=
  ∀ mid m d, matches st !! mid = Some m →
    d ∈ balls st → Body.match_ (Ball.body d) = mid →
    1 ≤ Ball.innings d ≤ Z.of_nat (length (Mat.innings m)).

(** Every innings of every match tallies with its ball events. *)
Definition reconciled (st : Store) : Prop :=
  ∀ mid m k inn, matches st !! mid = Some m →
    Mat.innings m !! k = Some inn → tallies inn (logged st mid k).

(** One innings against a later state of it: the teams are kept, a
    completed innings is still completed, and none of the counters that the
    handler only ever adds 1 to has gone down. *)
Definition inningsKept (a a' : Inn.t) : Prop :=
  Inn.battingTeam a' = Inn.battingTeam a ∧
  Inn.bowlingTeam a' = Inn.bowlingTeam a ∧
  Inn.wickets a ≤ Inn.wickets a' ∧
  Inn.balls a ≤ Inn.balls a' ∧
  Extras.wides (Inn.extras a) ≤ Extras.wides (Inn.extras a') ∧
  Extras.noBalls (Inn.extras a) ≤ Extras.noBalls (Inn.extras a') ∧
  (Inn.isCompleted a = true → Inn.isCompleted a' = true).

(** The totals that the runs of a request are added or appended to. *)
Definition countsUp (a : Inn.t) : Prop :=
  0 ≤ Inn.runs a ∧ 0 ≤ Extras.byes (Inn.extras a) ∧
  0 ≤ Extras.legByes (Inn.extras a).

Definition totalsLe (a a' : Inn.t) : Prop :=
  Inn.runs a ≤ Inn.runs a' ∧
  Extras.byes (Inn.extras a) ≤ Extras.byes (Inn.extras a') ∧
  Extras.legByes (Inn.extras a) ≤ Extras.legByes (Inn.extras a').

(** The parts of a match document that scoring only reads. *)
Definition sameFixture (m m' : Mat.t) : Prop :=
  Mat.team1 m' = Mat.team1 m ∧ Mat.team2 m' = Mat.team2 m ∧
  Mat.overs m' = Mat.overs m ∧ Mat.tossWinner m' = Mat.tossWinner m ∧
  Mat.tossDecision m' = Mat.tossDecision m.

(** The position of a ball event in its innings, read back from its stamp:
    [over] complete overs and [ball - 1] further balls. *)
Definition position (d : Ball.t) : Z := 6 * Ball.over d + (Ball.ball d - 1).

(** The order of [sort({ over: 1, ball: 1 })]. *)
Definition stampLe (d1 d2 : Ball.t) : Prop :=
  Ball.over d1 < Ball.over d2 ∨
  (Ball.over d1 = Ball.over d2 ∧ Ball.ball d1 ≤ Ball.ball d2).

(** The ball events of every innings sit at positions up to the innings'
    ball count, with [ball] in 1..6, and in the order of the sort. *)
Definition placed (inn : Inn.t) (l : list Ball.t) : Prop :=
  Forall (λ d, 1 ≤ Ball.ball d ≤ 6 ∧ position d ≤ Inn.balls inn) l ∧
  StronglySorted stampLe l.

Definition ordered (st : Store) : Prop :=
  ∀ mid m k inn, matches st !! mid = Some m → Mat.innings m !! k = Some inn →
                 placed inn (logged st mid k).

(** ** Matches under scoring *)

(** The two forms of a match that has been started: one open innings, or a
    completed first innings and a second with the teams swapped, open while
    the match is live and completed, with the result computed from the two,
    once the match is. *)
Definition twoInnings (m : Mat.t) : Prop :=
  (∃ a, Mat.innings m = [a] ∧ Mat.status m = live ∧
        Inn.isCompleted a = false) ∨
  (∃ a c,
     Mat.innings m = [a; c] ∧ Mat.currentInnings m = 2 ∧
     Inn.isCompleted a = true ∧
     Inn.battingTeam c = Inn.bowlingTeam a ∧
     Inn.bowlingTeam c = Inn.battingTeam a ∧
     ((Mat.status m = live ∧ Inn.isCompleted c = false) ∨
      (Mat.status m = completed ∧ Inn.isCompleted c = true ∧
       ∃ r, Mat.result m = calcResult r a c))).

(** What scoring keeps of the counters of an innings, for a match of
    [maxOvers] overs.  The limit is only ever compared with the completed
    overs [floor (balls / 6)]: these stay below it while the innings is
    open, and they had not reached it before the last ball of the
    innings. *)
Definition wellKept (maxOvers : Z) (inn : Inn.t) : Prop :=
  0 ≤ Inn.runs inn ∧ 0 ≤ Inn.wickets inn ∧ 0 ≤ Inn.balls inn ∧
  0 ≤ Extras.wides (Inn.extras inn) ∧ 0 ≤ Extras.noBalls (Inn.extras inn) ∧
  0 ≤ Extras.byes (Inn.extras inn) ∧ 0 ≤ Extras.legByes (Inn.extras inn) ∧
  (Inn.overs inn == inject_Z (Inn.balls inn / 6)
                    + inject_Z (Inn.balls inn mod 6) / inject_Z 10)%Q ∧
  (0 < maxOvers →
   (Inn.balls inn - 1) / 6 < maxOvers ∧
   (Inn.isCompleted inn = false → Inn.balls inn / 6 < maxOvers)).

(** ** The scorecard (scoring.js, lines 236-336) *)

(** A JavaScript object used as a dictionary from identifiers to figures:
    an association list in insertion order, which is the order of
    [Object.values] for keys that are not array indices, as the 24 hex
    digits of an [ObjectId] never are.  Assigning an existing key keeps its
    place; assigning a new key appends. *)
Fixpoint objGet {A} (k : ObjectId) (o : list (ObjectId * A)) : option A :=
  match o with
  | [] => None
  | (k', v) :: o => if decide (k = k') then Some v else objGet k o
  end.

Fixpoint objSet {A} (k : ObjectId) (v : A) (o : list (ObjectId * A))
  : list (ObjectId * A) :=
  match o with
  | [] => [(k, v)]
  | (k', v') :: o =>
    if decide (k = k') then (k, v) :: o else (k', v') :: objSet k v o
  end.

(** An entry of [battingStats].  [player] is the populated batsman, held by
    its identifier; [dismissal] is held as the ball event whose
    [wicketType], bowler and fielder the handler copies. *)
Module Bat.
Record t := mk {
  player : ObjectId;
  runs : Z;
  balls : Z;
  fours : Z;
  sixes : Z;
  isOut : bool;
  dismissal : option Ball.t
}.
End Bat.

(** An entry of [bowlingStats]. *)
Module Bowl.
Record t := mk {
  player : ObjectId;
  overs : Q;
  runs : Z;
  wickets : Z;
  maidens : Z;
  wides : Z;
  noBalls : Z
}.
End Bowl.

Definition batInit (p : ObjectId) : Bat.t := Bat.mk p 0 0 0 0 false None.

(** Lines 272-290 on the entry of the batsman. *)
Definition batBall (s : Bat.t) (d : Ball.t) : Bat.t :=
  let b := Ball.body d in
  Bat.mk (Bat.player s)
    (if negb (Body.isBye b) && negb (Body.isLegBye b)
     then Bat.runs s + Body.runs b else Bat.runs s)
    (if negb (Body.isWide b) && negb (Body.isNoBall b)
     then Bat.balls s + 1 else Bat.balls s)
    (if Body.runs b =? 4 then Bat.fours s + 1 else Bat.fours s)
    (if Body.runs b =? 6 then Bat.sixes s + 1 else Bat.sixes s)
    (if Body.isWicket b then true else Bat.isOut s)
    (if Body.isWicket b then Some d else Bat.dismissal s).

(** Lines 260-290: the entry is created on the first ball of the batsman,
    then updated. *)
Definition batStep (o : list (ObjectId * Bat.t)) (d : Ball.t)
  : list (ObjectId * Bat.t) :=
  let k := Body.batsman (Ball.body d) in
  objSet k (batBall (default (batInit k) (objGet k o)) d) o.

Definition bowlInit (p : ObjectId) : Bowl.t := Bowl.mk p 0%Q 0 0 0 0 0.

(** Lines 305-308 on the entry of the bowler. *)
Definition bowlBall (s : Bowl.t) (d : Ball.t) : Bowl.t :=
  let b := Ball.body d in
  Bowl.mk (Bowl.player s) (Bowl.overs s)
    (Bowl.runs s + Body.runs b)
    (if Body.isWicket b then Bowl.wickets s + 1 else Bowl.wickets s)
    (Bowl.maidens s)
    (if Body.isWide b then Bowl.wides s + 1 else Bowl.wides s)
    (if Body.isNoBall b then Bowl.noBalls s + 1 else Bowl.noBalls s).

Definition bowlStep (o : list (ObjectId * Bowl.t)) (d : Ball.t)
  : list (ObjectId * Bowl.t) :=
  let k := Body.bowler (Ball.body d) in
  objSet k (bowlBall (default (bowlInit k) (objGet k o)) d) o.

(** Lines 312-318: the legal balls of the bowler, recounted from the whole
    list, in the overs notation. *)
Definition bowlerBalls (bs : list Ball.t) (p : ObjectId) : Z :=
  Z.of_nat (length (filter (λ d, Body.bowler (Ball.body d) = p
                                 ∧ isLegal d = true) bs)).

Definition setOvers (bs : list Ball.t) (s : Bowl.t) : Bowl.t :=
  let n := bowlerBalls bs (Bowl.player s) in
  Bowl.mk (Bowl.player s)
    (inject_Z (n / 6) + inject_Z (Z.rem n 6) / inject_Z 10)%Q
    (Bowl.runs s) (Bowl.wickets s) (Bowl.maidens s) (Bowl.wides s)
    (Bowl.noBalls s).

Definition battingStats (bs : list Ball.t) : list Bat.t :=
  (foldl batStep [] bs).*2.

Definition bowlingStats (bs : list Ball.t) : list Bowl.t :=
  setOvers bs <$> (foldl bowlStep [] bs).*2.

Inductive ScoreResponse :=
| ScoreFailure (code : Z) (message : string)
| Scorecard (m : Mat.t) (batting : list Bat.t) (bowling : list Bowl.t)
            (balls : list Ball.t).

(** The handler, given the players that exist and the list [bs] that
    [Ball.find({ match }).sort({ innings: 1, over: 1, ball: 1 })] returned:
    the ball events of the match, each once, events with equal keys coming
    in an order the database chooses.  A ball whose batsman or bowler is
    gone is populated with [null], and reading [_id] of it throws. *)
Definition scorecard (st : Store) (players : gset ObjectId) (mid : ObjectId)
    (bs : list Ball.t) : ScoreResponse :=
  match matches st !! mid with
  | None => ScoreFailure 404 "Match not found"
  | Some m =>
    if forallb (λ d, bool_decide (Body.batsman (Ball.body d) ∈ players)
                     && bool_decide (Body.bowler (Ball.body d) ∈ players)) bs
    then Scorecard m (battingStats bs) (bowlingStats bs) bs
    else ScoreFailure 500 "Server error"
  end.

(** The figures of one player, computed from the list directly. *)
Definition faced (p : ObjectId) (bs : list Ball.t) : list Ball.t :=
  filter (λ d, Body.batsman (Ball.body d) = p) bs.

Definition bowled (p : ObjectId) (bs : list Ball.t) : list Ball.t :=
  filter (λ d, Body.bowler (Ball.body d) = p) bs.

Definition sumOf {A} (f : A → Z) (l : list A) : Z :=
  foldr (λ x acc, f x + acc) 0 l.

(** The loop of lines 258-309 for one of the two dictionaries: [key] picks
    the player of a ball, [init] is the entry created on the player's first
    ball and [upd] the update made on every ball. *)
Definition statStep {A} (key : Ball.t → ObjectId) (init : ObjectId → A)
    (upd : A → Ball.t → A) (o : list (ObjectId * A)) (d : Ball.t)
  : list (ObjectId * A) :=
  objSet (key d) (upd (default (init (key d)) (objGet (key d) o)) d) o.

(** The balls of one player, in the order of the list. *)
Definition byPlayer (key : Ball.t → ObjectId) (p : ObjectId)
    (l : list Ball.t) : list Ball.t :=
  filter (λ d, key d = p) l.

(** * Facts about the embedding *)

Local Ltac by_evaluation :=
  unfold accepts; split_and!; vm_compute; reflexivity.

(** ** Numbers and strings of digits *)

Lemma digitValue_char d :
  (d < 10)%N → digitValue (pretty_N_char d) = Some (Z.of_N d).
Proof.
  intros Hd. rewrite <- (N2Nat.id d) in *.
  remember (N.to_nat d) as n eqn:Hn. clear Hn d.
  do 10 (destruct n as [|n]; [reflexivity|]). lia.
Qed.

Lemma digitsValue_app s1 s2 acc :
  digitsValue acc (s1 +:+ s2) = digitsValue acc s1 ≫= λ a, digitsValue a s2.
Proof.
  revert acc. induction s1 as [|c s1 IH]; intros acc; [done|].
  simpl. destruct (digitValue c); simpl; [apply IH | done].
Qed.

Lemma append_assoc (s1 s2 s3 : string) :
  (s1 +:+ s2) +:+ s3 = s1 +:+ (s2 +:+ s3).
Proof.
  induction s1 as [|c s1 IH]; [done|].
  change (String c ((s1 +:+ s2) +:+ s3) = String c (s1 +:+ (s2 +:+ s3))).
  by rewrite IH.
Qed.

Lemma pretty_N_go_digits x : ∀ s,
  ∃ p, pretty_N_go x s = p +:+ s ∧
       (x ≠ 0%N → p ≠ EmptyString) ∧
       ∀ acc, ∃ y, digitsValue acc p = Some y ∧
                   (0 ≤ acc → acc ≤ y) ∧ (acc = 0 → y = Z.of_N x).
Proof.
  induction (N.lt_wf_0 x) as [x _ IH]; intros s.
  assert (x = 0 ∨ 0 < x)%N as [->|Hx] by lia.
  - exists EmptyString. rewrite pretty_N_go_0. split_and!; [done..|].
    intros acc. exists acc. simpl. split_and!; [done|lia|by intros ->].
  - rewrite pretty_N_go_step by done.
    destruct (IH (x `div` 10)%N (N.div_lt x 10 Hx eq_refl)
                 (String (pretty_N_char (x `mod` 10)) s)) as (p & -> & _ & Hp).
    exists (p +:+ String (pretty_N_char (x `mod` 10)) EmptyString).
    split_and!.
    + by rewrite append_assoc.
    + intros _. destruct p; done.
    + intros acc. destruct (Hp acc) as (y & Hy & Hge & H0).
      rewrite digitsValue_app, Hy. simpl.
      rewrite digitValue_char by (by apply N.mod_lt). simpl.
      eexists. split; [done|].
      pose proof (N.mod_lt x 10 ltac:(done)).
      split.
      * intros Ha. specialize (Hge Ha).
        pose proof (N2Z.is_nonneg (x `mod` 10)). lia.
      * intros Hacc. rewrite (H0 Hacc).
        rewrite (N.div_mod x 10) at 3 by done.
        rewrite N2Z.inj_add, N2Z.inj_mul. done.
Qed.

Lemma pretty_N_digits (n : N) :
  pretty n ≠ EmptyString ∧
  ∀ acc, ∃ y, digitsValue acc (pretty n) = Some y ∧
              (0 ≤ acc → acc ≤ y) ∧ (acc = 0 → y = Z.of_N n).
Proof.
  unfold pretty, pretty_N. destruct (decide (n = 0%N)) as [->|Hn].
  - split; [done|]. intros acc. exists (10 * acc + 0). simpl.
    split_and!; [done|lia|lia].
  - destruct (pretty_N_go_digits n EmptyString) as (p & Hgo & Hp & Hv).
    assert (p +:+ EmptyString = p) as Hnil.
    { clear. induction p as [|c p IH]; [done|].
      change (String c (p +:+ EmptyString) = String c p). by rewrite IH. }
    rewrite Hnil in Hgo. rewrite Hgo.
    split; [by apply Hp | exact Hv].
Qed.

(** A string that starts with a digit is read as digits. *)
Lemma jsNumber_digits s y :
  s ≠ EmptyString → digitsValue 0 s = Some y → jsNumber s = Some y.
Proof.
  destruct s as [|c s]; [done|]. intros _ Hy. unfold jsNumber.
  simpl in Hy. destruct (digitValue c) as [d|] eqn:Hd; [|done].
  assert (c ≠ "-"%char) by (intros ->; done).
  assert (c ≠ "+"%char) by (intros ->; done).
  rewrite !bool_decide_eq_false_2 by done. simpl. by rewrite Hd.
Qed.

Lemma jsNumber_pretty (x : Z) : jsNumber (pretty x) = Some x.
Proof.
  destruct x as [|p|p]; [done| |].
  - change (pretty (Z.pos p)) with (pretty (N.pos p)).
    destruct (pretty_N_digits (N.pos p)) as [Hne Hv].
    destruct (Hv 0) as (y & Hy & _ & H0).
    rewrite (jsNumber_digits _ y) by done. by rewrite H0.
  - change (pretty (Z.neg p)) with (String "-" (pretty (N.pos p))).
    destruct (pretty_N_digits (N.pos p)) as [Hne Hv].
    destruct (Hv 0) as (y & Hy & _ & H0).
    unfold jsNumber. rewrite bool_decide_eq_true_2 by done.
    rewrite bool_decide_eq_false_2 by done. rewrite Hy, H0 by done.
    done.
Qed.

(** [Number (String x + t)] for a string [t] of digits: [t] is appended to
    the digits of [x], below its sign. *)
Lemma jsNumber_append (x : Z) (t : string) :
  jsNumber (pretty x +:+ t)
  = if 0 <=? x then digitsValue x t else Z.opp <$> digitsValue (- x) t.
Proof.
  destruct x as [|p|p].
  - done.
  - change (pretty (Z.pos p)) with (pretty (N.pos p)).
    destruct (pretty_N_digits (N.pos p)) as [Hne Hv].
    destruct (Hv 0) as (y & Hy & _ & H0). rewrite H0 in Hy by done.
    simpl (0 <=? _).
    destruct (digitsValue (Z.pos p) t) as [z|] eqn:Hz.
    + apply jsNumber_digits.
      * destruct (pretty (N.pos p)); done.
      * rewrite digitsValue_app, Hy. done.
    + assert (digitsValue 0 (pretty (N.pos p) +:+ t) = None) as Hnone
        by (rewrite digitsValue_app, Hy; done).
      destruct (pretty (N.pos p)) as [|c s] eqn:Hp; [done|].
      simpl in Hy. destruct (digitValue c) as [d|] eqn:Hd; [|done].
      assert (c ≠ "-"%char) by (intros ->; done).
      assert (c ≠ "+"%char) by (intros ->; done).
      change (String c s +:+ t) with (String c (s +:+ t)) in *.
      unfold jsNumber. rewrite !bool_decide_eq_false_2 by done. exact Hnone.
  - change (pretty (Z.neg p) +:+ t)
      with (String "-" (pretty (N.pos p) +:+ t)).
    destruct (pretty_N_digits (N.pos p)) as [Hne Hv].
    destruct (Hv 0) as (y & Hy & _ & H0). rewrite H0 in Hy by done.
    unfold jsNumber. rewrite bool_decide_eq_true_2 by done.
    rewrite bool_decide_eq_false_2
      by (destruct (pretty (N.pos p)); done).
    rewrite digitsValue_app, Hy. done.
Qed.

Lemma digitsValue_ge t : ∀ acc y,
  0 ≤ acc → digitsValue acc t = Some y → acc ≤ y.
Proof.
  induction t as [|c t IH]; intros acc y Hacc; simpl.
  - intros [= <-]. lia.
  - unfold digitValue. case_match eqn:Hc; [|done]. simpl. intros Hy.
    apply andb_prop in Hc as [?%Z.leb_le ?%Z.leb_le].
    apply IH in Hy; lia.
Qed.

Lemma digitsValue_is_Some t : ∀ acc,
  allDigits t = true → is_Some (digitsValue acc t).
Proof.
  induction t as [|c t IH]; intros acc; simpl; [eauto|].
  unfold isDigit. destruct (digitValue c); [|done]. simpl. apply IH.
Qed.

Lemma allDigits_app s1 s2 :
  allDigits (s1 +:+ s2) = allDigits s1 && allDigits s2.
Proof.
  induction s1 as [|c s1 IH]; simpl; [done|]. rewrite IH.
  by rewrite andb_assoc.
Qed.

Lemma allDigits_zeros k : allDigits (zeros k) = true.
Proof. induction k; [done|]. simpl. done. Qed.

Lemma allDigits_pretty (x : Z) : 0 ≤ x → allDigits (pretty x) = true.
Proof.
  intros Hx.
  assert (∀ s acc y, digitsValue acc s = Some y → allDigits s = true) as Hall.
  { induction s as [|c s IH]; intros acc y; simpl; [done|].
    unfold isDigit. destruct (digitValue c); [|done]. simpl. apply IH. }
  destruct x as [|p|p]; [done| |lia].
  change (pretty (Z.pos p)) with (pretty (N.pos p)).
  destruct (pretty_N_digits (N.pos p)) as [_ Hv].
  destruct (Hv 0) as (y & Hy & _). by eapply Hall.
Qed.

Lemma plusAssign_number x y : plusAssign x (JsNumber y) = x + y.
Proof. done. Qed.

(** Appending digits to a total that is not negative does not lower it. *)
Lemma plusAssign_string_ge x t : 0 ≤ x → x ≤ plusAssign x (JsString t).
Proof.
  intros Hx. unfold plusAssign. simpl. rewrite jsNumber_append.
  destruct (Z.leb_spec 0 x); [|lia].
  destruct (digitsValue x t) as [y|] eqn:Hy; simpl; [|lia].
  by eapply digitsValue_ge.
Qed.

Lemma plusAssign_string_casts x t :
  allDigits t = true →
  is_Some (castNumber (jsPlus (JsNumber x) (JsString t))).
Proof.
  intros Ht. simpl. rewrite jsNumber_append.
  destruct (0 <=? x).
  - by apply digitsValue_is_Some.
  - destruct (digitsValue_is_Some t (- x) Ht) as [y ->]. simpl. eauto.
Qed.

(** ** The runs of a request *)

Lemma bodyRuns_number b : sentAsNumber b → bodyRuns b = JsNumber (Body.runs b).
Proof. unfold sentAsNumber, bodyRuns. by intros ->. Qed.

(** Sent as a number, the runs and the penalty runs are added up. *)
Lemma runsToAdd_number b :
  sentAsNumber b →
  runsToAdd b
  = JsNumber (Body.runs b + flag (Body.isWide b) + flag (Body.isNoBall b)).
Proof.
  intros Hb. unfold runsToAdd. rewrite (bodyRuns_number b Hb).
  destruct (Body.isWide b), (Body.isNoBall b); simpl; f_equal; lia.
Qed.

Lemma bodyRuns_string b k :
  Body.runsSent b = Body.asString k →
  bodyRuns b = JsString (sentText b) ∧
  (0 ≤ Body.runs b → allDigits (sentText b) = true).
Proof.
  unfold bodyRuns, sentText. intros ->. split; [done|]. intros Hr.
  by rewrite allDigits_app, allDigits_zeros, allDigits_pretty.
Qed.

(** Sent as a string, they are concatenated: a 1 is appended for each
    flag. *)
Lemma runsToAdd_string b k :
  Body.runsSent b = Body.asString k →
  ∃ t, runsToAdd b = JsString t ∧ (0 ≤ Body.runs b → allDigits t = true).
Proof.
  intros Hb. destruct (bodyRuns_string b k Hb) as [Hs Hd].
  unfold runsToAdd. rewrite Hs.
  destruct (Body.isWide b), (Body.isNoBall b); simpl; eexists;
    (split; [done|]); intros Hr; rewrite ?allDigits_app, (Hd Hr); done.
Qed.

(** With [runs] not negative, as the ball schema has checked when the
    totals are updated, every value the handler assigns casts. *)
Lemma bodyRuns_casts b x :
  0 ≤ Body.runs b → is_Some (castNumber (jsPlus (JsNumber x) (bodyRuns b))).
Proof.
  intros Hr. destruct (Body.runsSent b) as [|k] eqn:Hb.
  - rewrite bodyRuns_number by done. simpl. eauto.
  - destruct (bodyRuns_string b k Hb) as [-> Hd].
    apply plusAssign_string_casts. auto.
Qed.

Lemma runsToAdd_casts b x :
  0 ≤ Body.runs b → is_Some (castNumber (jsPlus (JsNumber x) (runsToAdd b))).
Proof.
  intros Hr. destruct (Body.runsSent b) as [|k] eqn:Hb.
  - rewrite runsToAdd_number by done. simpl. eauto.
  - destruct (runsToAdd_string b k Hb) as (t & -> & Hd).
    apply plusAssign_string_casts. auto.
Qed.

(** A total that is not negative does not go down, however the runs were
    sent. *)
Lemma bodyRuns_ge b x :
  0 ≤ Body.runs b → 0 ≤ x → x ≤ plusAssign x (bodyRuns b).
Proof.
  intros Hr Hx. destruct (Body.runsSent b) as [|k] eqn:Hb.
  - rewrite bodyRuns_number, plusAssign_number by done. lia.
  - destruct (bodyRuns_string b k Hb) as [-> _].
    by apply plusAssign_string_ge.
Qed.

Lemma runsToAdd_ge b x :
  0 ≤ Body.runs b → 0 ≤ x → x ≤ plusAssign x (runsToAdd b).
Proof.
  intros Hr Hx. destruct (Body.runsSent b) as [|k] eqn:Hb.
  - rewrite runsToAdd_number, plusAssign_number by done.
    unfold flag. repeat case_match; lia.
  - destruct (runsToAdd_string b k Hb) as (t & -> & _).
    by apply plusAssign_string_ge.
Qed.

Section current.
Context (m : Mat.t) (i : nat) (inn : Inn.t).
Hypothesis Hcur : currentInnings m = Some (i, inn).

Lemma currentInnings_lookup : Mat.innings m !! i = Some inn.
Proof using Hcur.
  unfold currentInnings in Hcur.
  destruct (1 <=? Mat.currentInnings m); [|done].
  destruct (Mat.innings m !! Z.to_nat (Mat.currentInnings m - 1)) eqn:E;
    simplify_eq/=. done.
Qed.

Lemma currentInnings_index :
  1 ≤ Mat.currentInnings m ∧ i = Z.to_nat (Mat.currentInnings m - 1).
Proof using Hcur.
  unfold currentInnings in Hcur.
  destruct (Z.leb_spec 1 (Mat.currentInnings m)); [|done].
  destruct (Mat.innings m !! Z.to_nat (Mat.currentInnings m - 1));
    simplify_eq/=. done.
Qed.

Lemma currentInnings_lt : (i < length (Mat.innings m))%nat.
Proof using Hcur. eapply lookup_lt_Some, currentInnings_lookup. Qed.

(** When the innings goes on, only the slot of the current innings is
    written. *)
Lemma updateMatch_open b :
  inningsOver (Mat.overs m) (accumulate inn b) = false →
  updateMatch m i inn b
  = Some (setInnings m (<[i := accumulate inn b]> (Mat.innings m))).
Proof using Type. intros H. unfold updateMatch. by rewrite H. Qed.

(** End of the first innings. *)
Lemma updateMatch_first b :
  inningsOver (Mat.overs m) (accumulate inn b) = true →
  Mat.currentInnings m = 1 →
  i = 0%nat ∧
  updateMatch m i inn b
  = Some (startSecond m
            (<[i := markCompleted (accumulate inn b)]> (Mat.innings m)
             ++ [secondInnings (markCompleted (accumulate inn b))])).
Proof using Hcur.
  intros Hov Hci. destruct currentInnings_index as [_ Hi].
  pose proof currentInnings_lt as Hlt.
  rewrite Hci in Hi. simpl in Hi. split; [done|].
  unfold updateMatch. rewrite Hov, Hci, Hi. simpl.
  rewrite list_lookup_insert_eq by lia. done.
Qed.

(** End of any later innings: the first two innings exist, so the reads
    of [match.innings[0]] and [match.innings[1]] cannot throw. *)
Lemma updateMatch_last b :
  inningsOver (Mat.overs m) (accumulate inn b) = true →
  Mat.currentInnings m ≠ 1 →
  let l := <[i := markCompleted (accumulate inn b)]> (Mat.innings m) in
  ∃ firstInnings second,
    l !! 0%nat = Some firstInnings ∧ l !! 1%nat = Some second ∧
    updateMatch m i inn b
    = Some (finish m l (calcResult (Mat.result m) firstInnings second)).
Proof using Hcur.
  intros Hov Hci l. destruct currentInnings_index as [Hge Hi].
  pose proof currentInnings_lt as Hlt.
  assert (1 ≤ i)%nat as Hi1 by lia.
  assert (length l = length (Mat.innings m)) as Hlen
    by apply length_insert.
  destruct (lookup_lt_is_Some_2 l 0%nat) as [f Hf]; [lia|].
  destruct (lookup_lt_is_Some_2 l 1%nat) as [s Hs]; [lia|].
  exists f, s. split_and!; [done..|].
  unfold updateMatch. rewrite Hov.
  destruct (Z.eqb_spec (Mat.currentInnings m) 1); [done|].
  fold l. rewrite Hf, Hs. done.
Qed.

Lemma updateMatch_total b : is_Some (updateMatch m i inn b).
Proof using Hcur.
  destruct (inningsOver (Mat.overs m) (accumulate inn b)) eqn:Hov.
  - destruct (decide (Mat.currentInnings m = 1)) as [Hci|Hci].
    + destruct (updateMatch_first b Hov Hci) as [_ ->]. eauto.
    + destruct (updateMatch_last b Hov Hci) as (?&?&_&_&->). eauto.
  - rewrite updateMatch_open by done. eauto.
Qed.
End current.

(** An accepted request is answered 201; the ball document is appended and
    the updated match written back. *)
Lemma recordBall_accepted st b m i inn :
  accepts st b m i inn →
  ∃ m', updateMatch m i inn b = Some m' ∧
    recordBall st b
    = (Created (ballData m inn b) (Mat.status m') (Mat.currentInnings m')
               (Mat.innings m'),
       mkStore (<[Body.match_ b := m']> (matches st))
               (balls st ++ [ballData m inn b])).
Proof.
  intros (Hreq & Hm & Hlive & Hcur & Hopen & Hball).
  destruct (updateMatch_total m i inn Hcur b) as [m' Hm'].
  exists m'. split; [done|].
  unfold recordBall. rewrite Hreq, Hm, Hlive, Hcur, Hopen, Hball, Hm'. done.
Qed.

(** ** The ball index *)

(** [x % 6] lies strictly between -6 and 6, so [x % 6 + 1] is never 7 and
    the guard of lines 102-107 never fires. *)
Lemma ballIndex_unguarded bs w nb :
  ballIndex bs w nb
  = (totalBalls bs w nb / 6, Z.rem (totalBalls bs w nb) 6 + 1).
Proof.
  unfold ballIndex. cbv zeta.
  pose proof (Z.rem_bound_abs (totalBalls bs w nb) 6) as Hb.
  destruct (Z.eqb_spec (Z.rem (totalBalls bs w nb) 6 + 1) 7); [lia|done].
Qed.

Lemma totalBalls_legal bs w nb :
  totalBalls bs w nb = if w || nb then bs else bs + 1.
Proof. unfold totalBalls. destruct (w || nb); lia. Qed.

(** A ball document that passes the schema was computed from a non-negative
    prospective total. *)
Lemma validBall_total m inn b :
  validBall (ballData m inn b) = true →
  0 ≤ totalBalls (Inn.balls inn) (Body.isWide b) (Body.isNoBall b).
Proof.
  unfold validBall, ballData. rewrite ballIndex_unguarded. simpl.
  intros H. repeat (apply andb_prop in H as [H ?]).
  assert (0 ≤ totalBalls (Inn.balls inn) (Body.isWide b) (Body.isNoBall b) / 6)
    as Hq by lia.
  destruct (Z.le_gt_cases 0
    (totalBalls (Inn.balls inn) (Body.isWide b) (Body.isNoBall b)));
    [done|].
  pose proof (Z.div_lt_upper_bound
    (totalBalls (Inn.balls inn) (Body.isWide b) (Body.isNoBall b)) 6 0).
  lia.
Qed.

Lemma validBall_inRange d : validBall d = true → ballInRange d.
Proof.
  unfold validBall, ballInRange.
  intros H. repeat (apply andb_prop in H as [H ?]). lia.
Qed.

(** Whatever the handler answers, it appends at most the one document it
    validated. *)
Lemma recordBall_balls st b :
  balls (snd (recordBall st b)) = balls st ∨
  ∃ d, validBall d = true ∧ balls (snd (recordBall st b)) = balls st ++ [d].
Proof.
  unfold recordBall.
  repeat (case_match; simpl; auto);
    right; eexists; (split; [|done]); by apply negb_false_iff.
Qed.

Lemma recordBalls_inRange reqs : ∀ st,
  Forall ballInRange (balls st) →
  Forall ballInRange (balls (recordBalls st reqs)).
Proof.
  induction reqs as [|b reqs IH]; intros st Hst; [done|].
  apply IH. destruct (recordBall_balls st b) as [->|(d & Hd & ->)]; [done|].
  apply Forall_app. split; [done|].
  constructor; [by apply validBall_inRange | constructor].
Qed.

(** ** The innings a ball was recorded in *)

Lemma updateMatch_current m i inn b m' :
  currentInnings m = Some (i, inn) →
  updateMatch m i inn b = Some m' →
  Mat.innings m' !! i = Some (scored m inn b).
Proof.
  intros Hcur Hup. pose proof (currentInnings_lt m i inn Hcur) as Hlt.
  unfold scored.
  destruct (inningsOver (Mat.overs m) (accumulate inn b)) eqn:Hov.
  - destruct (decide (Mat.currentInnings m = 1)) as [Hci|Hci].
    + destruct (updateMatch_first m i inn Hcur b Hov Hci) as [_ Heq].
      rewrite Heq in Hup. simplify_eq/=.
      rewrite lookup_app_l by (by rewrite length_insert).
      by apply list_lookup_insert_eq.
    + destruct (updateMatch_last m i inn Hcur b Hov Hci) as (f&s&_&_&Heq).
      rewrite Heq in Hup. simplify_eq/=.
      by apply list_lookup_insert_eq.
  - rewrite (updateMatch_open m i inn b Hov) in Hup. simplify_eq/=.
    by apply list_lookup_insert_eq.
Qed.

Lemma recordBall_current st b m i inn :
  accepts st b m i inn →
  ∃ m', updateMatch m i inn b = Some m' ∧
    matches (snd (recordBall st b)) !! Body.match_ b = Some m' ∧
    balls (snd (recordBall st b)) = balls st ++ [ballData m inn b] ∧
    Mat.innings m' !! i = Some (scored m inn b).
Proof.
  intros Hacc. destruct (recordBall_accepted st b m i inn Hacc) as (m'&Hup&->).
  exists m'. simpl. split_and!; [done| |done|].
  - apply lookup_insert_eq.
  - destruct Hacc as (_&_&_&Hcur&_). by eapply updateMatch_current.
Qed.

Lemma scored_runs m inn b :
  Inn.runs (scored m inn b) = plusAssign (Inn.runs inn) (runsToAdd b).
Proof. unfold scored. by case_match. Qed.

Lemma scored_wickets m inn b :
  Inn.wickets (scored m inn b) = Inn.wickets inn + flag (Body.isWicket b).
Proof.
  unfold scored, flag. repeat case_match; simpl; try case_match;
    simplify_eq; lia.
Qed.

Lemma scored_extras m inn b :
  Inn.extras (scored m inn b) = addExtras (Inn.extras inn) b.
Proof. unfold scored. by case_match. Qed.

(** The totals after a ball whose runs were sent as a number. *)
Lemma scored_number m inn b :
  sentAsNumber b →
  Inn.runs (scored m inn b)
  = Inn.runs inn + (Body.runs b + flag (Body.isWide b)
                                + flag (Body.isNoBall b)) ∧
  Extras.wides (Inn.extras (scored m inn b))
  = Extras.wides (Inn.extras inn) + flag (Body.isWide b) ∧
  Extras.noBalls (Inn.extras (scored m inn b))
  = Extras.noBalls (Inn.extras inn) + flag (Body.isNoBall b) ∧
  Extras.byes (Inn.extras (scored m inn b))
  = Extras.byes (Inn.extras inn) + (if Body.isBye b then Body.runs b else 0) ∧
  Extras.legByes (Inn.extras (scored m inn b))
  = Extras.legByes (Inn.extras inn)
    + (if Body.isLegBye b then Body.runs b else 0).
Proof.
  intros Hb.
  rewrite scored_runs, scored_extras, runsToAdd_number by done.
  unfold addExtras, flag. rewrite bodyRuns_number by done. simpl.
  rewrite !plusAssign_number.
  split_and!; [done|..]; case_match; lia.
Qed.

Lemma scored_balls m inn b :
  Inn.balls (scored m inn b)
  = totalBalls (Inn.balls inn) (Body.isWide b) (Body.isNoBall b).
Proof.
  unfold scored, totalBalls.
  case_match; simpl; destruct (Body.isWide b), (Body.isNoBall b); simpl; lia.
Qed.

Lemma scored_overs m inn b :
  Inn.overs (scored m inn b)
  = if Body.isWide b || Body.isNoBall b then Inn.overs inn
    else oversDisplay (Inn.balls inn + 1).
Proof.
  unfold scored.
  case_match; simpl; by destruct (Body.isWide b), (Body.isNoBall b).
Qed.

Lemma scored_teams m inn b :
  Inn.battingTeam (scored m inn b) = Inn.battingTeam inn ∧
  Inn.bowlingTeam (scored m inn b) = Inn.bowlingTeam inn.
Proof. unfold scored. by case_match. Qed.

Lemma scored_isCompleted m inn b :
  Inn.isCompleted inn = false →
  Inn.isCompleted (scored m inn b) = inningsOver (Mat.overs m) (accumulate inn b).
Proof. intros H. unfold scored. by case_match. Qed.

(** The display value of a non-negative count is the legacy notation
    [floor (balls / 6) + (balls % 6) / 10]. *)
Lemma oversDisplay_notation n :
  0 ≤ n →
  (oversDisplay n == inject_Z (n / 6) + inject_Z (n mod 6) / inject_Z 10)%Q.
Proof.
  intros Hn. unfold oversDisplay. rewrite Z.rem_mod_nonneg by lia.
  pose proof (Z.mod_pos_bound n 6) as Hm.
  destruct (Z.ltb_spec 0 (n mod 6)); [reflexivity|].
  replace (n mod 6) with 0 by lia.
  unfold Qeq. simpl. lia.
Qed.

(** * The claims *)

(** C6.  For an innings with a non-negative [balls] count [b], the ball
    event is stamped with [over = floor (t / 6)] and [ball = t % 6 + 1],
    where the prospective total [t] is [b + 1] for a delivery that is neither
    a wide nor a no-ball and [b] otherwise.  The index is a total function
    of the count and the two flags: it always yields a pair. *)
Theorem C6_ball_index (m : Mat.t) (inn : Inn.t) (b : Body.t) :
  0 ≤ Inn.balls inn →
  let t := if Body.isWide b || Body.isNoBall b
           then Inn.balls inn else Inn.balls inn + 1 in
  ballIndex (Inn.balls inn) (Body.isWide b) (Body.isNoBall b)
  = (t / 6, t mod 6 + 1) ∧
  Ball.over (ballData m inn b) = t / 6 ∧
  Ball.ball (ballData m inn b) = t mod 6 + 1.
Proof.
  intros Hb t. unfold ballData.
  rewrite ballIndex_unguarded, totalBalls_legal. fold t.
  assert (0 ≤ t) as Ht by (unfold t; case_match; lia).
  rewrite Z.rem_mod_nonneg by lia. done.
Qed.

Lemma C6_ball_index_witness :
  let inn := inningsAt "A" "B" 30 2 11 false in
  let m := matchWith 20 live 1 [inn] in
  0 ≤ Inn.balls inn ∧
  Ball.over (ballData m inn (delivery 4 false false false false false)) = 2 ∧
  Ball.ball (ballData m inn (delivery 4 false false false false false)) = 1 ∧
  Ball.over (ballData m inn (delivery 0 true false false false false)) = 1 ∧
  Ball.ball (ballData m inn (delivery 0 true false false false false)) = 6.
Proof.
  intros inn m.
  assert (0 ≤ Inn.balls inn) as Hb by (simpl; lia).
  split; [exact Hb|].
  destruct (C6_ball_index m inn (delivery 4 false false false false false) Hb)
    as (_ & Ho & Hk).
  destruct (C6_ball_index m inn (delivery 0 true false false false false) Hb)
    as (_ & Ho' & Hk').
  rewrite Ho, Hk, Ho', Hk'. done.
Defined.

(** C7.  For a non-negative [balls] count the value [t % 6 + 1] lies in
    1..6; the branch for [ball === 7] is therefore never taken (the index is
    the unguarded pair), and every ball event that a run of the handler
    persists has [1 <= ball <= 6]. *)
Theorem C7_ball_in_over (bs : Z) (isWide isNoBall : bool)
    (st : Store) (reqs : list Body.t) :
  0 ≤ bs →
  Forall ballInRange (balls st) →
  let t := totalBalls bs isWide isNoBall in
  1 ≤ Z.rem t 6 + 1 ≤ 6 ∧
  (Z.rem t 6 + 1 =? 7) = false ∧
  ballIndex bs isWide isNoBall = (t / 6, Z.rem t 6 + 1) ∧
  Forall ballInRange (balls (recordBalls st reqs)).
Proof.
  intros Hb Hst t.
  assert (0 ≤ t) as Ht
    by (unfold t; rewrite totalBalls_legal; case_match; lia).
  pose proof (Z.rem_bound_pos t 6 Ht) as Hr.
  split_and!.
  - lia.
  - lia.
  - apply Z.eqb_neq. lia.
  - apply ballIndex_unguarded.
  - by apply recordBalls_inRange.
Qed.

Lemma C7_ball_in_over_witness :
  let m := matchWith 1 live 1 [inningsAt "A" "B" 0 0 0 false] in
  let reqs := replicate 13 (delivery 1 false false false false false) in
  0 ≤ 5 ∧ Forall ballInRange (balls (storeOf m)) ∧
  ballIndex 5 false false = (1, 1) ∧
  length (balls (recordBalls (storeOf m) reqs)) = 12%nat ∧
  Forall ballInRange (balls (recordBalls (storeOf m) reqs)).
Proof.
  intros m reqs.
  assert (0 ≤ 5) as H5 by lia.
  assert (Forall ballInRange (balls (storeOf m))) as H0 by constructor.
  destruct (C7_ball_in_over 5 false false (storeOf m) reqs H5 H0)
    as (_ & _ & Hi & Hall).
  split_and!; [exact H5 | exact H0 | exact Hi | reflexivity | exact Hall].
Defined.

(** C4, which the handler falls short of.  A ball whose [runs] arrive as
    the string "4" passes the validators and is recorded, answered 201.
    Flagged a wide on a total of 30, it leaves [innings.runs] at 3041, the
    digits of "4" and of the penalty 1 appended to those of 30, where the
    claim has 30 + 4 + 1 = 35; the ball document holds the number 4 and
    [extras.wides] is up by 1. *)
Theorem C4_runs_concatenated :
  let inn := inningsAt "A" "B" 30 2 10 false in
  let m := matchWith 20 live 1 [inn] in
  let b := deliveryAsString 4 true false false false false in
  let inn' := Inn.mk (Some "A") (Some "B") 3041 2 (oversDisplay 10) 10
                     (Extras.mk 1 0 0 0) false in
  validRequest b = true ∧
  accepts (storeOf m) b m 0 inn ∧
  recordBall (storeOf m) b
  = (Created (Ball.mk b 1 1 5) live 1 [inn'],
     mkStore {["m1" := setInnings m [inn']]} [Ball.mk b 1 1 5]) ∧
  Body.runs (Ball.body (Ball.mk b 1 1 5)) = 4 ∧
  Inn.runs inn' ≠ Inn.runs inn + (4 + 1) ∧
  ¬ runs_added.
Proof.
  intros inn m b inn'.
  assert (accepts (storeOf m) b m 0 inn) as Hacc by by_evaluation.
  split_and!; [vm_compute; reflexivity | exact Hacc | vm_compute; reflexivity
              | reflexivity | vm_compute; discriminate |].
  intros H.
  assert (Inn.runs inn' = 35) as Habs.
  { apply (H (storeOf m) b m 0%nat inn (setInnings m [inn']));
      [exact Hacc | vm_compute; reflexivity | reflexivity]. }
  vm_compute in Habs. discriminate Habs.
Qed.

(** A wide on which four runs are taken adds five. *)
Lemma C5_counterexample :
  let inn := inningsAt "A" "B" 30 2 10 false in
  let m := matchWith 20 live 1 [inn] in
  let b := delivery 4 true false false false false in
  accepts (storeOf m) b m 0 inn ∧
  (∃ m' inn',
     matches (snd (recordBall (storeOf m) b)) !! "m1" = Some m' ∧
     Mat.innings m' !! 0%nat = Some inn' ∧
     Inn.runs inn' = Inn.runs inn + 5) ∧
  ¬ wide_adds_one.
Proof.
  intros inn m b.
  assert (accepts (storeOf m) b m 0 inn) as Hacc by by_evaluation.
  split_and!; [exact Hacc| |].
  - eexists _, _. split_and!; vm_compute; reflexivity.
  - intros H.
    assert (Inn.runs (scored m inn b) = Inn.runs inn + 1) as Habs.
    { apply (H (storeOf m) b m 0%nat inn (setInnings m [scored m inn b]));
        [exact Hacc | reflexivity | vm_compute; reflexivity | reflexivity]. }
    vm_compute in Habs. discriminate Habs.
Qed.

(** C5, amended.  For every ball recorded with [isWide] or [isNoBall] set
    whose [runs] are sent as a JSON number, the totals of the innings being
    well within the safe integers, [innings.balls] is unchanged,
    [innings.runs] grows by the ball's [runs] plus 1 for each of the two
    flags that is set (hence by exactly 1 when [runs] is 0 and one flag is
    set), and the extras counter of each flag that is set grows by exactly
    1.  Nothing is said of runs sent as a string. *)
Theorem C5_wide_no_ball (st : Store) (b : Body.t) (m : Mat.t) (i : nat)
    (inn : Inn.t) :
  accepts st b m i inn →
  sentAsNumber b →
  safeTotals inn →
  Body.isWide b || Body.isNoBall b = true →
  ∃ m' inn',
    matches (snd (recordBall st b)) !! Body.match_ b = Some m' ∧
    Mat.innings m' !! i = Some inn' ∧
    Inn.balls inn' = Inn.balls inn ∧
    Inn.runs inn'
    = Inn.runs inn + Body.runs b + (if Body.isWide b then 1 else 0)
                                 + (if Body.isNoBall b then 1 else 0) ∧
    (Body.runs b = 0 → Body.isWide b ≠ Body.isNoBall b →
     Inn.runs inn' = Inn.runs inn + 1) ∧
    (Body.isWide b = true →
     Extras.wides (Inn.extras inn') = Extras.wides (Inn.extras inn) + 1) ∧
    (Body.isNoBall b = true →
     Extras.noBalls (Inn.extras inn') = Extras.noBalls (Inn.extras inn) + 1).
Proof.
  intros Hacc Hnum _ Hflag.
  destruct (recordBall_current st b m i inn Hacc) as (m' & _ & Hm' & _ & Hi).
  exists m', (scored m inn b).
  destruct (scored_number m inn b Hnum) as (Hr & Hw & Hnb & _).
  rewrite scored_balls, totalBalls_legal, Hflag, Hr, Hw, Hnb.
  unfold flag. split_and!; [done..| | | |].
  - destruct (Body.isWide b), (Body.isNoBall b); lia.
  - intros Hr0 Hne.
    destruct (Body.isWide b), (Body.isNoBall b); try done; lia.
  - by intros ->.
  - by intros ->.
Qed.

Lemma C5_wide_no_ball_witness :
  let inn := inningsAt "A" "B" 30 2 10 false in
  let m := matchWith 20 live 1 [inn] in
  let b := delivery 4 true false false false false in
  accepts (storeOf m) b m 0 inn ∧
  sentAsNumber b ∧
  safeTotals inn ∧
  Body.isWide b || Body.isNoBall b = true ∧
  ∃ m' inn',
    matches (snd (recordBall (storeOf m) b)) !! "m1" = Some m' ∧
    Mat.innings m' !! 0%nat = Some inn' ∧
    Inn.balls inn' = 10 ∧
    Inn.runs inn' = 35 ∧
    Extras.wides (Inn.extras inn') = 1.
Proof.
  intros inn m b.
  assert (accepts (storeOf m) b m 0 inn) as Hacc by by_evaluation.
  assert (sentAsNumber b) as Hnum by reflexivity.
  assert (safeTotals inn) as Hsafe
    by (unfold safeTotals, safeInteger; simpl; lia).
  split_and!; [exact Hacc | exact Hnum | exact Hsafe | reflexivity |].
  destruct (C5_wide_no_ball (storeOf m) b m 0 inn Hacc Hnum Hsafe eq_refl)
    as (m' & inn' & Hm' & Hi & Hbl & Hr & _ & Hw & _).
  exists m', inn'.
  split_and!; [exact Hm' | exact Hi | exact Hbl | exact Hr | exact (Hw eq_refl)].
Defined.

Lemma inningsOver_spec maxOvers inn :
  inningsOver maxOvers inn = true
  ↔ (maxOvers ≤ Inn.balls inn / 6 ∨ 10 ≤ Inn.wickets inn).
Proof.
  unfold inningsOver. rewrite orb_true_iff, !Z.leb_le. done.
Qed.

Lemma scored_over m inn b :
  inningsOver (Mat.overs m) (scored m inn b)
  = inningsOver (Mat.overs m) (accumulate inn b).
Proof. unfold scored. by case_match. Qed.

(** C1.  After the accumulator update, if [floor (innings.balls / 6) >=
    match.overs] or [innings.wickets >= 10], the current innings is marked
    completed.  When it is the first innings, a second innings with the two
    teams swapped and [runs], [wickets], [overs], [balls] and the four extras
    counters at 0 is appended, [match.currentInnings] becomes 2 and the match
    stays live.  When it is the second, the result is computed from the two
    innings and [match.status] becomes completed. *)
Theorem C1_completion (st : Store) (b : Body.t) (m : Mat.t) (i : nat)
    (inn : Inn.t) :
  accepts st b m i inn →
  ∃ m' inn',
    matches (snd (recordBall st b)) !! Body.match_ b = Some m' ∧
    Mat.innings m' !! i = Some inn' ∧
    (Mat.overs m ≤ Inn.balls inn' / 6 ∨ 10 ≤ Inn.wickets inn' →
     Inn.isCompleted inn' = true ∧
     (Mat.currentInnings m = 1 →
      i = 0%nat ∧
      Mat.innings m'
      = <[i := inn']> (Mat.innings m)
        ++ [Inn.mk (Inn.bowlingTeam inn') (Inn.battingTeam inn')
                   0 0 0%Q 0 (Extras.mk 0 0 0 0) false] ∧
      Mat.currentInnings m' = 2 ∧
      Mat.status m' = live) ∧
     (Mat.currentInnings m = 2 →
      i = 1%nat ∧
      ∃ firstInnings,
        Mat.innings m !! 0%nat = Some firstInnings ∧
        Mat.innings m' = <[i := inn']> (Mat.innings m) ∧
        Mat.result m' = calcResult (Mat.result m) firstInnings inn' ∧
        Mat.status m' = completed)).
Proof.
  intros Hacc.
  destruct (recordBall_current st b m i inn Hacc) as (m' & Hup & Hm' & _ & Hi).
  destruct Hacc as (_ & _ & Hlive & Hcur & Hopen & _).
  exists m', (scored m inn b). split_and!; [done..|].
  intros Hov%inningsOver_spec. rewrite scored_over in Hov.
  assert (scored m inn b = markCompleted (accumulate inn b)) as Hsc
    by (unfold scored; by rewrite Hov).
  split_and!.
  - by rewrite scored_isCompleted.
  - intros Hci.
    destruct (updateMatch_first m i inn Hcur b Hov Hci) as [Hi0 Heq].
    rewrite Heq in Hup. simplify_eq/=. rewrite Hsc. done.
  - intros Hci.
    destruct (updateMatch_last m i inn Hcur b Hov) as (f & s & Hf & Hs & Heq);
      [lia|].
    destruct (currentInnings_index m i inn Hcur) as [_ Hidx].
    rewrite Hci in Hidx. change (Z.to_nat (2 - 1)) with 1%nat in Hidx.
    rewrite Heq in Hup. injection Hup as <-. simpl in *.
    split; [done|]. subst i.
    rewrite list_lookup_insert_ne in Hf by done.
    rewrite Hsc in *. rewrite Hi in Hs. injection Hs as <-.
    exists f. done.
Qed.

Lemma C1_completion_witness :
  let inn := inningsAt "A" "B" 30 2 5 false in
  let m := matchWith 1 live 1 [inn] in
  let b := delivery 2 false false false false false in
  accepts (storeOf m) b m 0 inn ∧
  ∃ m',
    matches (snd (recordBall (storeOf m) b)) !! "m1" = Some m' ∧
    Mat.innings m'
    = [inningsAt "A" "B" 32 2 6 true; inningsAt "B" "A" 0 0 0 false] ∧
    Mat.currentInnings m' = 2 ∧
    Mat.status m' = live.
Proof.
  intros inn m b.
  assert (accepts (storeOf m) b m 0 inn) as Hacc by by_evaluation.
  split; [exact Hacc|].
  destruct (C1_completion (storeOf m) b m 0 inn Hacc)
    as (m' & inn' & Hm' & Hi & Hdone).
  assert (Some inn' = Some (inningsAt "A" "B" 32 2 6 true)) as Hinn'.
  { rewrite <- Hi.
    assert (Some m' = Some (matchWith 1 live 2
              [inningsAt "A" "B" 32 2 6 true; inningsAt "B" "A" 0 0 0 false]))
      as Heq by (rewrite <- Hm'; vm_compute; reflexivity).
    injection Heq as ->. reflexivity. }
  injection Hinn' as ->.
  destruct Hdone as (_ & Hfirst & _); [left; vm_compute; discriminate|].
  destruct (Hfirst eq_refl) as (_ & Hl & Hci & Hst).
  exists m'. split_and!; [exact Hm' | exact Hl | exact Hci | exact Hst].
Defined.

(** What the ball that ends the second innings leaves in the match. *)
Lemma second_innings_over m inn b firstInnings m' :
  currentInnings m = Some (1%nat, inn) →
  Mat.innings m !! 0%nat = Some firstInnings →
  updateMatch m 1 inn b = Some m' →
  inningsOver (Mat.overs m) (accumulate inn b) = true →
  Mat.currentInnings m ≠ 1 →
  m' = finish m (<[1%nat := scored m inn b]> (Mat.innings m))
              (calcResult (Mat.result m) firstInnings (scored m inn b)).
Proof.
  intros Hcur Hfirst Hup Hov Hci.
  destruct (updateMatch_last m 1 inn Hcur b Hov Hci) as (f & s & Hf & Hs & Heq).
  pose proof (currentInnings_lt m 1 inn Hcur) as Hlt.
  rewrite list_lookup_insert_ne in Hf by done.
  rewrite list_lookup_insert_eq in Hs by done.
  unfold scored. rewrite Hov. congruence.
Qed.

(** C2.  When the second innings completes, the result is determined by the
    two run totals and the second innings' wickets: more runs in the second
    innings give its batting team the win, [resultType] wickets and margin
    [10 - secondInnings.wickets] followed by " wickets"; more runs in the
    first give its batting team the win, [resultType] runs and margin the
    difference followed by " runs"; equal totals give [resultType] tie and
    margin "Match tied", and [winner] is not assigned. *)
Theorem C2_result (st : Store) (b : Body.t) (m : Mat.t) (i : nat)
    (inn firstInnings : Inn.t) :
  accepts st b m i inn →
  Mat.currentInnings m = 2 →
  Mat.innings m !! 0%nat = Some firstInnings →
  ∃ m' second,
    matches (snd (recordBall st b)) !! Body.match_ b = Some m' ∧
    Mat.innings m' !! 0%nat = Some firstInnings ∧
    Mat.innings m' !! 1%nat = Some second ∧
    (Inn.isCompleted second = true →
     Mat.status m' = completed ∧
     (Inn.runs firstInnings < Inn.runs second →
      Res.winner (Mat.result m') = Inn.battingTeam second ∧
      Res.resultType (Mat.result m') = Some by_wickets ∧
      Res.margin (Mat.result m')
      = Some (pretty (10 - Inn.wickets second) +:+ " wickets")) ∧
     (Inn.runs second < Inn.runs firstInnings →
      Res.winner (Mat.result m') = Inn.battingTeam firstInnings ∧
      Res.resultType (Mat.result m') = Some by_runs ∧
      Res.margin (Mat.result m')
      = Some (pretty (Inn.runs firstInnings - Inn.runs second) +:+ " runs")) ∧
     (Inn.runs firstInnings = Inn.runs second →
      Res.winner (Mat.result m') = Res.winner (Mat.result m) ∧
      Res.resultType (Mat.result m') = Some tie ∧
      Res.margin (Mat.result m') = Some "Match tied")).
Proof.
  intros Hacc Hci Hfirst.
  destruct (recordBall_current st b m i inn Hacc) as (m' & Hup & Hm' & _ & Hi).
  destruct Hacc as (_ & _ & Hlive & Hcur & Hopen & _).
  destruct (currentInnings_index m i inn Hcur) as [_ Hidx].
  rewrite Hci in Hidx. change (Z.to_nat (2 - 1)) with 1%nat in Hidx. subst i.
  exists m', (scored m inn b). split_and!; [done| |done|].
  { destruct (inningsOver (Mat.overs m) (accumulate inn b)) eqn:Hov.
    - rewrite (second_innings_over m inn b firstInnings m') by (done || lia).
      simpl. by rewrite list_lookup_insert_ne.
    - rewrite updateMatch_open in Hup by done. injection Hup as <-.
      simpl. by rewrite list_lookup_insert_ne. }
  rewrite scored_isCompleted by done. intros Hov.
  rewrite (second_innings_over m inn b firstInnings m') by (done || lia).
  simpl. unfold calcResult. split_and!; [done| | |].
  - intros Hlt. apply Z.ltb_lt in Hlt. rewrite Hlt. done.
  - intros Hlt.
    destruct (Z.ltb_spec (Inn.runs firstInnings) (Inn.runs (scored m inn b)));
      [lia|].
    apply Z.ltb_lt in Hlt. rewrite Hlt. done.
  - intros Heq. rewrite Heq, Z.ltb_irrefl. done.
Qed.

Lemma C2_result_witness :
  let firstInnings := inningsAt "A" "B" 150 4 6 true in
  let inn := inningsAt "B" "A" 140 5 5 false in
  let m := matchWith 1 live 2 [firstInnings; inn] in
  let b := delivery 0 false false false false true in
  accepts (storeOf m) b m 1 inn ∧
  Mat.currentInnings m = 2 ∧
  Mat.innings m !! 0%nat = Some firstInnings ∧
  ∃ m',
    matches (snd (recordBall (storeOf m) b)) !! "m1" = Some m' ∧
    Mat.innings m' !! 1%nat = Some (inningsAt "B" "A" 140 6 6 true) ∧
    Mat.status m' = completed ∧
    Res.winner (Mat.result m') = Some "A" ∧
    Res.resultType (Mat.result m') = Some by_runs ∧
    Res.margin (Mat.result m') = Some "10 runs".
Proof.
  intros firstInnings inn m b.
  assert (accepts (storeOf m) b m 1 inn) as Hacc by by_evaluation.
  split_and!; [exact Hacc | reflexivity | reflexivity |].
  destruct (C2_result (storeOf m) b m 1 inn firstInnings Hacc eq_refl eq_refl)
    as (m' & second & Hm' & _ & Hs & Hres).
  assert (Some second = Some (inningsAt "B" "A" 140 6 6 true)) as Hsecond.
  { rewrite <- Hs.
    assert (Some m' = Some (finish m
              [firstInnings; inningsAt "B" "A" 140 6 6 true]
              (Res.mk (Some "A") (Some by_runs) (Some "10 runs") None)))
      as Heq by (rewrite <- Hm'; vm_compute; reflexivity).
    injection Heq as ->. reflexivity. }
  injection Hsecond as ->.
  destruct (Hres eq_refl) as (Hst & _ & Hruns & _).
  destruct Hruns as (Hw & Ht & Hmg); [simpl; lia|].
  exists m'.
  split_and!; [exact Hm' | exact Hs | exact Hst | exact Hw | exact Ht|].
  rewrite Hmg. vm_compute. reflexivity.
Defined.

(** A four that takes the chasing side from 97 to 101 in the second over of
    twenty, three wickets down: the match stays live and has no result. *)
Lemma C3_counterexample :
  let firstInnings := inningsAt "A" "B" 100 10 97 true in
  let inn := inningsAt "B" "A" 97 3 10 false in
  let m := matchWith 20 live 2 [firstInnings; inn] in
  let b := delivery 4 false false false false false in
  accepts (storeOf m) b m 1 inn ∧
  matches (snd (recordBall (storeOf m) b)) !! "m1"
  = Some (matchWith 20 live 2 [firstInnings; inningsAt "B" "A" 101 3 11 false]) ∧
  ¬ chase_ends_match.
Proof.
  intros firstInnings inn m b.
  assert (accepts (storeOf m) b m 1 inn) as Hacc by by_evaluation.
  split_and!; [exact Hacc | vm_compute; reflexivity |].
  intros H.
  destruct (H (storeOf m) b m 1%nat inn firstInnings
              (matchWith 20 live 2
                 [firstInnings; inningsAt "B" "A" 101 3 11 false])
              (inningsAt "B" "A" 101 3 11 false))
    as (Habs & _);
    [exact Hacc | reflexivity | reflexivity | reflexivity
    | vm_compute; reflexivity | reflexivity | reflexivity
    | simpl; lia | vm_compute; reflexivity |].
  discriminate Habs.
Qed.

(** C3, amended.  With a first innings of 100, a ball that takes the second
    innings' total above 100 while its wickets are below 10 and its overs
    are not exhausted leaves the match live, the innings open and the result
    as it was.  The result becomes [resultType] wickets, margin
    [10 - wickets] followed by " wickets" and winner the second innings'
    batting team on the ball that completes the second innings (overs
    exhausted or tenth wicket) with its total above 100, the wickets being
    those at that point. *)
Theorem C3_chase (st : Store) (b : Body.t) (m : Mat.t) (i : nat)
    (inn firstInnings : Inn.t) :
  accepts st b m i inn →
  Mat.currentInnings m = 2 →
  Mat.innings m !! 0%nat = Some firstInnings →
  Inn.runs firstInnings = 100 →
  ∃ m' second,
    matches (snd (recordBall st b)) !! Body.match_ b = Some m' ∧
    Mat.innings m' !! 1%nat = Some second ∧
    (100 < Inn.runs second →
     (Inn.wickets second < 10 ∧ Inn.balls second / 6 < Mat.overs m →
      Mat.status m' = live ∧
      Inn.isCompleted second = false ∧
      Mat.result m' = Mat.result m) ∧
     (10 ≤ Inn.wickets second ∨ Mat.overs m ≤ Inn.balls second / 6 →
      Mat.status m' = completed ∧
      Inn.isCompleted second = true ∧
      Res.resultType (Mat.result m') = Some by_wickets ∧
      Res.margin (Mat.result m')
      = Some (pretty (10 - Inn.wickets second) +:+ " wickets") ∧
      Res.winner (Mat.result m') = Inn.battingTeam second)).
Proof.
  intros Hacc Hci Hfirst H100.
  destruct (recordBall_current st b m i inn Hacc) as (m' & Hup & Hm' & _ & Hi).
  destruct Hacc as (_ & _ & Hlive & Hcur & Hopen & _).
  destruct (currentInnings_index m i inn Hcur) as [_ Hidx].
  rewrite Hci in Hidx. change (Z.to_nat (2 - 1)) with 1%nat in Hidx. subst i.
  exists m', (scored m inn b). split_and!; [done..|].
  intros Hruns. rewrite scored_isCompleted by done. split.
  - intros [Hw Ho].
    assert (inningsOver (Mat.overs m) (accumulate inn b) = false) as Hov.
    { rewrite <- scored_over. apply not_true_iff_false.
      rewrite inningsOver_spec. lia. }
    rewrite updateMatch_open in Hup by done. injection Hup as <-.
    done.
  - intros Hover.
    assert (inningsOver (Mat.overs m) (accumulate inn b) = true) as Hov.
    { rewrite <- scored_over. apply inningsOver_spec. tauto. }
    rewrite (second_innings_over m inn b firstInnings m') by (done || lia).
    simpl. unfold calcResult.
    destruct (Z.ltb_spec (Inn.runs firstInnings) (Inn.runs (scored m inn b)));
      [done|lia].
Qed.

Lemma C3_chase_witness :
  let firstInnings := inningsAt "A" "B" 100 10 97 true in
  let inn := inningsAt "B" "A" 97 3 10 false in
  let m := matchWith 20 live 2 [firstInnings; inn] in
  let b := delivery 4 false false false false false in
  accepts (storeOf m) b m 1 inn ∧
  Mat.currentInnings m = 2 ∧
  Mat.innings m !! 0%nat = Some firstInnings ∧
  Inn.runs firstInnings = 100 ∧
  ∃ m' second,
    matches (snd (recordBall (storeOf m) b)) !! "m1" = Some m' ∧
    Mat.innings m' !! 1%nat = Some second ∧
    Inn.runs second = 101 ∧
    Mat.status m' = live ∧
    Mat.result m' = noResult.
Proof.
  intros firstInnings inn m b.
  assert (accepts (storeOf m) b m 1 inn) as Hacc by by_evaluation.
  split_and!; [exact Hacc | reflexivity..|].
  destruct (C3_chase (storeOf m) b m 1 inn firstInnings Hacc
              eq_refl eq_refl eq_refl)
    as (m' & second & Hm' & Hs & Hres).
  assert (Some second = Some (inningsAt "B" "A" 101 3 11 false)) as Hsecond.
  { rewrite <- Hs.
    assert (Some m' = Some (matchWith 20 live 2
              [firstInnings; inningsAt "B" "A" 101 3 11 false]))
      as Heq by (rewrite <- Hm'; vm_compute; reflexivity).
    injection Heq as ->. reflexivity. }
  injection Hsecond as ->.
  destruct Hres as [Hopen _]; [simpl; lia|].
  destruct Hopen as (Hst & _ & Hr); [split; [simpl; lia | vm_compute; reflexivity]|].
  exists m', (inningsAt "B" "A" 101 3 11 false).
  split_and!; [exact Hm' | exact Hs | reflexivity | exact Hst | exact Hr].
Defined.

(** ** Wickets and completed innings *)

(** The handler either leaves the match collection alone or writes back the
    update of an accepted request. *)
Lemma recordBall_matches st b :
  matches (snd (recordBall st b)) = matches st ∨
  ∃ m i inn m',
    accepts st b m i inn ∧ updateMatch m i inn b = Some m' ∧
    matches (snd (recordBall st b)) = <[Body.match_ b := m']> (matches st).
Proof.
  unfold recordBall.
  destruct (validRequest b) eqn:Hreq; simpl; [|by left].
  destruct (matches st !! Body.match_ b) as [m|] eqn:Hm; [|by left].
  destruct (decide (Mat.status m = live)) as [Hlive|Hlive].
  2: { rewrite bool_decide_eq_false_2 by done. by left. }
  rewrite bool_decide_eq_true_2 by done. simpl.
  destruct (currentInnings m) as [[i inn]|] eqn:Hcur; [|by left].
  destruct (Inn.isCompleted inn) eqn:Hopen; [by left|].
  destruct (validBall (ballData m inn b)) eqn:Hball; simpl; [|by left].
  destruct (updateMatch m i inn b) as [m'|] eqn:Hup; [|by left].
  right. exists m, i, inn, m'. by repeat split.
Qed.

Lemma updateMatch_wickets m i inn b m' :
  currentInnings m = Some (i, inn) →
  Inn.isCompleted inn = false →
  updateMatch m i inn b = Some m' →
  Forall wicketsInvariant (Mat.innings m) →
  Forall wicketsInvariant (Mat.innings m').
Proof.
  intros Hcur Hopen Hup Hall.
  pose proof (currentInnings_lookup m i inn Hcur) as Hi.
  destruct (Forall_lookup_1 _ _ _ _ Hall Hi) as [_ Hw]. specialize (Hw Hopen).
  assert (Inn.wickets (accumulate inn b) ≤ 10) as Hw'
    by (simpl; case_match; lia).
  destruct (inningsOver (Mat.overs m) (accumulate inn b)) eqn:Hov.
  - assert (wicketsInvariant (markCompleted (accumulate inn b))) as Hmk
      by (split; [done | discriminate]).
    destruct (decide (Mat.currentInnings m = 1)) as [Hci|Hci].
    + destruct (updateMatch_first m i inn Hcur b Hov Hci) as [_ Heq].
      rewrite Heq in Hup. injection Hup as <-. simpl.
      apply Forall_app. split; [by apply Forall_insert|].
      constructor; [|constructor]. split; simpl; lia.
    + destruct (updateMatch_last m i inn Hcur b Hov Hci) as (f&s&_&_&Heq).
      rewrite Heq in Hup. injection Hup as <-. simpl.
      by apply Forall_insert.
  - rewrite updateMatch_open in Hup by done. injection Hup as <-. simpl.
    apply Forall_insert; [done|]. split; [done|]. intros _.
    unfold inningsOver in Hov. apply orb_false_elim in Hov as [_ Hov].
    apply Z.leb_gt in Hov. done.
Qed.

Lemma reachable_wickets m :
  reachable m → Forall wicketsInvariant (Mat.innings m).
Proof.
  induction 1 as [m0 tw td m Hstart | m i inn b m' _ IH _ Hcur Hopen _ Hup].
  - unfold startMatch in Hstart.
    repeat case_match; simplify_eq/=;
      (constructor; [|constructor]); split; simpl; lia.
  - by eapply updateMatch_wickets.
Qed.

(** A completed innings is never the one a ball is recorded in, and the
    update writes no other slot. *)
Lemma updateMatch_frozen m i inn b m' j innj :
  currentInnings m = Some (i, inn) →
  Inn.isCompleted inn = false →
  updateMatch m i inn b = Some m' →
  Mat.innings m !! j = Some innj →
  Inn.isCompleted innj = true →
  Mat.innings m' !! j = Some innj.
Proof.
  intros Hcur Hopen Hup Hj Hdone.
  pose proof (currentInnings_lookup m i inn Hcur) as Hi.
  assert (i ≠ j) as Hne by (intros ->; congruence).
  destruct (inningsOver (Mat.overs m) (accumulate inn b)) eqn:Hov.
  - destruct (decide (Mat.currentInnings m = 1)) as [Hci|Hci].
    + destruct (updateMatch_first m i inn Hcur b Hov Hci) as [_ Heq].
      rewrite Heq in Hup. injection Hup as <-. simpl.
      rewrite lookup_app_l
        by (rewrite length_insert; by eapply lookup_lt_Some).
      by rewrite list_lookup_insert_ne.
    + destruct (updateMatch_last m i inn Hcur b Hov Hci) as (f&s&_&_&Heq).
      rewrite Heq in Hup. injection Hup as <-. simpl.
      by rewrite list_lookup_insert_ne.
  - rewrite updateMatch_open in Hup by done. injection Hup as <-. simpl.
    by rewrite list_lookup_insert_ne.
Qed.

Lemma recordBall_step st b mid m :
  matches st !! mid = Some m →
  reachable m →
  ∃ m', matches (snd (recordBall st b)) !! mid = Some m' ∧ reachable m' ∧
    ∀ j innj, Mat.innings m !! j = Some innj → Inn.isCompleted innj = true →
              Mat.innings m' !! j = Some innj.
Proof.
  intros Hm Hreach.
  destruct (recordBall_matches st b)
    as [->|(m0 & i & inn & m' & Hacc & Hup & ->)]; [by exists m|].
  destruct (decide (Body.match_ b = mid)) as [<-|Hne].
  - destruct Hacc as (_ & Hm0 & Hlive & Hcur & Hopen & Hball).
    assert (m0 = m) as -> by congruence.
    exists m'. rewrite lookup_insert_eq. split_and!; [done| |].
    + by eapply reachable_ball.
    + intros j innj. by eapply updateMatch_frozen.
  - exists m. by rewrite lookup_insert_ne.
Qed.

Lemma recordBalls_steps reqs : ∀ st mid m,
  matches st !! mid = Some m →
  reachable m →
  ∃ m', matches (recordBalls st reqs) !! mid = Some m' ∧ reachable m' ∧
    ∀ j innj, Mat.innings m !! j = Some innj → Inn.isCompleted innj = true →
              Mat.innings m' !! j = Some innj.
Proof.
  induction reqs as [|b reqs IH]; intros st mid m Hm Hreach; [by exists m|].
  destruct (recordBall_step st b mid m Hm Hreach) as (m1 & Hm1 & Hr1 & Hf1).
  destruct (IH _ mid m1 Hm1 Hr1) as (m' & Hm' & Hr' & Hf').
  exists m'. split_and!; [done..|]. eauto.
Qed.

Lemma startMatch_inv m0 tw td m :
  startMatch m0 tw td = Some m →
  Mat.status m0 = scheduled ∧ Mat.status m = live ∧
  Mat.currentInnings m = Mat.currentInnings m0 ∧
  Mat.overs m = Mat.overs m0 ∧
  ∃ batting bowling, Mat.innings m = [freshInnings batting bowling].
Proof.
  unfold startMatch. intros H.
  destruct (decide (Mat.status m0 = scheduled)) as [Hs|Hs].
  2: { by rewrite bool_decide_eq_false_2 in H. }
  rewrite bool_decide_eq_true_2 in H by done. simpl in H.
  case_match; [|done]. injection H as <-. simpl. eauto 10.
Qed.

Lemma reachable_twoInnings m : reachable m → twoInnings m.
Proof.
  induction 1 as [m0 tw td m Hstart
                 | m i inn b m' _ IH Hlive Hcur Hopen Hball Hup].
  - apply startMatch_inv in Hstart as (_ & Hst & _ & _ & bat & bowl & Hinn).
    left. exists (freshInnings bat bowl). done.
  - pose proof (currentInnings_lookup m i inn Hcur) as Hi.
    destruct (currentInnings_index m i inn Hcur) as [Hge Hidx].
    destruct (scored_teams m inn b) as [Hbat Hbowl].
    pose proof (scored_isCompleted m inn b Hopen) as Hdone.
    destruct IH as [(a & Hinn & _ & _)
                   |(a & c & Hinn & Hci & Ha & Hsw1 & Hsw2 & Hst)].
    + rewrite Hinn in Hi. destruct i as [|i]; [|done].
      injection Hi as ->.
      assert (Mat.currentInnings m = 1) as Hci by lia.
      destruct (inningsOver (Mat.overs m) (accumulate inn b)) eqn:Hov.
      * destruct (updateMatch_first m 0 inn Hcur b Hov Hci) as [_ Heq].
        rewrite Heq in Hup. injection Hup as <-. rewrite Hinn. simpl.
        right. eexists _, _. split_and!; [done..|]. left. done.
      * rewrite updateMatch_open in Hup by done. injection Hup as <-.
        rewrite Hinn. simpl. left. eexists. split_and!; [done..|].
        unfold scored in Hdone. by rewrite Hov in Hdone.
    + rewrite Hci in Hidx. change (Z.to_nat (2 - 1)) with 1%nat in Hidx.
      subst i. rewrite Hinn in Hi. injection Hi as ->.
      destruct (inningsOver (Mat.overs m) (accumulate inn b)) eqn:Hov.
      * destruct (updateMatch_last m 1 inn Hcur b Hov)
          as (f & s & Hf & Hs & Heq); [lia|].
        rewrite Hinn in Hf, Hs. simpl in Hf, Hs.
        injection Hf as <-. injection Hs as <-.
        rewrite Heq in Hup. injection Hup as <-. rewrite Hinn. simpl.
        right. eexists _, _. split_and!; [done..|]. right.
        split_and!; [done..|]. eauto.
      * rewrite updateMatch_open in Hup by done. injection Hup as <-.
        rewrite Hinn. simpl. right. eexists _, _.
        split_and!; [done..| |].
        -- simpl. congruence.
        -- left. split; [done|]. simpl.
           unfold scored in Hdone. by rewrite Hov in Hdone.
Qed.

(** A completed innings is the current one only in a completed match. *)
Lemma reachable_current_completed m i inn :
  reachable m →
  currentInnings m = Some (i, inn) →
  Inn.isCompleted inn = true →
  Mat.status m = completed.
Proof.
  intros Hreach Hcur Hdone.
  pose proof (currentInnings_lookup m i inn Hcur) as Hi.
  destruct (currentInnings_index m i inn Hcur) as [_ Hidx].
  destruct (reachable_twoInnings m Hreach)
    as [(a & Hinn & _ & Ha)|(a & c & Hinn & Hci & _ & _ & _ & Hst)].
  - rewrite Hinn in Hi. destruct i as [|i]; [|done].
    injection Hi as <-. congruence.
  - rewrite Hci in Hidx. change (Z.to_nat (2 - 1)) with 1%nat in Hidx.
    subst i. rewrite Hinn in Hi. injection Hi as <-.
    destruct Hst as [[_ ?]|[? _]]; [congruence | done].
Qed.

Lemma recordBall_completed st b m i inn :
  validRequest b = true →
  matches st !! Body.match_ b = Some m →
  Mat.status m = live →
  currentInnings m = Some (i, inn) →
  Inn.isCompleted inn = true →
  recordBall st b = (Failure 400 "Current innings is completed", st).
Proof.
  intros Hreq Hm Hlive Hcur Hdone.
  unfold recordBall. rewrite Hreq, Hm, Hlive, Hcur, Hdone. done.
Qed.

(** C8.  Along every run of the handler from a started match, each innings
    has [wickets <= 10]; an innings whose [isCompleted] is true is left
    exactly as it is by every later call; and a call that finds the current
    innings of its match completed is rejected with a 400, the store being
    returned as it was.  The match is then completed, and it is the status
    guard that answers a well-formed request, with "Match not found or not
    live". *)
Theorem C8_wickets_frozen (st : Store) (reqs : list Body.t) (mid : ObjectId)
    (m : Mat.t) :
  matches st !! mid = Some m →
  reachable m →
  ∃ m',
    matches (recordBalls st reqs) !! mid = Some m' ∧
    Forall (λ inn, Inn.wickets inn ≤ 10) (Mat.innings m') ∧
    (∀ j innj, Mat.innings m !! j = Some innj → Inn.isCompleted innj = true →
               Mat.innings m' !! j = Some innj) ∧
    (∀ b i inn,
       Body.match_ b = mid →
       currentInnings m' = Some (i, inn) → Inn.isCompleted inn = true →
       Mat.status m' = completed ∧
       ∃ message,
         recordBall (recordBalls st reqs) b
         = (Failure 400 message, recordBalls st reqs) ∧
         (validRequest b = true → message = "Match not found or not live")).
Proof.
  intros Hm Hreach.
  destruct (recordBalls_steps reqs st mid m Hm Hreach) as (m' & Hm' & Hr' & Hf').
  exists m'. split_and!; [done| |done|].
  - eapply Forall_impl; [by apply reachable_wickets|]. by intros inn [? _].
  - intros b i inn <- Hcur Hdone.
    pose proof (reachable_current_completed m' i inn Hr' Hcur Hdone) as Hst.
    split; [done|]. unfold recordBall.
    destruct (validRequest b); simpl; [|by eexists].
    rewrite Hm', Hst. simpl. by eexists.
Qed.

Lemma C8_wickets_frozen_witness :
  let m := matchWith 20 live 1 [freshInnings "A" "B"] in
  let reqs := replicate 20 (delivery 0 false false false false true) in
  let b := delivery 4 false false false false false in
  matches (storeOf m) !! "m1" = Some m ∧
  reachable m ∧
  ∃ m',
    matches (recordBalls (storeOf m) reqs) !! "m1" = Some m' ∧
    Mat.innings m'
    = [inningsAt "A" "B" 0 10 10 true; inningsAt "B" "A" 0 10 10 true] ∧
    Forall (λ inn, Inn.wickets inn ≤ 10) (Mat.innings m') ∧
    Mat.status m' = completed ∧
    recordBall (recordBalls (storeOf m) reqs) b
    = (Failure 400 "Match not found or not live",
       recordBalls (storeOf m) reqs).
Proof.
  intros m reqs b.
  assert (matches (storeOf m) !! "m1" = Some m) as Hm
    by (vm_compute; reflexivity).
  assert (reachable m) as Hreach.
  { apply (reachable_start (matchWith 20 scheduled 1 []) "A" (Some "bat")).
    vm_compute; reflexivity. }
  split_and!; [exact Hm | exact Hreach |].
  destruct (C8_wickets_frozen (storeOf m) reqs "m1" m Hm Hreach)
    as (m' & Hm' & Hw & _ & Hrej).
  set (l := [inningsAt "A" "B" 0 10 10 true; inningsAt "B" "A" 0 10 10 true]).
  assert (Some m' = Some (finish (matchWith 20 live 2 l) l
            (Res.mk None (Some tie) (Some "Match tied") None)))
    as Heq by (rewrite <- Hm'; vm_compute; reflexivity).
  injection Heq as Heq.
  assert (currentInnings m' = Some (1%nat, inningsAt "B" "A" 0 10 10 true))
    as Hcur by (rewrite Heq; reflexivity).
  destruct (Hrej b 1%nat _ eq_refl Hcur eq_refl) as (Hst & msg & Hresp & Hmsg).
  rewrite (Hmsg ltac:(vm_compute; reflexivity)) in Hresp.
  exists m'.
  split_and!; [exact Hm' | rewrite Heq; reflexivity | exact Hw | exact Hst
              | exact Hresp].
Defined.

(** ** Rejected requests *)

(** An unknown match and a match still scheduled are answered alike. *)
Lemma C9_counterexample :
  let b := delivery 1 false false false false false in
  let m := matchWith 20 scheduled 1 [] in
  matches (mkStore ∅ []) !! Body.match_ b = None ∧
  matches (storeOf m) !! Body.match_ b = Some m ∧
  fst (recordBall (mkStore ∅ []) b)
  = Failure 400 "Match not found or not live" ∧
  fst (recordBall (storeOf m) b)
  = Failure 400 "Match not found or not live" ∧
  ¬ missing_match_distinct.
Proof.
  intros b m.
  split_and!; [vm_compute; reflexivity..|].
  intros H.
  apply (H (mkStore ∅ []) (storeOf m) b m);
    [vm_compute; reflexivity.. | discriminate | vm_compute; reflexivity].
Qed.

(** C9, amended.  A request for a match that does not exist and a request
    for a match that is not live fail with the same error, 400 "Match not
    found or not live"; a request for a live match whose current innings is
    missing or already completed fails with another error, 400 "Current
    innings is completed".  In each of these failures the store is returned
    exactly as it was: no match is written and no ball event is appended. *)
Theorem C9_rejections (st : Store) (b : Body.t) :
  validRequest b = true →
  (matches st !! Body.match_ b = None ∨
   (∃ m, matches st !! Body.match_ b = Some m ∧ Mat.status m ≠ live) →
   recordBall st b = (Failure 400 "Match not found or not live", st)) ∧
  (∀ m, matches st !! Body.match_ b = Some m →
        Mat.status m = live →
        currentInnings m = None ∨
        (∃ i inn, currentInnings m = Some (i, inn) ∧
                  Inn.isCompleted inn = true) →
        recordBall st b = (Failure 400 "Current innings is completed", st)) ∧
  Failure 400 "Match not found or not live"
  ≠ Failure 400 "Current innings is completed".
Proof.
  intros Hreq. split_and!.
  - intros [Hm|(m & Hm & Hst)]; unfold recordBall; rewrite Hreq, Hm; [done|].
    by rewrite bool_decide_eq_false_2.
  - intros m Hm Hlive [Hcur|(i & inn & Hcur & Hdone)].
    + unfold recordBall. by rewrite Hreq, Hm, Hlive, Hcur.
    + by eapply recordBall_completed.
  - discriminate.
Qed.

Lemma C9_rejections_witness :
  let b := delivery 1 false false false false false in
  let m := matchWith 20 completed 2
             [inningsAt "A" "B" 100 10 97 true; inningsAt "B" "A" 90 10 80 true] in
  validRequest b = true ∧
  recordBall (storeOf m) b
  = (Failure 400 "Match not found or not live", storeOf m).
Proof.
  intros b m.
  assert (validRequest b = true) as Hreq by reflexivity.
  split; [exact Hreq|].
  destruct (C9_rejections (storeOf m) b Hreq) as (Hnot & _).
  apply Hnot. right. exists m. split; [vm_compute; reflexivity | discriminate].
Defined.

(** ** What a ball leaves alone *)

(** C10.  For every accepted call after which the innings the ball was
    recorded in is not completed, the match keeps its [status],
    [currentInnings], [result], [overs], teams and toss, no innings is added
    or removed, every other innings is unchanged, the current innings keeps
    its [battingTeam], [bowlingTeam] and [isCompleted], and every other
    match of the store is unchanged. *)
Theorem C10_frame (st : Store) (b : Body.t) (m : Mat.t) (i : nat)
    (inn : Inn.t) :
  accepts st b m i inn →
  ∃ m' inn',
    matches (snd (recordBall st b)) !! Body.match_ b = Some m' ∧
    Mat.innings m' !! i = Some inn' ∧
    (Inn.isCompleted inn' = false →
     Mat.status m' = Mat.status m ∧
     Mat.currentInnings m' = Mat.currentInnings m ∧
     Mat.result m' = Mat.result m ∧
     Mat.overs m' = Mat.overs m ∧
     Mat.team1 m' = Mat.team1 m ∧ Mat.team2 m' = Mat.team2 m ∧
     Mat.tossWinner m' = Mat.tossWinner m ∧
     Mat.tossDecision m' = Mat.tossDecision m ∧
     length (Mat.innings m') = length (Mat.innings m) ∧
     (∀ j, j ≠ i → Mat.innings m' !! j = Mat.innings m !! j) ∧
     Inn.battingTeam inn' = Inn.battingTeam inn ∧
     Inn.bowlingTeam inn' = Inn.bowlingTeam inn ∧
     Inn.isCompleted inn' = Inn.isCompleted inn ∧
     (∀ mid, mid ≠ Body.match_ b →
             matches (snd (recordBall st b)) !! mid = matches st !! mid)).
Proof.
  intros Hacc.
  destruct (recordBall_accepted st b m i inn Hacc) as (m' & Hup & Heq).
  destruct Hacc as (_ & _ & Hlive & Hcur & Hopen & _).
  exists m', (scored m inn b). rewrite Heq. simpl.
  split_and!; [apply lookup_insert_eq | by eapply updateMatch_current |].
  rewrite scored_isCompleted by done. intros Hov.
  rewrite updateMatch_open in Hup by done. injection Hup as <-. simpl.
  destruct (scored_teams m inn b) as [Hbat Hbowl].
  split_and!; try done.
  - apply length_insert.
  - intros j Hj. by apply list_lookup_insert_ne.
  - congruence.
  - intros mid Hmid. by apply lookup_insert_ne.
Qed.

Lemma C10_frame_witness :
  let firstInnings := inningsAt "A" "B" 100 10 97 true in
  let inn := inningsAt "B" "A" 97 3 10 false in
  let m := matchWith 20 live 2 [firstInnings; inn] in
  let b := delivery 4 false false false false true in
  accepts (storeOf m) b m 1 inn ∧
  ∃ m',
    matches (snd (recordBall (storeOf m) b)) !! "m1" = Some m' ∧
    Mat.innings m' !! 1%nat = Some (inningsAt "B" "A" 101 4 11 false) ∧
    Mat.innings m' !! 0%nat = Some firstInnings ∧
    Mat.status m' = live ∧
    Mat.currentInnings m' = 2 ∧
    Mat.result m' = noResult ∧
    length (Mat.innings m') = 2%nat.
Proof.
  intros firstInnings inn m b.
  assert (accepts (storeOf m) b m 1 inn) as Hacc by by_evaluation.
  split; [exact Hacc|].
  destruct (C10_frame (storeOf m) b m 1 inn Hacc)
    as (m' & inn' & Hm' & Hi & Hframe).
  assert (Some inn' = Some (inningsAt "B" "A" 101 4 11 false)) as Hinn'.
  { rewrite <- Hi.
    assert (Some m' = Some (matchWith 20 live 2
              [firstInnings; inningsAt "B" "A" 101 4 11 false]))
      as Heq by (rewrite <- Hm'; vm_compute; reflexivity).
    injection Heq as ->. reflexivity. }
  injection Hinn' as ->.
  destruct (Hframe eq_refl)
    as (Hst & Hci & Hres & _ & _ & _ & _ & _ & Hlen & Hother & _).
  exists m'.
  split_and!; [exact Hm' | exact Hi | | exact Hst | exact Hci | exact Hres
              | exact Hlen].
  rewrite (Hother 0%nat) by discriminate. reflexivity.
Defined.

(** * Further properties of the handler *)

(** ** One call *)

(** The innings of the updated match: the slot of the current innings is
    rewritten, and the first-innings branch appends one innings. *)
Lemma updateMatch_innings m i inn b m' :
  currentInnings m = Some (i, inn) →
  updateMatch m i inn b = Some m' →
  Mat.innings m'
  = <[i := scored m inn b]> (Mat.innings m)
    ++ (if inningsOver (Mat.overs m) (accumulate inn b)
           && (Mat.currentInnings m =? 1)
        then [secondInnings (scored m inn b)] else []).
Proof.
  intros Hcur Hup. unfold scored.
  destruct (inningsOver (Mat.overs m) (accumulate inn b)) eqn:Hov; simpl.
  - destruct (Z.eqb_spec (Mat.currentInnings m) 1) as [Hci|Hci].
    + destruct (updateMatch_first m i inn Hcur b Hov Hci) as [_ Heq].
      rewrite Heq in Hup. by injection Hup as <-.
    + destruct (updateMatch_last m i inn Hcur b Hov Hci) as (f&s&_&_&Heq).
      rewrite Heq in Hup. injection Hup as <-. simpl. by rewrite app_nil_r.
  - rewrite updateMatch_open in Hup by done. injection Hup as <-.
    simpl. by rewrite app_nil_r.
Qed.

Lemma updateMatch_fixture m i inn b m' :
  updateMatch m i inn b = Some m' → sameFixture m m'.
Proof.
  unfold updateMatch. intros Hup.
  repeat case_match; simplify_option_eq; by repeat split.
Qed.

(** Either nothing is written, or the request was accepted and both the
    ball event and the updated match are. *)
Lemma recordBall_effect st b :
  ((∀ m i inn, ¬ accepts st b m i inn) ∧
   ∃ code message, recordBall st b = (Failure code message, st)) ∨
  ∃ m i inn m',
    accepts st b m i inn ∧ updateMatch m i inn b = Some m' ∧
    recordBall st b
    = (Created (ballData m inn b) (Mat.status m') (Mat.currentInnings m')
               (Mat.innings m'),
       mkStore (<[Body.match_ b := m']> (matches st))
               (balls st ++ [ballData m inn b])).
Proof.
  destruct (validRequest b) eqn:Hreq.
  2: { left. split; [intros m i inn (?&_); congruence|].
       unfold recordBall. rewrite Hreq. eauto. }
  destruct (matches st !! Body.match_ b) as [m|] eqn:Hm.
  2: { left. split; [intros m i inn (_&?&_); congruence|].
       unfold recordBall. rewrite Hreq, Hm. eauto. }
  destruct (decide (Mat.status m = live)) as [Hlive|Hlive].
  2: { left. split; [intros m0 i inn (_&?&?&_); congruence|].
       unfold recordBall. rewrite Hreq, Hm, bool_decide_eq_false_2 by done.
       eauto. }
  destruct (currentInnings m) as [[i inn]|] eqn:Hcur.
  2: { left. split; [intros m0 i inn (_&?&_&?&_); congruence|].
       unfold recordBall. rewrite Hreq, Hm, Hlive, Hcur. eauto. }
  destruct (Inn.isCompleted inn) eqn:Hopen.
  { left. split; [intros m0 i0 inn0 (_&?&_&?&?&_); congruence|].
    unfold recordBall. rewrite Hreq, Hm, Hlive, Hcur, Hopen. eauto. }
  destruct (validBall (ballData m inn b)) eqn:Hball.
  2: { left. split; [intros m0 i0 inn0 (_&?&_&?&_&?); congruence|].
       unfold recordBall. rewrite Hreq, Hm, Hlive, Hcur, Hopen, Hball. eauto. }
  right.
  assert (accepts st b m i inn) as Hacc by done.
  destruct (recordBall_accepted st b m i inn Hacc) as (m' & Hup & Heq).
  by exists m, i, inn, m'.
Qed.

(** X1.  A call whose [runs] are sent as a JSON number either answers a
    failure and leaves both collections as they were, or answers 201 to a
    request that got past every guard, having appended exactly one ball
    event and rewritten exactly the requested match.  A ball event is never
    stored without the update of its match, nor a match updated without
    its ball event. *)
Theorem X1_all_or_nothing (st : Store) (b : Body.t) :
  sentAsNumber b →
  (∃ code message, recordBall st b = (Failure code message, st)) ∨
  (∃ m i inn m' d,
     accepts st b m i inn ∧
     fst (recordBall st b)
     = Created d (Mat.status m') (Mat.currentInnings m') (Mat.innings m') ∧
     balls (snd (recordBall st b)) = balls st ++ [d] ∧
     matches (snd (recordBall st b)) !! Body.match_ b = Some m' ∧
     ∀ mid, mid ≠ Body.match_ b →
            matches (snd (recordBall st b)) !! mid = matches st !! mid).
Proof.
  intros _.
  destruct (recordBall_effect st b)
    as [[_ ?]|(m & i & inn & m' & Hacc & Hup & Heq)]; [by left|].
  right. exists m, i, inn, m', (ballData m inn b). rewrite Heq. simpl.
  split_and!; [done..| |].
  - apply lookup_insert_eq.
  - intros mid Hmid. by apply lookup_insert_ne.
Qed.

Lemma X1_all_or_nothing_witness :
  let inn := inningsAt "A" "B" 30 2 10 false in
  let m := matchWith 20 live 1 [inn] in
  let b := delivery 4 false false false false true in
  sentAsNumber b ∧
  ∃ m' d,
    fst (recordBall (storeOf m) b)
    = Created d (Mat.status m') (Mat.currentInnings m') (Mat.innings m') ∧
    balls (snd (recordBall (storeOf m) b)) = [d] ∧
    matches (snd (recordBall (storeOf m) b)) !! "m1" = Some m'.
Proof.
  intros inn m b.
  assert (sentAsNumber b) as Hnum by reflexivity.
  split; [exact Hnum|].
  destruct (X1_all_or_nothing (storeOf m) b Hnum)
    as [(c & msg & Heq)|(m0 & i & inn0 & m' & d & _ & Hresp & Hlog & Hm' & _)].
  - vm_compute in Heq. discriminate Heq.
  - exists m', d. split_and!; [exact Hresp | exact Hlog | exact Hm'].
Defined.

(** X20.  A recorded ball whose [runs] are sent as a JSON number updates
    the current innings additively, its totals being well within the safe
    integers: [runs] grows by [runs + (1 if isWide) + (1 if isNoBall)];
    [extras.wides] and [extras.noBalls] grow by 1 when their flag is set;
    [extras.byes] and [extras.legByes] grow by the ball's [runs] when their
    flag is set; and [balls] grows by 1, with [overs] recomputed as
    [floor (balls / 6) + (balls % 6) / 10], exactly when the ball is neither
    a wide nor a no-ball (otherwise both are left as they were). *)
Theorem X20_number_runs_added (st : Store) (b : Body.t) (m : Mat.t) (i : nat)
    (inn : Inn.t) :
  accepts st b m i inn →
  sentAsNumber b →
  safeTotals inn →
  ∃ m' inn',
    matches (snd (recordBall st b)) !! Body.match_ b = Some m' ∧
    Mat.innings m' !! i = Some inn' ∧
    Inn.runs inn'
    = Inn.runs inn + (Body.runs b + (if Body.isWide b then 1 else 0)
                                  + (if Body.isNoBall b then 1 else 0)) ∧
    Extras.wides (Inn.extras inn')
    = Extras.wides (Inn.extras inn) + (if Body.isWide b then 1 else 0) ∧
    Extras.noBalls (Inn.extras inn')
    = Extras.noBalls (Inn.extras inn) + (if Body.isNoBall b then 1 else 0) ∧
    Extras.byes (Inn.extras inn')
    = Extras.byes (Inn.extras inn) + (if Body.isBye b then Body.runs b else 0) ∧
    Extras.legByes (Inn.extras inn')
    = Extras.legByes (Inn.extras inn)
      + (if Body.isLegBye b then Body.runs b else 0) ∧
    (if Body.isWide b || Body.isNoBall b
     then Inn.balls inn' = Inn.balls inn ∧ Inn.overs inn' = Inn.overs inn
     else Inn.balls inn' = Inn.balls inn + 1 ∧
          (Inn.overs inn' == inject_Z (Inn.balls inn' / 6)
                             + inject_Z (Inn.balls inn' mod 6) / inject_Z 10)%Q).
Proof.
  intros Hacc Hnum _.
  destruct (recordBall_current st b m i inn Hacc) as (m' & _ & Hm' & _ & Hi).
  exists m', (scored m inn b).
  destruct (scored_number m inn b Hnum) as (-> & -> & -> & -> & ->).
  unfold flag. split_and!; [done..|].
  destruct Hacc as (_&_&_&_&_&Hball).
  apply validBall_total in Hball.
  rewrite scored_balls, scored_overs. rewrite totalBalls_legal in *.
  destruct (Body.isWide b || Body.isNoBall b); [done|].
  split; [done|]. by apply oversDisplay_notation.
Qed.

Lemma X20_number_runs_added_witness :
  let inn := inningsAt "A" "B" 30 2 10 false in
  let m := matchWith 20 live 1 [inn] in
  let b := delivery 3 false true true false false in
  accepts (storeOf m) b m 0 inn ∧
  sentAsNumber b ∧
  safeTotals inn ∧
  ∃ m' inn',
    matches (snd (recordBall (storeOf m) b)) !! "m1" = Some m' ∧
    Mat.innings m' !! 0%nat = Some inn' ∧
    Inn.runs inn' = 34 ∧
    Extras.noBalls (Inn.extras inn') = 1 ∧
    Extras.byes (Inn.extras inn') = 3 ∧
    Inn.balls inn' = 10.
Proof.
  intros inn m b.
  assert (accepts (storeOf m) b m 0 inn) as Hacc by by_evaluation.
  assert (sentAsNumber b) as Hnum by reflexivity.
  assert (safeTotals inn) as Hsafe
    by (unfold safeTotals, safeInteger; simpl; lia).
  split_and!; [exact Hacc | exact Hnum | exact Hsafe |].
  destruct (X20_number_runs_added (storeOf m) b m 0 inn Hacc Hnum Hsafe)
    as (m' & inn' & Hm' & Hi & Hr & _ & Hnb & Hby & _ & Hbl & _).
  exists m', inn'. split_and!; [exact Hm' | exact Hi | exact Hr | exact Hnb
                               | exact Hby | exact Hbl].
Defined.

(** ** Any run of calls *)

Lemma recordBalls_cons st b reqs :
  recordBalls st (b :: reqs) = recordBalls (snd (recordBall st b)) reqs.
Proof. done. Qed.

(** X2.  The ball log is append-only: after any run of calls the former
    log is a prefix of the new one, extended by at most one event per
    call. *)
Theorem X2_log_append_only (st : Store) (reqs : list Body.t) :
  balls st `prefix_of` balls (recordBalls st reqs) ∧
  (length (balls (recordBalls st reqs)) ≤ length (balls st) + length reqs)%nat.
Proof.
  revert st. induction reqs as [|b reqs IH]; intros st.
  - split; [done | simpl; lia].
  - rewrite recordBalls_cons.
    destruct (IH (snd (recordBall st b))) as [Hpre Hlen].
    destruct (recordBall_effect st b)
      as [(_ & c & msg & Heq)|(m & i & inn & m' & _ & _ & Heq)];
      rewrite Heq in *; simpl in *.
    + split; [done | lia].
    + split.
      * etrans; [|exact Hpre]. by apply prefix_app_r.
      * rewrite length_app in Hlen. simpl in Hlen. lia.
Qed.

Lemma recordBall_not_live st b mid m :
  matches st !! mid = Some m → Mat.status m ≠ live →
  matches (snd (recordBall st b)) !! mid = Some m.
Proof.
  intros Hm Hst.
  destruct (recordBall_effect st b)
    as [(_ & c & msg & Heq)|(m0 & i & inn & m' & Hacc & _ & Heq)];
    rewrite Heq; simpl; [done|].
  destruct Hacc as (_ & Hm0 & Hlive & _).
  rewrite lookup_insert_ne; [done|]. intros <-. congruence.
Qed.

(** X3.  A match that is not live (scheduled, completed or abandoned) is
    left untouched, whole, by every run of calls. *)
Theorem X3_not_live_untouched (st : Store) (reqs : list Body.t)
    (mid : ObjectId) (m : Mat.t) :
  matches st !! mid = Some m →
  Mat.status m ≠ live →
  matches (recordBalls st reqs) !! mid = Some m.
Proof.
  revert st. induction reqs as [|b reqs IH]; intros st Hm Hst; [done|].
  rewrite recordBalls_cons. apply IH; [|done].
  by apply recordBall_not_live.
Qed.

Lemma X3_not_live_untouched_witness :
  let m := matchWith 20 completed 2
             [inningsAt "A" "B" 100 10 97 true; inningsAt "B" "A" 90 10 80 true] in
  let reqs := replicate 3 (delivery 1 false false false false false) in
  matches (storeOf m) !! "m1" = Some m ∧
  Mat.status m ≠ live ∧
  matches (recordBalls (storeOf m) reqs) !! "m1" = Some m.
Proof.
  intros m reqs.
  assert (matches (storeOf m) !! "m1" = Some m) as Hm
    by (vm_compute; reflexivity).
  assert (Mat.status m ≠ live) as Hst by discriminate.
  split_and!; [exact Hm | exact Hst |].
  exact (X3_not_live_untouched (storeOf m) reqs "m1" m Hm Hst).
Defined.

Lemma validBall_runs m inn b :
  validBall (ballData m inn b) = true → 0 ≤ Body.runs b ≤ 6.
Proof.
  unfold validBall, ballData. rewrite ballIndex_unguarded. simpl.
  intros H. repeat (apply andb_prop in H as [H ?]). lia.
Qed.

(** A relation between an innings and a later state of it that every
    accepted ball maintains, given a property [P] of the innings that it
    also maintains, holds along every run. *)
Section along.
Context (P : Inn.t → Prop) (R : Inn.t → Inn.t → Prop).
Hypothesis R_refl : ∀ a, R a a.
Hypothesis R_trans : ∀ a1 a2 a3, R a1 a2 → R a2 a3 → R a1 a3.
Hypothesis P_kept : ∀ a a', P a → R a a' → P a'.
Hypothesis R_scored : ∀ m inn b,
  0 ≤ Body.runs b → Inn.isCompleted inn = false → P inn →
  R inn (scored m inn b).

Lemma updateMatch_along m i inn b m' k a :
  currentInnings m = Some (i, inn) →
  Inn.isCompleted inn = false →
  validBall (ballData m inn b) = true →
  updateMatch m i inn b = Some m' →
  Mat.innings m !! k = Some a → P a →
  ∃ a', Mat.innings m' !! k = Some a' ∧ R a a'.
Proof using R_refl R_scored.
  intros Hcur Hopen Hball Hup Hk HP.
  pose proof (currentInnings_lookup m i inn Hcur) as Hi.
  rewrite (updateMatch_innings m i inn b m' Hcur Hup).
  rewrite lookup_app_l
    by (rewrite length_insert; by eapply lookup_lt_Some).
  destruct (decide (k = i)) as [->|Hne].
  - rewrite list_lookup_insert_eq by (by eapply lookup_lt_Some).
    assert (a = inn) as -> by congruence.
    eexists. split; [done|]. apply R_scored; [|done..].
    by apply validBall_runs in Hball as [? _].
  - rewrite list_lookup_insert_ne by done.
    exists a. split; [done | apply R_refl].
Qed.

Lemma recordBall_along st b mid m k a :
  matches st !! mid = Some m →
  Mat.innings m !! k = Some a → P a →
  ∃ m' a', matches (snd (recordBall st b)) !! mid = Some m' ∧
           Mat.innings m' !! k = Some a' ∧ R a a'.
Proof using R_refl R_scored.
  intros Hm Hk HP.
  destruct (recordBall_effect st b)
    as [(_ & c & msg & Heq)|(m0 & i & inn & m' & Hacc & Hup & Heq)];
    rewrite Heq; simpl.
  { exists m, a. split_and!; [done..| apply R_refl]. }
  destruct (decide (Body.match_ b = mid)) as [<-|Hne].
  - destruct Hacc as (_ & Hm0 & _ & Hcur & Hopen & Hball).
    assert (m0 = m) as -> by congruence.
    destruct (updateMatch_along m i inn b m' k a Hcur Hopen Hball Hup Hk HP)
      as (a' & Hk' & Hle).
    exists m', a'. by rewrite lookup_insert_eq.
  - exists m, a. rewrite lookup_insert_ne by done.
    split_and!; [done..| apply R_refl].
Qed.

Lemma recordBalls_along reqs : ∀ st mid m k a,
  matches st !! mid = Some m →
  Mat.innings m !! k = Some a → P a →
  ∃ m' a', matches (recordBalls st reqs) !! mid = Some m' ∧
           Mat.innings m' !! k = Some a' ∧ R a a'.
Proof using R_refl R_trans P_kept R_scored.
  induction reqs as [|b reqs IH]; intros st mid m k a Hm Hk HP.
  { exists m, a. split_and!; [done..| apply R_refl]. }
  rewrite recordBalls_cons.
  destruct (recordBall_along st b mid m k a Hm Hk HP)
    as (m1 & a1 & Hm1 & Hk1 & Hle1).
  destruct (IH _ mid m1 k a1 Hm1 Hk1 (P_kept _ _ HP Hle1))
    as (m' & a' & Hm' & Hk' & Hle').
  exists m', a'. split_and!; [done..|]. by eapply R_trans.
Qed.
End along.

Lemma inningsKept_scored m inn b :
  Inn.isCompleted inn = false → inningsKept inn (scored m inn b).
Proof.
  intros Hopen. unfold inningsKept.
  destruct (scored_teams m inn b) as [-> ->].
  rewrite scored_wickets, scored_balls, scored_extras, totalBalls_legal.
  unfold addExtras, flag. simpl.
  split_and!; try done; try (repeat case_match; lia).
  intros Hdone. congruence.
Qed.

(** Whatever it holds, an innings keeps its teams and its completion, and
    its wickets, balls, wides and no-balls do not go down. *)
Lemma recordBalls_kept reqs st mid m k a :
  matches st !! mid = Some m →
  Mat.innings m !! k = Some a →
  ∃ m' a', matches (recordBalls st reqs) !! mid = Some m' ∧
           Mat.innings m' !! k = Some a' ∧ inningsKept a a'.
Proof.
  intros Hm Hk.
  assert (∀ a0, inningsKept a0 a0) as Hrefl
    by (intros a0; unfold inningsKept; split_and!; done || lia).
  assert (∀ a1 a2 a3, inningsKept a1 a2 → inningsKept a2 a3 →
                      inningsKept a1 a3) as Htrans.
  { unfold inningsKept.
    intros a1 a2 a3 (?&?&?&?&?&?&?) (?&?&?&?&?&?&?).
    split_and!; try congruence; try lia; auto. }
  apply (recordBalls_along (λ _, True) inningsKept Hrefl Htrans
           (λ _ _ _ _, I)
           (λ m0 inn b _ Hopen _, inningsKept_scored m0 inn b Hopen)
           reqs st mid m k a Hm Hk I).
Qed.

Lemma totalsLe_scored m inn b :
  0 ≤ Body.runs b → countsUp inn → totalsLe inn (scored m inn b).
Proof.
  intros Hr (Hruns & Hbyes & Hleg). unfold totalsLe.
  rewrite scored_runs, scored_extras.
  pose proof (runsToAdd_ge b _ Hr Hruns).
  pose proof (bodyRuns_ge b _ Hr Hbyes).
  pose proof (bodyRuns_ge b _ Hr Hleg).
  unfold addExtras. simpl. split_and!; try done; case_match; lia.
Qed.

(** Totals that are not negative do not go down, however the runs are
    sent. *)
Lemma recordBalls_le reqs st mid m k a :
  matches st !! mid = Some m →
  Mat.innings m !! k = Some a → countsUp a →
  ∃ m' a', matches (recordBalls st reqs) !! mid = Some m' ∧
           Mat.innings m' !! k = Some a' ∧ totalsLe a a'.
Proof.
  intros Hm Hk Hup0.
  assert (∀ a0, totalsLe a0 a0) as Hrefl
    by (intros a0; unfold totalsLe; lia).
  assert (∀ a1 a2 a3, totalsLe a1 a2 → totalsLe a2 a3 → totalsLe a1 a3)
    as Htrans by (unfold totalsLe; intros a1 a2 a3 (?&?&?) (?&?&?); lia).
  assert (∀ a0 a', countsUp a0 → totalsLe a0 a' → countsUp a') as Hkept
    by (unfold countsUp, totalsLe; intros a0 a' (?&?&?) (?&?&?); lia).
  apply (recordBalls_along countsUp totalsLe Hrefl Htrans Hkept
           (λ m0 inn b Hr _ Hinn, totalsLe_scored m0 inn b Hr Hinn)
           reqs st mid m k a Hm Hk Hup0).
Qed.

Lemma sameFixture_trans m1 m2 m3 :
  sameFixture m1 m2 → sameFixture m2 m3 → sameFixture m1 m3.
Proof.
  intros (?&?&?&?&?) (?&?&?&?&?). unfold sameFixture.
  split_and!; congruence.
Qed.

Lemma recordBall_fixture st b mid m :
  matches st !! mid = Some m →
  ∃ m', matches (snd (recordBall st b)) !! mid = Some m' ∧ sameFixture m m'.
Proof.
  intros Hm.
  destruct (recordBall_effect st b)
    as [(_ & c & msg & Heq)|(m0 & i & inn & m' & Hacc & Hup & Heq)];
    rewrite Heq; simpl.
  { exists m. by repeat split. }
  destruct (decide (Body.match_ b = mid)) as [<-|Hne].
  - destruct Hacc as (_ & Hm0 & _).
    assert (m0 = m) as -> by congruence.
    exists m'. rewrite lookup_insert_eq. split; [done|].
    by eapply updateMatch_fixture.
  - exists m. rewrite lookup_insert_ne by done. by repeat split.
Qed.

Lemma recordBalls_fixture reqs : ∀ st mid m,
  matches st !! mid = Some m →
  ∃ m', matches (recordBalls st reqs) !! mid = Some m' ∧ sameFixture m m'.
Proof.
  induction reqs as [|b reqs IH]; intros st mid m Hm.
  { exists m. by repeat split. }
  rewrite recordBalls_cons.
  destruct (recordBall_fixture st b mid m Hm) as (m1 & Hm1 & Hf1).
  destruct (IH _ mid m1 Hm1) as (m' & Hm' & Hf').
  exists m'. split; [done|]. by eapply sameFixture_trans.
Qed.

Lemma recordBall_dom st b :
  dom (matches (snd (recordBall st b))) = dom (matches st).
Proof.
  destruct (recordBall_effect st b)
    as [(_ & c & msg & Heq)|(m0 & i & inn & m' & Hacc & Hup & Heq)];
    rewrite Heq; simpl; [done|].
  destruct Hacc as (_ & Hm0 & _).
  rewrite dom_insert_L.
  assert (Body.match_ b ∈ dom (matches st)) as Hin
    by (apply elem_of_dom; eauto).
  apply set_eq. intros x. rewrite elem_of_union, elem_of_singleton.
  split; [intros [->|?]; done | by right].
Qed.

(** X4.  No run of calls creates or deletes a match, and none changes the
    teams, the overs limit or the toss of a match. *)
Theorem X4_matches_kept (st : Store) (reqs : list Body.t) (mid : ObjectId)
    (m : Mat.t) :
  matches st !! mid = Some m →
  dom (matches (recordBalls st reqs)) = dom (matches st) ∧
  ∃ m',
    matches (recordBalls st reqs) !! mid = Some m' ∧
    Mat.team1 m' = Mat.team1 m ∧ Mat.team2 m' = Mat.team2 m ∧
    Mat.overs m' = Mat.overs m ∧ Mat.tossWinner m' = Mat.tossWinner m ∧
    Mat.tossDecision m' = Mat.tossDecision m.
Proof.
  intros Hm. split.
  - clear Hm. revert st. induction reqs as [|b reqs IH]; intros st; [done|].
    rewrite recordBalls_cons, IH. apply recordBall_dom.
  - destruct (recordBalls_fixture reqs st mid m Hm) as (m' & Hm' & Hf).
    exists m'. split; [done|]. exact Hf.
Qed.

Lemma X4_matches_kept_witness :
  let m := matchWith 1 live 1 [inningsAt "A" "B" 0 0 0 false] in
  let reqs := replicate 13 (delivery 1 false false false false false) in
  matches (storeOf m) !! "m1" = Some m ∧
  dom (matches (recordBalls (storeOf m) reqs)) = {["m1"]} ∧
  ∃ m',
    matches (recordBalls (storeOf m) reqs) !! "m1" = Some m' ∧
    Mat.overs m' = 1.
Proof.
  intros m reqs.
  assert (matches (storeOf m) !! "m1" = Some m) as Hm
    by (vm_compute; reflexivity).
  split; [exact Hm|].
  destruct (X4_matches_kept (storeOf m) reqs "m1" m Hm)
    as (Hdom & m' & Hm' & _ & _ & Hov & _).
  split.
  - rewrite Hdom. unfold storeOf. simpl. apply dom_singleton_L.
  - exists m'. split; [exact Hm' | exact Hov].
Defined.

(** A total below zero, which scoring never produces but a stored
    document may hold, goes down when digits are appended to it: -30 and
    the string "4" make -304. *)
Lemma negative_total_drops :
  let a := inningsAt "A" "B" (-30) 0 0 false in
  let m := matchWith 20 live 1 [a] in
  let b := deliveryAsString 4 false false false false false in
  accepts (storeOf m) b m 0 a ∧
  matches (recordBalls (storeOf m) [b]) !! "m1"
  = Some (matchWith 20 live 1 [inningsAt "A" "B" (-304) 0 1 false]).
Proof. intros a m b. split; [by_evaluation | vm_compute; reflexivity]. Qed.

(** X5.  Along any run of calls no innings is removed or reordered, every
    innings keeps its batting and bowling team, [isCompleted] is never
    reset, and its [wickets], [balls], wides and no-balls never go down.
    Its [runs], byes and leg-byes never go down either if they are not
    negative to begin with, as they never are in a match that scoring has
    built up from [/start]; a negative total does go down when runs sent as
    a string are appended to it. *)
Theorem X5_counters_monotone (st : Store) (reqs : list Body.t)
    (mid : ObjectId) (m : Mat.t) (k : nat) (a : Inn.t) :
  matches st !! mid = Some m →
  Mat.innings m !! k = Some a →
  ∃ m' a',
    matches (recordBalls st reqs) !! mid = Some m' ∧
    Mat.innings m' !! k = Some a' ∧
    Inn.battingTeam a' = Inn.battingTeam a ∧
    Inn.bowlingTeam a' = Inn.bowlingTeam a ∧
    Inn.wickets a ≤ Inn.wickets a' ∧
    Inn.balls a ≤ Inn.balls a' ∧
    Extras.wides (Inn.extras a) ≤ Extras.wides (Inn.extras a') ∧
    Extras.noBalls (Inn.extras a) ≤ Extras.noBalls (Inn.extras a') ∧
    (Inn.isCompleted a = true → Inn.isCompleted a' = true) ∧
    (0 ≤ Inn.runs a → 0 ≤ Extras.byes (Inn.extras a) →
     0 ≤ Extras.legByes (Inn.extras a) →
     Inn.runs a ≤ Inn.runs a' ∧
     Extras.byes (Inn.extras a) ≤ Extras.byes (Inn.extras a') ∧
     Extras.legByes (Inn.extras a) ≤ Extras.legByes (Inn.extras a')).
Proof.
  intros Hm Hk.
  destruct (recordBalls_kept reqs st mid m k a Hm Hk)
    as (m' & a' & Hm' & Hk' & Hkept).
  exists m', a'. split; [done|]. split; [done|].
  destruct Hkept as (?&?&?&?&?&?&?). split_and!; [done..|].
  intros Hr Hb Hl.
  destruct (recordBalls_le reqs st mid m k a Hm Hk)
    as (m'' & a'' & Hm'' & Hk'' & Hle); [done|].
  assert (m'' = m') as -> by congruence.
  assert (a'' = a') as -> by congruence.
  exact Hle.
Qed.

Lemma X5_counters_monotone_witness :
  let a := inningsAt "A" "B" 30 2 5 false in
  let m := matchWith 1 live 1 [a] in
  let reqs := [delivery 2 false false true false false;
               deliveryAsString 0 true false false false true] in
  matches (storeOf m) !! "m1" = Some m ∧
  Mat.innings m !! 0%nat = Some a ∧
  ∃ m' a',
    matches (recordBalls (storeOf m) reqs) !! "m1" = Some m' ∧
    Mat.innings m' !! 0%nat = Some a' ∧
    Inn.runs a ≤ Inn.runs a' ∧
    Inn.balls a ≤ Inn.balls a'.
Proof.
  intros a m reqs.
  assert (matches (storeOf m) !! "m1" = Some m) as Hm
    by (vm_compute; reflexivity).
  assert (Mat.innings m !! 0%nat = Some a) as Hk by reflexivity.
  split_and!; [exact Hm | exact Hk |].
  destruct (X5_counters_monotone (storeOf m) reqs "m1" m 0 a Hm Hk)
    as (m' & a' & Hm' & Hk' & _ & _ & _ & Hb & _ & _ & _ & Hle).
  exists m', a'. split_and!; [exact Hm' | exact Hk' | | exact Hb].
  apply Hle; simpl; lia.
Defined.

(** ** The ball log and the innings totals *)

Lemma total_app f l1 l2 : total f (l1 ++ l2) = total f l1 + total f l2.
Proof. induction l1 as [|d l1 IH]; simpl; [done|]. rewrite IH. lia. Qed.

Lemma ballData_body m inn b : Ball.body (ballData m inn b) = b.
Proof. unfold ballData. by destruct (ballIndex _ _ _). Qed.

Lemma ballData_innings m inn b :
  Ball.innings (ballData m inn b) = Mat.currentInnings m.
Proof. unfold ballData. by destruct (ballIndex _ _ _). Qed.

Lemma currentInnings_number m i inn :
  currentInnings m = Some (i, inn) → Mat.currentInnings m = Z.of_nat i + 1.
Proof. intros Hcur. destruct (currentInnings_index m i inn Hcur). lia. Qed.

Lemma logged_snoc ms st d mid k :
  logged (mkStore ms (balls st ++ [d])) mid k
  = logged st mid k ++ (if decide (inInnings mid k d) then [d] else []).
Proof. unfold logged. simpl. by rewrite filter_app. Qed.

Lemma logged_none st mid k :
  (∀ d, d ∈ balls st → ¬ inInnings mid k d) → logged st mid k = [].
Proof.
  unfold logged. induction (balls st) as [|d l IH]; intros Hno; [done|].
  rewrite filter_cons, decide_False by (apply Hno; left).
  apply IH. intros d' Hin. apply Hno. by right.
Qed.

Lemma tallies_zeroed inn : zeroed inn → tallies inn [].
Proof.
  intros (Hr & Hw & _ & Hb & He & _). unfold tallies. rewrite Hr, Hw, Hb, He.
  done.
Qed.

Lemma tallies_scored m inn b l d :
  sentAsNumber b →
  tallies inn l → Ball.body d = b → tallies (scored m inn b) (l ++ [d]).
Proof.
  intros Hnum (Hr & Hw & Hb & He1 & He2 & He3 & He4) Hd. unfold tallies.
  rewrite !total_app. simpl. rewrite !Z.add_0_r.
  destruct (scored_number m inn b Hnum) as (-> & -> & -> & -> & ->).
  rewrite scored_wickets, scored_balls, totalBalls_legal.
  unfold runsOf, isLegal, flag in *. rewrite Hd.
  split_and!; try congruence;
    destruct (Body.isWide b), (Body.isNoBall b), (Body.isBye b),
      (Body.isLegBye b); simpl; lia.
Qed.

Lemma secondInnings_zeroed inn : zeroed (secondInnings inn).
Proof. by repeat split. Qed.

(** What an accepted request does to the innings of its match and to the
    ball events of each of them. *)
Section accepted.
Context (st : Store) (b : Body.t) (m : Mat.t) (i : nat) (inn : Inn.t)
        (m' : Mat.t).
Hypothesis Hnumbered : numbered st.
Hypothesis Hm : matches st !! Body.match_ b = Some m.
Hypothesis Hcur : currentInnings m = Some (i, inn).
Hypothesis Hup : updateMatch m i inn b = Some m'.

Lemma accepted_numbered :
  numbered (mkStore (<[Body.match_ b := m']> (matches st))
                    (balls st ++ [ballData m inn b])).
Proof using Hnumbered Hm Hcur Hup.
  pose proof (currentInnings_lt m i inn Hcur) as Hlt.
  pose proof (currentInnings_number m i inn Hcur) as Hci.
  pose proof (updateMatch_innings m i inn b m' Hcur Hup) as Hinn.
  assert (length (Mat.innings m) ≤ length (Mat.innings m'))%nat as Hlen
    by (rewrite Hinn, length_app, length_insert; lia).
  intros mid m1 d Hm1 Hin Hd. simpl in Hm1, Hin.
  apply elem_of_app in Hin as [Hin|Hin%list_elem_of_singleton].
  - destruct (decide (Body.match_ b = mid)) as [<-|Hne].
    + rewrite lookup_insert_eq in Hm1. injection Hm1 as <-.
      specialize (Hnumbered _ _ d Hm Hin Hd). lia.
    + rewrite lookup_insert_ne in Hm1 by done. by eapply Hnumbered.
  - subst d. rewrite ballData_body in Hd. subst mid.
    rewrite lookup_insert_eq in Hm1. injection Hm1 as <-.
    rewrite ballData_innings. lia.
Qed.

(** The events of an innings after the request: the new event joins those
    of the current innings, and a second innings starts without any. *)
Lemma accepted_logged mid m1 k a :
  let st' := mkStore (<[Body.match_ b := m']> (matches st))
                     (balls st ++ [ballData m inn b]) in
  matches st' !! mid = Some m1 →
  Mat.innings m1 !! k = Some a →
  (mid = Body.match_ b ∧ k = i ∧ a = scored m inn b ∧
   logged st' mid k = logged st mid k ++ [ballData m inn b]) ∨
  (logged st' mid k = logged st mid k ∧
   ((mid = Body.match_ b ∧ k ≠ i ∧ Mat.innings m !! k = Some a) ∨
    (mid = Body.match_ b ∧ a = secondInnings (scored m inn b) ∧
     logged st mid k = []) ∨
    (mid ≠ Body.match_ b ∧ matches st !! mid = Some m1))).
Proof using Hnumbered Hm Hcur Hup.
  pose proof (currentInnings_lookup m i inn Hcur) as Hi.
  pose proof (currentInnings_lt m i inn Hcur) as Hlt.
  pose proof (currentInnings_number m i inn Hcur) as Hci.
  pose proof (updateMatch_innings m i inn b m' Hcur Hup) as Hinn.
  pose proof (ballData_innings m inn b) as Hdi.
  pose proof (ballData_body m inn b) as Hdb.
  intros st' Hm1 Hk. simpl in Hm1. unfold st'. rewrite logged_snoc.
  destruct (decide (Body.match_ b = mid)) as [<-|Hne].
  - rewrite lookup_insert_eq in Hm1. injection Hm1 as <-.
    rewrite Hinn in Hk.
    destruct (decide (k < length (Mat.innings m))%nat) as [Hk_lt|Hk_ge].
    + rewrite lookup_app_l in Hk by (by rewrite length_insert).
      destruct (decide (k = i)) as [->|Hki].
      * rewrite list_lookup_insert_eq in Hk by done. injection Hk as <-.
        rewrite decide_True by (split; [by rewrite Hdb | lia]).
        by left.
      * rewrite list_lookup_insert_ne in Hk by done.
        rewrite decide_False by (intros [_ ?]; lia).
        rewrite app_nil_r. right. split; [done|]. by left.
    + rewrite lookup_app_r in Hk by (rewrite length_insert; lia).
      rewrite length_insert in Hk.
      rewrite decide_False by (intros [_ ?]; lia).
      rewrite app_nil_r. right. split; [done|]. right; left.
      destruct (inningsOver _ _ && _); [|by rewrite lookup_nil in Hk].
      destruct (k - length (Mat.innings m))%nat as [|n] eqn:Hkn;
        [|by rewrite lookup_cons, lookup_nil in Hk].
      injection Hk as <-. split_and!; [done..|].
      apply logged_none.
      intros d' Hin [Hd' Hk']. specialize (Hnumbered _ _ d' Hm Hin Hd'). lia.
  - rewrite lookup_insert_ne in Hm1 by done.
    rewrite decide_False by (intros [? _]; congruence).
    rewrite app_nil_r. right. split; [done|]. right; right. done.
Qed.
End accepted.

Lemma recordBall_numbered st b : numbered st → numbered (snd (recordBall st b)).
Proof.
  intros Hnum.
  destruct (recordBall_effect st b)
    as [(_ & c & msg & Heq)|(m & i & inn & m' & Hacc & Hup & Heq)];
    rewrite Heq; simpl; [done|].
  destruct Hacc as (_ & Hm & _ & Hcur & _).
  by eapply accepted_numbered.
Qed.

Lemma recordBalls_numbered reqs : ∀ st,
  numbered st → numbered (recordBalls st reqs).
Proof.
  induction reqs as [|b reqs IH]; intros st Hnum; [done|].
  rewrite recordBalls_cons. by apply IH, recordBall_numbered.
Qed.

Lemma recordBall_reconciled st b :
  sentAsNumber b → numbered st → reconciled st →
  reconciled (snd (recordBall st b)).
Proof.
  intros Hb Hnum Hrec.
  destruct (recordBall_effect st b)
    as [(_ & c & msg & Heq)|(m & i & inn & m' & Hacc & Hup & Heq)];
    rewrite Heq; simpl; [done|].
  destruct Hacc as (_ & Hm & _ & Hcur & _).
  pose proof (currentInnings_lookup m i inn Hcur) as Hi.
  intros mid m1 k a Hm1 Hk.
  destruct (accepted_logged st b m i inn m' Hnum Hm Hcur Hup mid m1 k a
              Hm1 Hk)
    as [(-> & -> & -> & ->)
       |[-> [(-> & _ & Hk0)|[(-> & -> & ->)|(_ & Hm0)]]]].
  - apply tallies_scored; [done| by eapply Hrec | apply ballData_body].
  - by eapply Hrec.
  - apply tallies_zeroed, secondInnings_zeroed.
  - by eapply Hrec.
Qed.

Lemma recordBalls_reconciled reqs : ∀ st,
  Forall sentAsNumber reqs → numbered st → reconciled st →
  reconciled (recordBalls st reqs).
Proof.
  induction reqs as [|b reqs IH]; intros st Hall Hnum Hrec; [done|].
  apply Forall_cons in Hall as [Hb Hall]. rewrite recordBalls_cons.
  apply IH; [done | by apply recordBall_numbered
            | by apply recordBall_reconciled].
Qed.

Lemma fresh_numbered st : balls st = [] → numbered st.
Proof.
  intros Hlog mid m d _ Hin. rewrite Hlog in Hin.
  by apply elem_of_nil in Hin.
Qed.

Lemma fresh_reconciled st :
  balls st = [] →
  (∀ mid m, matches st !! mid = Some m → Forall zeroed (Mat.innings m)) →
  reconciled st.
Proof.
  intros Hlog Hfresh mid m k a Hm Hk.
  unfold logged. rewrite Hlog, filter_nil.
  apply tallies_zeroed.
  by eapply (Forall_lookup_1 _ _ _ _ (Hfresh _ _ Hm)).
Qed.


(** A run in which one request sends its runs as a string: the innings holds
    41 where its two ball events are worth 5. *)
Lemma string_runs_break_replay :
  let m := matchWith 20 live 1 [freshInnings "A" "B"] in
  let reqs := [delivery 4 false false false false false;
               deliveryAsString 1 false false false false false] in
  ∃ m' inn,
    matches (recordBalls (storeOf m) reqs) !! "m1" = Some m' ∧
    Mat.innings m' !! 0%nat = Some inn ∧
    Inn.runs inn = 41 ∧
    total runsOf (logged (recordBalls (storeOf m) reqs) "m1" 0) = 5.
Proof.
  intros m reqs. eexists _, _.
  split_and!; [vm_compute; reflexivity | reflexivity | reflexivity
              | vm_compute; reflexivity].
Qed.

Lemma storeOf_fresh m :
  Forall zeroed (Mat.innings m) →
  ∀ mid m', matches (storeOf m) !! mid = Some m' →
            Forall zeroed (Mat.innings m').
Proof.
  intros Hz mid m' Hm'. unfold storeOf in Hm'. simpl in Hm'.
  apply lookup_singleton_Some in Hm' as [_ <-]. done.
Qed.


(** ** The stamp of a ball event *)

Lemma ballData_position m inn b :
  validBall (ballData m inn b) = true →
  1 ≤ Ball.ball (ballData m inn b) ≤ 6 ∧
  position (ballData m inn b)
  = totalBalls (Inn.balls inn) (Body.isWide b) (Body.isNoBall b).
Proof.
  intros Hball. pose proof (validBall_total m inn b Hball) as Ht.
  apply validBall_inRange in Hball. split; [exact Hball|]. clear Hball.
  unfold position, ballData. rewrite ballIndex_unguarded. simpl.
  rewrite Z.rem_mod_nonneg by lia.
  pose proof (Z.div_mod
    (totalBalls (Inn.balls inn) (Body.isWide b) (Body.isNoBall b)) 6).
  lia.
Qed.

(** X7.  The stamp of an accepted delivery encodes the ball count of its
    innings after the delivery: [6 * over + (ball - 1) = innings.balls],
    whether the delivery is legal or an extra, and the event is the last of
    the log. *)
Theorem X7_stamp_decodes (st : Store) (b : Body.t) (m : Mat.t) (i : nat)
    (inn : Inn.t) :
  accepts st b m i inn →
  ∃ m' inn' d,
    matches (snd (recordBall st b)) !! Body.match_ b = Some m' ∧
    Mat.innings m' !! i = Some inn' ∧
    last (balls (snd (recordBall st b))) = Some d ∧
    Ball.body d = b ∧
    Ball.innings d = Z.of_nat i + 1 ∧
    6 * Ball.over d + (Ball.ball d - 1) = Inn.balls inn'.
Proof.
  intros Hacc.
  destruct (recordBall_current st b m i inn Hacc) as (m' & _ & Hm' & Hlog & Hi).
  destruct Hacc as (_ & _ & _ & Hcur & _ & Hball).
  exists m', (scored m inn b), (ballData m inn b).
  split_and!; [done..| | | |].
  - rewrite Hlog. apply last_snoc.
  - apply ballData_body.
  - rewrite ballData_innings. by apply (currentInnings_number m i inn).
  - rewrite scored_balls. by apply ballData_position.
Qed.

Lemma X7_stamp_decodes_witness :
  let inn := inningsAt "A" "B" 30 2 11 false in
  let m := matchWith 20 live 1 [inn] in
  let b := delivery 0 true false false false false in
  accepts (storeOf m) b m 0 inn ∧
  ∃ d,
    last (balls (snd (recordBall (storeOf m) b))) = Some d ∧
    Ball.over d = 1 ∧ Ball.ball d = 6 ∧
    6 * Ball.over d + (Ball.ball d - 1) = 11.
Proof.
  intros inn m b.
  assert (accepts (storeOf m) b m 0 inn) as Hacc by by_evaluation.
  split; [exact Hacc|].
  destruct (X7_stamp_decodes (storeOf m) b m 0 inn Hacc)
    as (m' & inn' & d & Hm' & Hi & Hlast & _ & _ & Hpos).
  assert (Some d = Some (Ball.mk b 1 1 6)) as Hd
    by (rewrite <- Hlast; vm_compute; reflexivity).
  injection Hd as ->.
  exists (Ball.mk b 1 1 6).
  split_and!; [exact Hlast | reflexivity | reflexivity | reflexivity].
Defined.

Lemma stampLe_position d1 d2 :
  1 ≤ Ball.ball d1 ≤ 6 → 1 ≤ Ball.ball d2 ≤ 6 →
  position d1 ≤ position d2 → stampLe d1 d2.
Proof. unfold position, stampLe. lia. Qed.

Lemma placed_nil inn : placed inn [].
Proof. split; constructor. Qed.

Lemma placed_snoc m inn b l :
  validBall (ballData m inn b) = true →
  placed inn l →
  placed (scored m inn b) (l ++ [ballData m inn b]).
Proof.
  intros Hball [Hall Hsorted].
  destruct (ballData_position m inn b Hball) as [Hrange Hpos].
  assert (Inn.balls inn ≤ Inn.balls (scored m inn b)) as Hle
    by (rewrite scored_balls, totalBalls_legal; case_match; lia).
  split.
  - apply Forall_app. split.
    + eapply Forall_impl; [exact Hall|]. simpl. intros d [? ?].
      split; [done | lia].
    + constructor; [|constructor]. rewrite scored_balls. split; [done | lia].
  - apply StronglySorted_app_2; [|done|repeat constructor].
    intros d1 d2 Hd1 ->%list_elem_of_singleton.
    rewrite Forall_forall in Hall. destruct (Hall d1 Hd1) as [Hr1 Hp1].
    apply stampLe_position; [done..|].
    rewrite scored_balls in Hle. lia.
Qed.

Lemma recordBall_ordered st b :
  numbered st → ordered st → ordered (snd (recordBall st b)).
Proof.
  intros Hnum Hord.
  destruct (recordBall_effect st b)
    as [(_ & c & msg & Heq)|(m & i & inn & m' & Hacc & Hup & Heq)];
    rewrite Heq; simpl; [done|].
  destruct Hacc as (_ & Hm & _ & Hcur & Hopen & Hball).
  pose proof (currentInnings_lookup m i inn Hcur) as Hi.
  intros mid m1 k a Hm1 Hk.
  destruct (accepted_logged st b m i inn m' Hnum Hm Hcur Hup mid m1 k a
              Hm1 Hk)
    as [(-> & -> & -> & ->)
       |[-> [(-> & _ & Hk0)|[(-> & -> & ->)|(_ & Hm0)]]]].
  - apply placed_snoc; [done|]. by eapply Hord.
  - by eapply Hord.
  - apply placed_nil.
  - by eapply Hord.
Qed.

Lemma recordBalls_ordered reqs : ∀ st,
  numbered st → ordered st → ordered (recordBalls st reqs).
Proof.
  induction reqs as [|b reqs IH]; intros st Hnum Hord; [done|].
  rewrite recordBalls_cons.
  apply IH; [by apply recordBall_numbered | by apply recordBall_ordered].
Qed.



(** X9.  Legal deliveries are numbered from ball 2.  With [6 * q + r] legal
    balls bowled ([0 <= r < 6]), the next legal delivery is stamped ball
    [r + 2] of over [q], except that the one completing the over ([r = 5])
    is stamped ball 1 of over [q + 1]; so no legal delivery is ever stamped
    ball 1 of over 0.  A wide or no-ball is stamped ball [r + 1] of over
    [q], which after at least one legal ball is the stamp of the legal
    delivery before it. *)
Theorem X9_stamp_numbering (q r : Z) (isWide isNoBall : bool) :
  0 ≤ q → 0 ≤ r < 6 →
  ballIndex (6 * q + r) false false
  = (if r <? 5 then (q, r + 2) else (q + 1, 1)) ∧
  ballIndex (6 * q + r) false false ≠ (0, 1) ∧
  (isWide || isNoBall = true →
   ballIndex (6 * q + r) isWide isNoBall = (q, r + 1) ∧
   ballIndex (6 * q + r + 1) isWide isNoBall
   = ballIndex (6 * q + r) false false).
Proof.
  intros Hq Hr.
  assert (∀ n w nb, 0 ≤ n →
            ballIndex n w nb
            = (totalBalls n w nb / 6, totalBalls n w nb mod 6 + 1)) as Hidx.
  { intros n w nb Hn. rewrite ballIndex_unguarded.
    rewrite Z.rem_mod_nonneg; [done| |lia].
    rewrite totalBalls_legal. case_match; lia. }
  assert (∀ p x, 0 ≤ x < 6 → (6 * p + x) / 6 = p ∧ (6 * p + x) mod 6 = x)
    as Hdm.
  { intros p x Hx. split.
    - symmetry. apply (Z.div_unique _ 6 p x); lia.
    - symmetry. apply (Z.mod_unique _ 6 p x); lia. }
  assert (ballIndex (6 * q + r) false false
          = (if r <? 5 then (q, r + 2) else (q + 1, 1))) as Hlegal.
  { rewrite Hidx by lia. unfold totalBalls. simpl.
    destruct (Z.ltb_spec r 5).
    - destruct (Hdm q (r + 1)) as [Hd Hm]; [lia|].
      replace (6 * q + r + 1) with (6 * q + (r + 1)) by lia.
      rewrite Hd, Hm. f_equal. lia.
    - destruct (Hdm (q + 1) 0) as [Hd Hm]; [lia|].
      replace (6 * q + r + 1) with (6 * (q + 1) + 0) by lia.
      rewrite Hd, Hm. done. }
  split_and!.
  - exact Hlegal.
  - rewrite Hlegal. case_match; intros [=]; lia.
  - intros Hextra. split.
    + rewrite Hidx by lia. rewrite totalBalls_legal, Hextra.
      destruct (Hdm q r Hr) as [-> ->]. done.
    + rewrite !Hidx by lia. rewrite !totalBalls_legal, Hextra. simpl. done.
Qed.

Lemma X9_stamp_numbering_witness :
  0 ≤ 0 ∧ 0 ≤ 0 < 6 ∧
  ballIndex 0 false false = (0, 2) ∧
  ballIndex 0 true false = (0, 1) ∧
  ballIndex 1 true false = (0, 2).
Proof.
  assert (0 ≤ 0) as H0 by lia.
  assert (0 ≤ 0 < 6) as H1 by lia.
  destruct (X9_stamp_numbering 0 0 true false H0 H1) as (Hl & _ & Hw).
  destruct (Hw eq_refl) as [Hw0 Hw1].
  refine (conj H0 (conj H1 (conj Hl (conj Hw0 _)))).
  exact (eq_trans Hw1 Hl).
Defined.

(** ** Matches reached by scoring *)

(** X10.  A match reached from [/start] by accepted balls has one innings,
    open, the match being live; or two, the first completed and the second
    with its batting and bowling teams swapped, [currentInnings] being 2,
    and the match is completed exactly when the second innings is.  There
    is never a third innings. *)
Theorem X10_two_innings (m : Mat.t) :
  reachable m →
  (∃ a, Mat.innings m = [a] ∧ Mat.status m = live ∧
        Inn.isCompleted a = false) ∨
  (∃ a c,
     Mat.innings m = [a; c] ∧ Mat.currentInnings m = 2 ∧
     Inn.isCompleted a = true ∧
     Inn.battingTeam c = Inn.bowlingTeam a ∧
     Inn.bowlingTeam c = Inn.battingTeam a ∧
     ((Mat.status m = live ∧ Inn.isCompleted c = false) ∨
      (Mat.status m = completed ∧ Inn.isCompleted c = true))).
Proof.
  intros Hreach.
  destruct (reachable_twoInnings m Hreach)
    as [?|(a & c & ? & ? & ? & ? & ? & Hst)]; [by left|].
  right. exists a, c. split_and!; [done..|].
  destruct Hst as [?|(? & ? & _)]; [by left | by right].
Qed.

(** X11.  The stored result of a completed match agrees with its stored
    innings: it is a win by wickets for the side batting second, with
    margin [10 - wickets] of the second innings, exactly when the second
    innings has more runs; a win by runs for the side batting first, with
    the difference as margin, exactly when the first has more; and a tie
    otherwise. *)
Theorem X11_result_agrees (m : Mat.t) :
  reachable m →
  Mat.status m = completed →
  ∃ a c,
    Mat.innings m = [a; c] ∧
    ((Inn.runs a < Inn.runs c ∧
      Mat.result m
      = Res.mk (Inn.battingTeam c) (Some by_wickets)
               (Some (pretty (10 - Inn.wickets c) +:+ " wickets"))
               (Res.manOfTheMatch (Mat.result m))) ∨
     (Inn.runs c < Inn.runs a ∧
      Mat.result m
      = Res.mk (Inn.battingTeam a) (Some by_runs)
               (Some (pretty (Inn.runs a - Inn.runs c) +:+ " runs"))
               (Res.manOfTheMatch (Mat.result m))) ∨
     (Inn.runs a = Inn.runs c ∧
      Res.resultType (Mat.result m) = Some tie ∧
      Res.margin (Mat.result m) = Some "Match tied")).
Proof.
  intros Hreach Hst.
  destruct (reachable_twoInnings m Hreach)
    as [(a & _ & Hlive & _)|(a & c & Hinn & _ & _ & _ & _ & Hcase)];
    [congruence|].
  destruct Hcase as [[Hlive _]|(_ & _ & r & Hres)]; [congruence|].
  exists a, c. split; [done|]. rewrite Hres. unfold calcResult.
  destruct (Z.ltb_spec (Inn.runs a) (Inn.runs c)); [by left|].
  destruct (Z.ltb_spec (Inn.runs c) (Inn.runs a)); [by right; left|].
  right; right. split_and!; [lia | done..].
Qed.

Lemma started_reachable overs :
  reachable (matchWith overs live 1 [freshInnings "A" "B"]).
Proof.
  apply (reachable_start (matchWith overs scheduled 1 []) "A" (Some "bat")).
  reflexivity.
Qed.

Lemma reachable_run st reqs mid m m' :
  matches st !! mid = Some m → reachable m →
  matches (recordBalls st reqs) !! mid = Some m' → reachable m'.
Proof.
  intros Hm Hreach Hm'.
  destruct (recordBalls_steps reqs st mid m Hm Hreach) as (m'' & Hm'' & ? & _).
  congruence.
Qed.

Lemma X10_two_innings_witness :
  let m := matchWith 1 live 1 [freshInnings "A" "B"] in
  let reqs := replicate 7 (delivery 1 false false false false false) in
  let m' := matchWith 1 live 2
              [inningsAt "A" "B" 6 0 6 true; inningsAt "B" "A" 1 0 1 false] in
  matches (recordBalls (storeOf m) reqs) !! "m1" = Some m' ∧
  reachable m' ∧
  ∃ a c, Mat.innings m' = [a; c] ∧ Mat.currentInnings m' = 2 ∧
         Inn.isCompleted a = true ∧ Inn.battingTeam c = Inn.bowlingTeam a.
Proof.
  intros m reqs m'.
  assert (matches (recordBalls (storeOf m) reqs) !! "m1" = Some m') as Hm'
    by (vm_compute; reflexivity).
  assert (reachable m') as Hreach
    by exact (reachable_run (storeOf m) reqs "m1" m m' eq_refl
                (started_reachable 1) Hm').
  split_and!; [exact Hm' | exact Hreach |].
  destruct (X10_two_innings m' Hreach)
    as [(a & Ha & _)|(a & c & Hinn & Hci & Ha & Hsw & _)];
    [discriminate Ha|].
  exists a, c. split_and!; [exact Hinn | exact Hci | exact Ha | exact Hsw].
Defined.

Lemma X11_result_agrees_witness :
  let m := matchWith 1 live 1 [freshInnings "A" "B"] in
  let reqs := replicate 6 (delivery 1 false false false false false)
              ++ replicate 6 (delivery 2 false false false false false) in
  let l := [inningsAt "A" "B" 6 0 6 true; inningsAt "B" "A" 12 0 6 true] in
  let m' := finish (matchWith 1 live 2 l) l
              (Res.mk (Some "B") (Some by_wickets) (Some "10 wickets") None) in
  matches (recordBalls (storeOf m) reqs) !! "m1" = Some m' ∧
  reachable m' ∧ Mat.status m' = completed ∧
  ∃ a c, Mat.innings m' = [a; c] ∧ Inn.runs a = 6 ∧ Inn.runs c = 12 ∧
         Res.resultType (Mat.result m') = Some by_wickets.
Proof.
  intros m reqs l m'.
  assert (matches (recordBalls (storeOf m) reqs) !! "m1" = Some m') as Hm'
    by (vm_compute; reflexivity).
  assert (reachable m') as Hreach
    by exact (reachable_run (storeOf m) reqs "m1" m m' eq_refl
                (started_reachable 1) Hm').
  assert (Mat.status m' = completed) as Hst by reflexivity.
  split_and!; [exact Hm' | exact Hreach | exact Hst |].
  destruct (X11_result_agrees m' Hreach Hst) as (a & c & Hinn & Hcase).
  injection Hinn as <- <-.
  eexists _, _. split_and!; reflexivity.
Defined.

(** ** Counters of a reached match *)

Lemma wellKept_fresh maxOvers bat bowl :
  wellKept maxOvers (freshInnings bat bowl).
Proof.
  unfold wellKept. simpl. split_and!; try lia; [reflexivity|].
  intros Hmax. change ((0 - 1) / 6) with (-1). change (0 / 6) with 0. lia.
Qed.

Lemma wellKept_second maxOvers inn : wellKept maxOvers (secondInnings inn).
Proof.
  unfold wellKept. simpl. split_and!; try lia; [reflexivity|].
  intros Hmax. change ((0 - 1) / 6) with (-1). change (0 / 6) with 0. lia.
Qed.

Lemma wellKept_scored m inn b :
  validBall (ballData m inn b) = true →
  Inn.isCompleted inn = false →
  wellKept (Mat.overs m) inn →
  wellKept (Mat.overs m) (scored m inn b).
Proof.
  intros Hball Hopen (Hr & Hw & Hb & He1 & He2 & He3 & He4 & Hov & Hmax).
  pose proof (validBall_runs m inn b Hball) as [Hruns _].
  pose proof (scored_isCompleted m inn b Hopen) as Hdone.
  pose proof (scored_over m inn b) as Hso.
  pose proof (runsToAdd_ge b _ Hruns Hr).
  pose proof (bodyRuns_ge b _ Hruns He3).
  pose proof (bodyRuns_ge b _ Hruns He4).
  unfold wellKept.
  rewrite scored_runs, scored_wickets, scored_balls, scored_extras,
    scored_overs, totalBalls_legal.
  unfold addExtras, flag. simpl.
  split_and!; try done; try (repeat case_match; lia).
  - destruct (Body.isWide b || Body.isNoBall b); [done|].
    apply oversDisplay_notation. lia.
  - intros Hge. destruct (Hmax Hge) as [_ Hlt]. specialize (Hlt Hopen).
    split.
    + assert ((if Body.isWide b || Body.isNoBall b
               then Inn.balls inn else Inn.balls inn + 1) - 1
              ≤ Inn.balls inn) as Hle by (case_match; lia).
      apply (Z.div_le_mono _ _ 6) in Hle; lia.
    + rewrite Hdone. intros Hnot. rewrite <- Hso in Hnot.
      unfold inningsOver in Hnot. apply orb_false_elim in Hnot as [Hnot _].
      apply Z.leb_gt in Hnot.
      by rewrite scored_balls, totalBalls_legal in Hnot.
Qed.

Lemma reachable_wellKept m :
  reachable m → Forall (wellKept (Mat.overs m)) (Mat.innings m).
Proof.
  induction 1 as [m0 tw td m Hstart
                 | m i inn b m' _ IH Hlive Hcur Hopen Hball Hup].
  - apply startMatch_inv in Hstart as (_ & _ & _ & _ & bat & bowl & ->).
    constructor; [apply wellKept_fresh | constructor].
  - destruct (updateMatch_fixture m i inn b m' Hup) as (_ & _ & -> & _).
    rewrite (updateMatch_innings m i inn b m' Hcur Hup).
    pose proof (currentInnings_lookup m i inn Hcur) as Hi.
    apply Forall_app. split.
    + apply Forall_insert; [done|].
      apply wellKept_scored; [done..|].
      by eapply (Forall_lookup_1 _ _ _ _ IH).
    + case_match; constructor; [apply wellKept_second | constructor].
Qed.

(** X12.  In a match reached from [/start] by accepted balls, however
    their runs were sent, every innings has non-negative [runs], [wickets],
    [balls] and extras, and its [overs] display is
    [floor (balls / 6) + (balls % 6) / 10] of its own [balls].  When the
    limit [match.overs] is positive, the completed overs
    [floor (balls / 6)] of an innings stay below it while the innings is
    open, and they had not reached it before the last ball of the innings:
    [floor ((balls - 1) / 6)] is below the limit. *)
Theorem X12_counters_kept (m : Mat.t) (k : nat) (inn : Inn.t) :
  reachable m →
  Mat.innings m !! k = Some inn →
  0 ≤ Inn.runs inn ∧ 0 ≤ Inn.wickets inn ∧ 0 ≤ Inn.balls inn ∧
  0 ≤ Extras.wides (Inn.extras inn) ∧ 0 ≤ Extras.noBalls (Inn.extras inn) ∧
  0 ≤ Extras.byes (Inn.extras inn) ∧ 0 ≤ Extras.legByes (Inn.extras inn) ∧
  (Inn.overs inn == inject_Z (Inn.balls inn / 6)
                    + inject_Z (Inn.balls inn mod 6) / inject_Z 10)%Q ∧
  (0 < Mat.overs m →
   (Inn.balls inn - 1) / 6 < Mat.overs m ∧
   (Inn.isCompleted inn = false → Inn.balls inn / 6 < Mat.overs m)).
Proof.
  intros Hreach Hk.
  exact (Forall_lookup_1 _ _ _ _ (reachable_wellKept m Hreach) Hk).
Qed.

Lemma X12_counters_kept_witness :
  let m := matchWith 1 live 1 [freshInnings "A" "B"] in
  let reqs := replicate 6 (delivery 1 false false false false false)
              ++ [deliveryAsString 1 false false false false false] in
  let inn := inningsAt "A" "B" 6 0 6 true in
  let m' := matchWith 1 live 2 [inn; inningsAt "B" "A" 1 0 1 false] in
  matches (recordBalls (storeOf m) reqs) !! "m1" = Some m' ∧
  reachable m' ∧
  Mat.innings m' !! 0%nat = Some inn ∧
  Inn.balls inn = 6 ∧
  (Inn.balls inn - 1) / 6 < Mat.overs m'.
Proof.
  intros m reqs inn m'.
  assert (matches (recordBalls (storeOf m) reqs) !! "m1" = Some m') as Hm'
    by (vm_compute; reflexivity).
  assert (reachable m') as Hreach
    by exact (reachable_run (storeOf m) reqs "m1" m m' eq_refl
                (started_reachable 1) Hm').
  assert (Mat.innings m' !! 0%nat = Some inn) as Hk by reflexivity.
  assert (0 < Mat.overs m') as Hov by (simpl; lia).
  destruct (X12_counters_kept m' 0 inn Hreach Hk)
    as (_ & _ & _ & _ & _ & _ & _ & _ & Hmax).
  split_and!; [exact Hm' | exact Hreach | exact Hk | reflexivity
              | exact (proj1 (Hmax Hov))].
Defined.

(** ** Starting a match *)

(** X13.  A match can be started once: [/start] refuses a match that it
    has started already, and goes on refusing it after any accepted balls,
    whether the match is still live or completed. *)
Theorem X13_started_once (m : Mat.t) (tossWinner : ObjectId)
    (tossDecision : option string) :
  reachable m → startMatch m tossWinner tossDecision = None.
Proof.
  intros Hreach.
  assert (Mat.status m ≠ scheduled) as Hst.
  { destruct (reachable_twoInnings m Hreach)
      as [(a & _ & Hlive & _)|(a & c & _ & _ & _ & _ & _ & Hcase)];
      [congruence|].
    destruct Hcase as [[? _]|(? & _)]; congruence. }
  unfold startMatch. by rewrite bool_decide_eq_false_2.
Qed.

Lemma X13_started_once_witness :
  let m0 := matchWith 20 scheduled 1 [] in
  ∃ m, startMatch m0 "B" (Some "bowl") = Some m ∧
       reachable m ∧
       startMatch m "B" (Some "bowl") = None.
Proof.
  intros m0.
  assert (startMatch m0 "B" (Some "bowl")
          = Some (Mat.mk "A" "B" 20 live (Some "B") (Some "bowl") 1
                         [freshInnings "A" "B"] noResult)) as Hstart
    by reflexivity.
  eexists. split; [exact Hstart|].
  assert (reachable (Mat.mk "A" "B" 20 live (Some "B") (Some "bowl") 1
                            [freshInnings "A" "B"] noResult)) as Hreach
    by exact (reachable_start m0 "B" (Some "bowl") _ Hstart).
  split; [exact Hreach|].
  exact (X13_started_once _ "B" (Some "bowl") Hreach).
Defined.

(** X14.  Starting a match replaces its innings by a single innings at
    zero and records the toss.  The side other than the toss winner is
    taken to be [team2] when the toss winner is [team1] and [team1]
    otherwise, also when the toss winner is neither of the two.
    With decision 'bat' the toss winner bats and that other side bowls;
    with 'bowl' the toss winner bowls and the other side bats; so when the
    toss winner is one of two distinct teams, the two teams of the match
    bat and bowl.  With no decision sent, the other side is set both to bat
    and to bowl. *)
Theorem X14_toss_roles (m0 m : Mat.t) (tossWinner : ObjectId)
    (tossDecision : option string) :
  startMatch m0 tossWinner tossDecision = Some m →
  let other := if bool_decide (tossWinner = Mat.team1 m0)
               then Mat.team2 m0 else Mat.team1 m0 in
  ∃ batting bowling,
    Mat.innings m = [freshInnings batting bowling] ∧
    Mat.status m = live ∧
    Mat.tossWinner m = Some tossWinner ∧
    Mat.tossDecision m = tossDecision ∧
    (tossDecision = Some "bat" → batting = tossWinner ∧ bowling = other) ∧
    (tossDecision = Some "bowl" → batting = other ∧ bowling = tossWinner) ∧
    (tossDecision = None → batting = other ∧ bowling = other) ∧
    (tossDecision ≠ None →
     Mat.team1 m0 ≠ Mat.team2 m0 →
     tossWinner = Mat.team1 m0 ∨ tossWinner = Mat.team2 m0 →
     batting ≠ bowling ∧
     ((batting = Mat.team1 m0 ∧ bowling = Mat.team2 m0) ∨
      (batting = Mat.team2 m0 ∧ bowling = Mat.team1 m0))).
Proof.
  intros H other. unfold startMatch in H.
  destruct (bool_decide (Mat.status m0 = scheduled)); [|done]. simpl in H.
  destruct tossDecision as [td|].
  - destruct (decide (td = "bat")) as [->|Hbat].
    + simpl in H. injection H as <-. simpl.
      eexists _, _. split_and!; [done..| | |].
      * intros [=].
      * intros [=].
      * intros _ Hne [Htw|Htw]; subst other; rewrite Htw.
        -- rewrite bool_decide_eq_true_2 by done. split; [done | by left].
        -- rewrite bool_decide_eq_false_2 by done. split; [done | by right].
    + destruct (decide (td = "bowl")) as [->|Hbowl].
      * simpl in H. injection H as <-. simpl.
        eexists _, _. split_and!; [done..| | | |].
        -- intros [=].
        -- done.
        -- intros [=].
        -- intros _ Hne [Htw|Htw]; subst other; rewrite Htw.
           ++ rewrite bool_decide_eq_true_2 by done.
              split; [done | by right].
           ++ rewrite bool_decide_eq_false_2 by done.
              split; [done | by left].
      * rewrite !bool_decide_eq_false_2 in H by congruence. done.
  - simpl in H. injection H as <-. simpl.
    eexists _, _. split_and!; done.
Qed.

Lemma X14_toss_roles_witness :
  let m0 := matchWith 20 scheduled 1 [] in
  ∃ m, startMatch m0 "B" (Some "bowl") = Some m ∧
       Mat.innings m = [freshInnings "A" "B"] ∧
       Mat.status m = live.
Proof.
  intros m0.
  assert (startMatch m0 "B" (Some "bowl")
          = Some (Mat.mk "A" "B" 20 live (Some "B") (Some "bowl") 1
                         [freshInnings "A" "B"] noResult)) as Hstart
    by reflexivity.
  eexists. split; [exact Hstart|].
  destruct (X14_toss_roles m0 _ "B" (Some "bowl") Hstart)
    as (bat & bowl & Hinn & Hst & _).
  split; [reflexivity | exact Hst].
Defined.

(** * The scorecard *)

(** ** Dictionaries *)

Lemma objGet_objSet_eq {A} k (v : A) o : objGet k (objSet k v o) = Some v.
Proof.
  induction o as [|[k' v'] o IH]; simpl.
  - by rewrite decide_True.
  - destruct (decide (k = k')) as [->|Hne]; simpl.
    + by rewrite decide_True.
    + by rewrite decide_False.
Qed.

Lemma objGet_objSet_ne {A} k k' (v : A) o :
  k ≠ k' → objGet k' (objSet k v o) = objGet k' o.
Proof.
  intros Hne. induction o as [|[k0 v0] o IH]; simpl.
  - by rewrite decide_False.
  - destruct (decide (k = k0)) as [->|Hne0]; simpl.
    + by rewrite !decide_False.
    + by rewrite IH.
Qed.

Lemma objGet_None {A} k (o : list (ObjectId * A)) :
  objGet k o = None ↔ k ∉ o.*1.
Proof.
  induction o as [|[k' v'] o IH]; simpl.
  - split; [intros _; apply not_elem_of_nil | done].
  - rewrite not_elem_of_cons. destruct (decide (k = k')) as [->|Hne].
    + split; [done | intros [? _]; done].
    + rewrite IH. split; [done | by intros [_ ?]].
Qed.

Lemma objSet_keys {A} k (v : A) o :
  (objSet k v o).*1
  = match objGet k o with Some _ => o.*1 | None => o.*1 ++ [k] end.
Proof.
  induction o as [|[k' v'] o IH]; [done|]. cbn [objSet objGet].
  destruct (decide (k = k')) as [->|Hne]; [done|].
  rewrite !fmap_cons, IH. by destruct (objGet k o).
Qed.

Lemma objSet_NoDup {A} k (v : A) o : NoDup o.*1 → NoDup (objSet k v o).*1.
Proof.
  intros Hnd. rewrite objSet_keys.
  destruct (objGet k o) eqn:Hget; [done|].
  apply objGet_None in Hget.
  apply NoDup_app. split_and!; [done| |apply NoDup_singleton].
  intros x Hx ->%list_elem_of_singleton. done.
Qed.

Lemma objGet_elem {A} k (v : A) o :
  NoDup o.*1 → (k, v) ∈ o ↔ objGet k o = Some v.
Proof.
  induction o as [|[k' v'] o IH]; simpl; intros Hnd.
  - split; [intros []%elem_of_nil | done].
  - apply NoDup_cons in Hnd as [Hk' Hnd]. rewrite elem_of_cons.
    destruct (decide (k = k')) as [->|Hne].
    + split.
      * intros [[= ->]|Hin]; [done|].
        destruct Hk'. apply list_elem_of_fmap. by exists (k', v).
      * intros [= ->]. by left.
    + rewrite <- IH by done. split; [intros [[= ? ?]|?]; done | by right].
Qed.

Lemma sumOf_objSet {A} (g : A → Z) k (v : A) o :
  sumOf (g ∘ snd) (objSet k v o)
  = sumOf (g ∘ snd) o + g v - from_option g 0 (objGet k o).
Proof.
  induction o as [|[k' v'] o IH]; simpl; [lia|].
  destruct (decide (k = k')) as [->|Hne]; simpl; [lia|].
  rewrite IH. lia.
Qed.

(** ** One dictionary of the loop *)

Section stats.
Context {A : Type} (key : Ball.t → ObjectId) (init : ObjectId → A)
        (upd : A → Ball.t → A).

Lemma stats_get l p :
  objGet p (foldl (statStep key init upd) [] l)
  = match byPlayer key p l with
    | [] => None
    | _ => Some (foldl upd (init p) (byPlayer key p l))
    end.
Proof.
  induction l as [|d l IH] using rev_ind; [done|].
  unfold byPlayer in *. rewrite foldl_app, filter_app. simpl.
  unfold statStep at 1. rewrite filter_cons, filter_nil.
  destruct (decide (key d = p)) as [<-|Hne].
  - rewrite objGet_objSet_eq, IH.
    destruct (filter _ l) as [|d' l'] eqn:Hf; simpl; [done|].
    rewrite foldl_app. done.
  - rewrite objGet_objSet_ne by done. rewrite IH, app_nil_r. done.
Qed.

Lemma stats_NoDup l : NoDup (foldl (statStep key init upd) [] l).*1.
Proof.
  induction l as [|d l IH] using rev_ind; [constructor|].
  rewrite foldl_app. simpl. by apply objSet_NoDup.
Qed.

Lemma stats_elem l p s :
  (p, s) ∈ foldl (statStep key init upd) [] l
  ↔ byPlayer key p l ≠ [] ∧ s = foldl upd (init p) (byPlayer key p l).
Proof.
  rewrite objGet_elem by apply stats_NoDup. rewrite stats_get.
  destruct (byPlayer key p l); [split; [done | by intros [? _]]|].
  split; [by intros [= <-] | by intros [_ ->]].
Qed.

Lemma stats_sum (g : A → Z) (f : Ball.t → Z) l :
  (∀ p, g (init p) = 0) →
  (∀ s d, g (upd s d) = g s + f d) →
  sumOf (g ∘ snd) (foldl (statStep key init upd) [] l) = total f l.
Proof.
  intros Hinit Hupd.
  induction l as [|d l IH] using rev_ind; [done|].
  rewrite foldl_app, total_app. simpl. unfold statStep at 1.
  rewrite sumOf_objSet, IH, Hupd.
  destruct (objGet (key d) _); simpl; [lia|].
  rewrite Hinit. lia.
Qed.
End stats.

(** ** Batting and bowling figures *)

Lemma batStep_stat : batStep = statStep (λ d, Body.batsman (Ball.body d))
                                        batInit batBall.
Proof. done. Qed.

Lemma bowlStep_stat : bowlStep = statStep (λ d, Body.bowler (Ball.body d))
                                          bowlInit bowlBall.
Proof. done. Qed.

Lemma total_cons f d l : total f (d :: l) = f d + total f l.
Proof. done. Qed.

Lemma foldl_total {S} (upd : S → Ball.t → S) (g : S → Z) (f : Ball.t → Z) :
  (∀ s d, g (upd s d) = g s + f d) →
  ∀ l s, g (foldl upd s l) = g s + total f l.
Proof.
  intros Hupd. induction l as [|d l IH]; intros s.
  - simpl. lia.
  - rewrite total_cons. simpl. rewrite IH, Hupd. lia.
Qed.

Lemma foldl_kept {S T} (upd : S → Ball.t → S) (g : S → T) :
  (∀ s d, g (upd s d) = g s) → ∀ l s, g (foldl upd s l) = g s.
Proof.
  intros Hupd. induction l as [|d l IH]; intros s; [done|].
  simpl. by rewrite IH, Hupd.
Qed.

Lemma bat_out l : ∀ s,
  Bat.isOut (foldl batBall s l)
  = Bat.isOut s || existsb (λ d, Body.isWicket (Ball.body d)) l ∧
  Bat.dismissal (foldl batBall s l)
  = match last (filter (λ d, Body.isWicket (Ball.body d) = true) l) with
    | Some d => Some d
    | None => Bat.dismissal s
    end.
Proof.
  induction l as [|d l IH]; intros s.
  - simpl. by rewrite orb_false_r.
  - destruct (IH (batBall s d)) as [Ho Hd].
    cbn [foldl existsb]. rewrite Ho, Hd, filter_cons. unfold batBall.
    destruct (Body.isWicket (Ball.body d)) eqn:Hw; simpl.
    + split; [by destruct (Bat.isOut s)|].
      destruct (filter _ l) as [|d' l'] eqn:Hf; [done|].
      rewrite (last_cons d). by destruct (last (d' :: l')).
    + done.
Qed.

Lemma bat_fold l s :
  Bat.player (foldl batBall s l) = Bat.player s ∧
  Bat.runs (foldl batBall s l)
  = Bat.runs s
    + total (λ d, if Body.isBye (Ball.body d) || Body.isLegBye (Ball.body d)
                  then 0 else Body.runs (Ball.body d)) l ∧
  Bat.balls (foldl batBall s l) = Bat.balls s + total (λ d, flag (isLegal d)) l ∧
  Bat.fours (foldl batBall s l)
  = Bat.fours s + total (λ d, flag (Body.runs (Ball.body d) =? 4)) l ∧
  Bat.sixes (foldl batBall s l)
  = Bat.sixes s + total (λ d, flag (Body.runs (Ball.body d) =? 6)) l ∧
  Bat.isOut (foldl batBall s l)
  = Bat.isOut s || existsb (λ d, Body.isWicket (Ball.body d)) l ∧
  Bat.dismissal (foldl batBall s l)
  = match last (filter (λ d, Body.isWicket (Ball.body d) = true) l) with
    | Some d => Some d
    | None => Bat.dismissal s
    end.
Proof.
  split_and!.
  - by apply foldl_kept.
  - apply foldl_total. intros s' d. unfold batBall. simpl.
    destruct (Body.isBye _), (Body.isLegBye _); simpl; lia.
  - apply foldl_total. intros s' d. unfold batBall, isLegal, flag. simpl.
    case_match; lia.
  - apply foldl_total. intros s' d. unfold batBall, flag. simpl.
    case_match; lia.
  - apply foldl_total. intros s' d. unfold batBall, flag. simpl.
    case_match; lia.
  - apply bat_out.
  - apply bat_out.
Qed.

Lemma bowl_fold l s :
  Bowl.player (foldl bowlBall s l) = Bowl.player s ∧
  Bowl.overs (foldl bowlBall s l) = Bowl.overs s ∧
  Bowl.runs (foldl bowlBall s l)
  = Bowl.runs s + total (λ d, Body.runs (Ball.body d)) l ∧
  Bowl.wickets (foldl bowlBall s l)
  = Bowl.wickets s + total (λ d, flag (Body.isWicket (Ball.body d))) l ∧
  Bowl.maidens (foldl bowlBall s l) = Bowl.maidens s ∧
  Bowl.wides (foldl bowlBall s l)
  = Bowl.wides s + total (λ d, flag (Body.isWide (Ball.body d))) l ∧
  Bowl.noBalls (foldl bowlBall s l)
  = Bowl.noBalls s + total (λ d, flag (Body.isNoBall (Ball.body d))) l.
Proof.
  split_and!.
  - by apply foldl_kept.
  - by apply foldl_kept.
  - by apply foldl_total.
  - apply foldl_total. intros s' d. unfold bowlBall, flag. simpl.
    case_match; lia.
  - by apply foldl_kept.
  - apply foldl_total. intros s' d. unfold bowlBall, flag. simpl.
    case_match; lia.
  - apply foldl_total. intros s' d. unfold bowlBall, flag. simpl.
    case_match; lia.
Qed.

Lemma keys_of_values {A} (pl : A → ObjectId) (o : list (ObjectId * A)) :
  (∀ k s, (k, s) ∈ o → pl s = k) → pl <$> o.*2 = o.*1.
Proof.
  induction o as [|[k s] o IH]; intros Hpl; [done|].
  rewrite !fmap_cons. simpl. f_equal.
  - apply Hpl. by left.
  - apply IH. intros k' s' Hin. apply Hpl. by right.
Qed.

Lemma byPlayer_nonempty key p l :
  byPlayer key p l ≠ [] ↔ ∃ d, d ∈ l ∧ key d = p.
Proof.
  unfold byPlayer. split.
  - destruct (filter _ l) as [|d l'] eqn:Hf; [done|]. intros _.
    assert (d ∈ filter (λ d, key d = p) l) as Hin by (rewrite Hf; by left).
    apply list_elem_of_filter in Hin as [? ?]. eauto.
  - intros (d & Hin & Hk) Hnil.
    assert (d ∈ filter (λ d, key d = p) l) as Hd
      by (by apply list_elem_of_filter).
    rewrite Hnil in Hd. by apply elem_of_nil in Hd.
Qed.

Lemma stats_keys {A} key init (upd : A → Ball.t → A) l p :
  p ∈ (foldl (statStep key init upd) [] l).*1 ↔ ∃ d, d ∈ l ∧ key d = p.
Proof.
  rewrite <- byPlayer_nonempty.
  pose proof (objGet_None p (foldl (statStep key init upd) [] l)) as Hnone.
  rewrite stats_get in Hnone.
  destruct (byPlayer key p l) eqn:Hb.
  - split; [|done]. intros Hin. by apply Hnone in Hin.
  - split; [done|]. intros _.
    destruct (decide (p ∈ (foldl (statStep key init upd) [] l).*1)); [done|].
    by apply Hnone in n.
Qed.

Lemma scorecard_inv st players mid bs m bat bowl bs' :
  scorecard st players mid bs = Scorecard m bat bowl bs' →
  matches st !! mid = Some m ∧ bat = battingStats bs ∧
  bowl = bowlingStats bs ∧ bs' = bs ∧
  ∀ d, d ∈ bs → Body.batsman (Ball.body d) ∈ players
                ∧ Body.bowler (Ball.body d) ∈ players.
Proof.
  unfold scorecard. intros H.
  destruct (matches st !! mid); [|done].
  destruct (forallb _ bs) eqn:Hall; [|done].
  injection H as <- <- <- <-. split_and!; [done..|].
  intros d Hin. rewrite forallb_forall in Hall.
  apply list_elem_of_In, Hall, andb_prop in Hin as [H1 H2].
  by apply bool_decide_eq_true in H1, H2.
Qed.

(** X15.  In a scorecard every batsman of the list has exactly one entry
    and no one else has one.  The entry counts, over the balls that name
    the player as batsman: as [runs], the runs of the balls that are
    neither byes nor leg-byes (runs noted on a wide or no-ball included);
    as [balls], the balls that are neither wides nor no-balls; as [fours]
    and [sixes], the balls with [runs] 4 and 6, byes included; [isOut]
    tells whether one of them is a wicket, and [dismissal] is the last such
    ball. *)
Theorem X15_batting_figures (st : Store) (players : gset ObjectId)
    (mid : ObjectId) (bs bs' : list Ball.t) (m : Mat.t)
    (bat : list Bat.t) (bowl : list Bowl.t) :
  scorecard st players mid bs = Scorecard m bat bowl bs' →
  NoDup (Bat.player <$> bat) ∧
  (∀ p, p ∈ Bat.player <$> bat
        ↔ ∃ d, d ∈ bs ∧ Body.batsman (Ball.body d) = p) ∧
  ∀ s, s ∈ bat →
    let l := faced (Bat.player s) bs in
    Bat.runs s
    = total (λ d, if Body.isBye (Ball.body d) || Body.isLegBye (Ball.body d)
                  then 0 else Body.runs (Ball.body d)) l ∧
    Bat.balls s = total (λ d, flag (isLegal d)) l ∧
    Bat.fours s = total (λ d, flag (Body.runs (Ball.body d) =? 4)) l ∧
    Bat.sixes s = total (λ d, flag (Body.runs (Ball.body d) =? 6)) l ∧
    Bat.isOut s = existsb (λ d, Body.isWicket (Ball.body d)) l ∧
    Bat.dismissal s
    = last (filter (λ d, Body.isWicket (Ball.body d) = true) l).
Proof.
  intros (_ & -> & _ & _ & _)%scorecard_inv.
  unfold battingStats. rewrite batStep_stat.
  set (key := λ d, Body.batsman (Ball.body d)).
  set (o := foldl (statStep key batInit batBall) [] bs).
  assert (∀ k s, (k, s) ∈ o → Bat.player s = k) as Hpl.
  { intros k s [_ ->]%stats_elem.
    by destruct (bat_fold (byPlayer key k bs) (batInit k)) as [-> _]. }
  rewrite (keys_of_values Bat.player o Hpl). split_and!.
  - apply stats_NoDup.
  - intros p. apply stats_keys.
  - intros s [[k s'] [-> Hin]]%list_elem_of_fmap. simpl.
    pose proof (Hpl _ _ Hin) as Hk. simpl in Hk.
    apply stats_elem in Hin as [_ Hs].
    rewrite Hk. change (faced k bs) with (byPlayer key k bs).
    destruct (bat_fold (byPlayer key k bs) (batInit k))
      as (_ & Hr & Hb & H4 & H6 & Ho & Hd).
    rewrite Hs, Hr, Hb, H4, H6, Ho, Hd. simpl.
    split_and!; try done. by destruct (last _).
Qed.

Lemma X15_batting_figures_witness :
  let st := recordBalls
              (storeOf (matchWith 20 live 1 [freshInnings "A" "B"]))
              [delivery 4 false false false false false;
               delivery 1 true false false false false;
               delivery 0 false false false false true] in
  ∃ m bat bowl,
    scorecard st {["p1"; "p2"]} "m1" (balls st)
    = Scorecard m bat bowl (balls st) ∧
    Bat.player <$> bat = ["p2"] ∧
    Bat.runs <$> bat = [5] ∧ Bat.balls <$> bat = [2] ∧
    Bat.fours <$> bat = [1] ∧ Bat.isOut <$> bat = [true] ∧
    NoDup (Bat.player <$> bat).
Proof.
  intros st.
  destruct (scorecard st {["p1"; "p2"]} "m1" (balls st))
    as [c msg|m bat bowl bs'] eqn:Hsc; [vm_compute in Hsc; discriminate|].
  pose proof (X15_batting_figures st _ "m1" _ _ m bat bowl Hsc) as (Hnd & _).
  pose proof Hsc as Hsc'. vm_compute in Hsc'.
  injection Hsc' as <- <- <- <-.
  eexists _, _, _. split; [reflexivity|].
  split_and!; [reflexivity..|exact Hnd].
Defined.

(** ** Bowling figures *)

Lemma bowlerBalls_total bs p :
  bowlerBalls bs p = total (λ d, flag (isLegal d)) (bowled p bs).
Proof.
  unfold bowlerBalls, bowled.
  induction bs as [|d bs IH]; [done|].
  rewrite !filter_cons.
  destruct (decide (Body.bowler (Ball.body d) = p)) as [Hp|Hp].
  - rewrite total_cons, <- IH. unfold flag.
    destruct (isLegal d) eqn:Hl.
    + rewrite decide_True by done. rewrite length_cons. lia.
    + rewrite decide_False by (intros [_ ?]; done). lia.
  - rewrite decide_False by (intros [? _]; done). done.
Qed.

Lemma total_nonneg f l : (∀ d, 0 ≤ f d) → 0 ≤ total f l.
Proof.
  intros Hf. induction l as [|d l IH]; [done|].
  rewrite total_cons. specialize (Hf d). lia.
Qed.

(** X16.  In a scorecard every bowler of the list has exactly one entry
    and no one else has one.  The entry counts, over the balls that name
    the player as bowler: as [runs], the [runs] of all of them, byes and
    leg-byes included and the extra run of a wide or no-ball not included;
    as [wickets], every wicket ball, whatever the kind of dismissal; as
    [wides] and [noBalls], the balls so flagged.  [maidens] is always 0,
    and [overs] is the notation [floor (n / 6) + (n % 6) / 10] of the
    number [n] of balls that are neither wides nor no-balls. *)
Theorem X16_bowling_figures (st : Store) (players : gset ObjectId)
    (mid : ObjectId) (bs bs' : list Ball.t) (m : Mat.t)
    (bat : list Bat.t) (bowl : list Bowl.t) :
  scorecard st players mid bs = Scorecard m bat bowl bs' →
  NoDup (Bowl.player <$> bowl) ∧
  (∀ p, p ∈ Bowl.player <$> bowl
        ↔ ∃ d, d ∈ bs ∧ Body.bowler (Ball.body d) = p) ∧
  ∀ s, s ∈ bowl →
    let l := bowled (Bowl.player s) bs in
    let n := total (λ d, flag (isLegal d)) l in
    Bowl.runs s = total (λ d, Body.runs (Ball.body d)) l ∧
    Bowl.wickets s = total (λ d, flag (Body.isWicket (Ball.body d))) l ∧
    Bowl.wides s = total (λ d, flag (Body.isWide (Ball.body d))) l ∧
    Bowl.noBalls s = total (λ d, flag (Body.isNoBall (Ball.body d))) l ∧
    Bowl.maidens s = 0 ∧
    (Bowl.overs s == inject_Z (n / 6) + inject_Z (n mod 6) / inject_Z 10)%Q.
Proof.
  intros (_ & _ & -> & _ & _)%scorecard_inv.
  unfold bowlingStats. rewrite bowlStep_stat.
  set (key := λ d, Body.bowler (Ball.body d)).
  set (o := foldl (statStep key bowlInit bowlBall) [] bs).
  assert (∀ k s, (k, s) ∈ o → Bowl.player s = k) as Hpl.
  { intros k s [_ ->]%stats_elem.
    by destruct (bowl_fold (byPlayer key k bs) (bowlInit k)) as [-> _]. }
  assert (Bowl.player <$> (setOvers bs <$> o.*2) = o.*1) as Hkeys.
  { rewrite <- list_fmap_compose.
    rewrite <- (keys_of_values Bowl.player o Hpl). done. }
  rewrite Hkeys. split_and!.
  - apply stats_NoDup.
  - intros p. apply stats_keys.
  - intros s [s0 [-> [[k s'] [-> Hin]]%list_elem_of_fmap]]%list_elem_of_fmap.
    apply stats_elem in Hin as [_ ->].
    destruct (bowl_fold (byPlayer key k bs) (bowlInit k))
      as (Hp & _ & Hr & Hw & Hm & Hwd & Hnb).
    unfold setOvers. simpl. rewrite Hp, Hr, Hw, Hm, Hwd, Hnb. simpl.
    change (bowled k bs) with (byPlayer key k bs).
    split_and!; try done.
    rewrite bowlerBalls_total.
    change (bowled k bs) with (byPlayer key k bs).
    rewrite Z.rem_mod_nonneg; [reflexivity| |lia].
    apply total_nonneg. intros d. unfold flag. case_match; lia.
Qed.

Lemma X16_bowling_figures_witness :
  let st := recordBalls
              (storeOf (matchWith 20 live 1 [freshInnings "A" "B"]))
              [delivery 4 false false true false false;
               delivery 1 true false false false false;
               delivery 0 false false false false true] in
  ∃ m bat bowl,
    scorecard st {["p1"; "p2"]} "m1" (balls st)
    = Scorecard m bat bowl (balls st) ∧
    Bowl.player <$> bowl = ["p1"] ∧
    Bowl.runs <$> bowl = [5] ∧ Bowl.wides <$> bowl = [1] ∧
    Bowl.wickets <$> bowl = [1] ∧ Bowl.maidens <$> bowl = [0] ∧
    NoDup (Bowl.player <$> bowl).
Proof.
  intros st.
  destruct (scorecard st {["p1"; "p2"]} "m1" (balls st))
    as [c msg|m bat bowl bs'] eqn:Hsc; [vm_compute in Hsc; discriminate|].
  pose proof (X16_bowling_figures st _ "m1" _ _ m bat bowl Hsc) as (Hnd & _).
  pose proof Hsc as Hsc'. vm_compute in Hsc'.
  injection Hsc' as <- <- <- <-.
  eexists _, _, _. split; [reflexivity|].
  split_and!; [reflexivity..|exact Hnd].
Defined.

(** ** The scorecard against the match totals *)

Lemma sumOf_cons {A} (g : A → Z) x l : sumOf g (x :: l) = g x + sumOf g l.
Proof. done. Qed.

Lemma total_sumOf f l : total f l = sumOf f l.
Proof. done. Qed.

Lemma sumOf_fmap {A B} (g : B → Z) (h : A → B) l :
  sumOf g (h <$> l) = sumOf (g ∘ h) l.
Proof.
  induction l as [|x l IH]; [done|].
  rewrite fmap_cons, !sumOf_cons, IH. done.
Qed.

Lemma sumOf_ext {A} (g h : A → Z) l :
  (∀ x, x ∈ l → g x = h x) → sumOf g l = sumOf h l.
Proof.
  induction l as [|x l IH]; intros Hgh; [done|].
  rewrite !sumOf_cons, IH, Hgh; [done|by left|].
  intros y Hy. apply Hgh. by right.
Qed.

Lemma sumOf_plus {A} (g h : A → Z) l :
  sumOf (λ x, g x + h x) l = sumOf g l + sumOf h l.
Proof.
  induction l as [|x l IH]; [done|]. rewrite !sumOf_cons, IH. lia.
Qed.

Lemma sumOf_zero {A} (g : A → Z) l :
  (∀ x, x ∈ l → g x = 0) → sumOf g l = 0.
Proof.
  induction l as [|x l IH]; intros Hg; [done|].
  rewrite sumOf_cons, IH, Hg; [done|by left|].
  intros y Hy. apply Hg. by right.
Qed.

Lemma sumOf_perm {A} (g : A → Z) l1 l2 : l1 ≡ₚ l2 → sumOf g l1 = sumOf g l2.
Proof.
  induction 1 as [|x l1 l2 _ IH|x y l|l1 l2 l3 _ IH1 _ IH2];
    rewrite ?sumOf_cons; [done|lia|lia|congruence].
Qed.

(** Exactly one innings number of [0 .. n-1] matches. *)
Lemma sumOf_single (x : Z) (j : Z) n s :
  Z.of_nat s + 1 ≤ j ≤ Z.of_nat s + Z.of_nat n →
  sumOf (λ k, if decide (j = Z.of_nat k + 1) then x else 0) (seq s n) = x.
Proof.
  revert s. induction n as [|n IH]; intros s Hj; [lia|].
  rewrite <- cons_seq, sumOf_cons.
  destruct (decide (j = Z.of_nat s + 1)) as [->|Hne].
  - rewrite sumOf_zero; [lia|].
    intros k Hk%elem_of_seq. rewrite decide_False; [done|lia].
  - rewrite IH; lia.
Qed.

(** The ball events of a match are those of its innings, each once. *)
Lemma total_by_innings f mid n l :
  (∀ d, d ∈ l → Body.match_ (Ball.body d) = mid →
        1 ≤ Ball.innings d ≤ Z.of_nat n) →
  total f (filter (λ d, Body.match_ (Ball.body d) = mid) l)
  = sumOf (λ k, total f (filter (inInnings mid k) l)) (seq 0 n).
Proof.
  induction l as [|d l IH]; intros Hbound.
  - symmetry. by apply sumOf_zero.
  - assert (∀ d', d' ∈ l → Body.match_ (Ball.body d') = mid →
                  1 ≤ Ball.innings d' ≤ Z.of_nat n) as Hl
      by (intros d' Hd'; apply Hbound; by right).
    rewrite filter_cons.
    destruct (decide (Body.match_ (Ball.body d) = mid)) as [Hm|Hm].
    + rewrite total_cons, (IH Hl).
      rewrite <- (sumOf_single (f d) (Ball.innings d) n 0)
        by (specialize (Hbound d ltac:(by left) Hm); lia).
      rewrite <- sumOf_plus. apply sumOf_ext. intros k _.
      rewrite filter_cons. unfold inInnings at 2.
      destruct (decide (Ball.innings d = Z.of_nat k + 1)).
      * by rewrite decide_True.
      * by rewrite decide_False by (intros [_ ?]; done).
    + rewrite (IH Hl). apply sumOf_ext. intros k _.
      rewrite filter_cons, decide_False; [done|]. by intros [? _].
Qed.

Lemma sumOf_lookup {A} (g : A → Z) (h : nat → Z) l : ∀ s,
  (∀ k x, l !! k = Some x → g x = h (s + k)%nat) →
  sumOf g l = sumOf h (seq s (length l)).
Proof.
  induction l as [|x l IH]; intros s Hgh; [done|].
  simpl length. rewrite <- cons_seq, !sumOf_cons.
  rewrite (Hgh 0%nat x eq_refl), Nat.add_0_r. f_equal.
  apply IH. intros k y Hk. rewrite (Hgh (S k) y Hk). f_equal. lia.
Qed.

(** The totals of a reconciled match, summed over its innings, are those of
    all its ball events. *)
Lemma reconciled_totals st mid m :
  numbered st → reconciled st → matches st !! mid = Some m →
  let l := filter (λ d, Body.match_ (Ball.body d) = mid) (balls st) in
  sumOf Inn.runs (Mat.innings m) = total runsOf l ∧
  sumOf Inn.wickets (Mat.innings m)
  = total (λ d, flag (Body.isWicket (Ball.body d))) l ∧
  sumOf Inn.balls (Mat.innings m) = total (λ d, flag (isLegal d)) l.
Proof.
  intros Hnum Hrec Hm l.
  assert (∀ d, d ∈ balls st → Body.match_ (Ball.body d) = mid →
               1 ≤ Ball.innings d ≤ Z.of_nat (length (Mat.innings m)))
    as Hbound by (intros d; by apply Hnum).
  unfold l. rewrite !(total_by_innings _ mid _ _ Hbound).
  split_and!; apply sumOf_lookup; intros k a Hk;
    destruct (Hrec mid m k a Hm Hk) as (Hr & Hw & Hb & _); simpl; done.
Qed.



(** ** Resubmission and out-of-range runs *)

(** X18.  The handler does not deduplicate.  A request, its [runs] sent as
    a JSON number, that is accepted and, sent again at once, accepted again
    in the same innings is counted twice: the innings, its totals well
    within the safe integers, gains twice its runs and twice its wicket,
    and two ball events are appended. *)
Theorem X18_resubmission_counts_twice (st : Store) (b : Body.t)
    (m m1 : Mat.t) (i : nat) (inn inn1 : Inn.t) :
  accepts st b m i inn →
  accepts (snd (recordBall st b)) b m1 i inn1 →
  sentAsNumber b →
  safeTotals inn →
  ∃ m2 inn2,
    matches (recordBalls st [b; b]) !! Body.match_ b = Some m2 ∧
    Mat.innings m2 !! i = Some inn2 ∧
    Inn.runs inn2
    = Inn.runs inn + 2 * (Body.runs b + flag (Body.isWide b)
                                      + flag (Body.isNoBall b)) ∧
    Inn.wickets inn2 = Inn.wickets inn + 2 * flag (Body.isWicket b) ∧
    length (balls (recordBalls st [b; b])) = (length (balls st) + 2)%nat.
Proof.
  intros Hacc Hacc1 Hnum _.
  destruct (recordBall_current st b m i inn Hacc)
    as (m' & Hup & Hm' & Hlog & Hi).
  destruct (recordBall_current _ b m1 i inn1 Hacc1)
    as (m2 & Hup2 & Hm2 & Hlog2 & Hi2).
  destruct Hacc1 as (_ & Hm1 & _ & Hcur1 & _).
  assert (m1 = m') as -> by congruence.
  pose proof (currentInnings_lookup m' i inn1 Hcur1) as Hi1.
  assert (inn1 = scored m inn b) as -> by congruence.
  exists m2, (scored m' (scored m inn b) b).
  change (recordBalls st [b; b])
    with (snd (recordBall (snd (recordBall st b)) b)).
  split_and!; [done..| | |].
  - destruct (scored_number m' (scored m inn b) b Hnum) as (-> & _).
    destruct (scored_number m inn b Hnum) as (-> & _). lia.
  - rewrite !scored_wickets. lia.
  - rewrite Hlog2, Hlog, !length_app. simpl. lia.
Qed.

Lemma X18_resubmission_counts_twice_witness :
  let inn := inningsAt "A" "B" 30 2 10 false in
  let m := matchWith 20 live 1 [inn] in
  let b := delivery 4 true false false false false in
  accepts (storeOf m) b m 0 inn ∧
  sentAsNumber b ∧
  safeTotals inn ∧
  ∃ m1 inn1 m2 inn2,
    accepts (snd (recordBall (storeOf m) b)) b m1 0 inn1 ∧
    matches (recordBalls (storeOf m) [b; b]) !! "m1" = Some m2 ∧
    Mat.innings m2 !! 0%nat = Some inn2 ∧
    Inn.runs inn2 = 40 ∧
    length (balls (recordBalls (storeOf m) [b; b])) = 2%nat.
Proof.
  intros inn m b.
  assert (accepts (storeOf m) b m 0 inn) as Hacc by by_evaluation.
  assert (sentAsNumber b) as Hnum by reflexivity.
  assert (safeTotals inn) as Hsafe
    by (unfold safeTotals, safeInteger; simpl; lia).
  split_and!; [exact Hacc | exact Hnum | exact Hsafe |].
  set (inn1 := Inn.mk (Some "A") (Some "B") 35 2 (oversDisplay 10) 10
                      (Extras.mk 1 0 0 0) false).
  assert (accepts (snd (recordBall (storeOf m) b)) b
                  (setInnings m [inn1]) 0 inn1) as Hacc1 by by_evaluation.
  destruct (X18_resubmission_counts_twice (storeOf m) b m _ 0 inn inn1
              Hacc Hacc1 Hnum Hsafe)
    as (m2 & inn2 & Hm2 & Hi2 & Hr & _ & Hlen).
  exists (setInnings m [inn1]), inn1, m2, inn2.
  split_and!; [exact Hacc1 | exact Hm2 | exact Hi2 | exact Hr | exact Hlen].
Defined.

(** X19.  A request whose [runs] lie outside 0..6 is never recorded: the
    store is returned as it was.  When the request gets past the request
    and match guards, the refusal comes from the ball schema and is
    answered 500 "Server error". *)
Theorem X19_runs_out_of_range (st : Store) (b : Body.t) :
  Body.runs b < 0 ∨ 6 < Body.runs b →
  snd (recordBall st b) = st ∧
  (∃ code message, fst (recordBall st b) = Failure code message) ∧
  ∀ m i inn,
    validRequest b = true →
    matches st !! Body.match_ b = Some m →
    Mat.status m = live →
    currentInnings m = Some (i, inn) →
    Inn.isCompleted inn = false →
    fst (recordBall st b) = Failure 500 "Server error".
Proof.
  intros Hruns.
  assert (∀ m inn, validBall (ballData m inn b) = false) as Hbad.
  { intros m inn. apply not_true_iff_false. intros Hv%validBall_runs. lia. }
  split_and!.
  - destruct (recordBall_effect st b)
      as [(_ & c & msg & ->)|(m & i & inn & m' & Hacc & _)]; [done|].
    destruct Hacc as (_ & _ & _ & _ & _ & Hv). by rewrite Hbad in Hv.
  - destruct (recordBall_effect st b)
      as [(_ & c & msg & ->)|(m & i & inn & m' & Hacc & _)]; [eauto|].
    destruct Hacc as (_ & _ & _ & _ & _ & Hv). by rewrite Hbad in Hv.
  - intros m i inn Hreq Hm Hlive Hcur Hopen.
    unfold recordBall. rewrite Hreq, Hm, Hlive, Hcur, Hopen, Hbad. done.
Qed.

Lemma X19_runs_out_of_range_witness :
  let inn := inningsAt "A" "B" 30 2 10 false in
  let m := matchWith 20 live 1 [inn] in
  let b := delivery 7 false false false false false in
  (Body.runs b < 0 ∨ 6 < Body.runs b) ∧
  recordBall (storeOf m) b = (Failure 500 "Server error", storeOf m).
Proof.
  intros inn m b.
  assert (Body.runs b < 0 ∨ 6 < Body.runs b) as Hruns by (right; simpl; lia).
  split; [exact Hruns|].
  destruct (X19_runs_out_of_range (storeOf m) b Hruns) as (Hst & _ & Hresp).
  specialize (Hresp m 0%nat inn eq_refl eq_refl eq_refl eq_refl eq_refl).
  destruct (recordBall (storeOf m) b) as [r s]. simpl in *. congruence.
Defined.

(** X21.  A request whose [wicketType] is not one of the nine values of the
    schema's enum is never recorded: the store is returned as it was.  When
    the request gets past the request and match guards, the refusal comes
    from the ball schema and is answered 500 "Server error". *)
Theorem X21_wicket_type_checked (st : Store) (b : Body.t) (w : string) :
  Body.wicketType b = Some w →
  w ∉ wicketTypes →
  snd (recordBall st b) = st ∧
  (∃ code message, fst (recordBall st b) = Failure code message) ∧
  ∀ m i inn,
    validRequest b = true →
    matches st !! Body.match_ b = Some m →
    Mat.status m = live →
    currentInnings m = Some (i, inn) →
    Inn.isCompleted inn = false →
    fst (recordBall st b) = Failure 500 "Server error".
Proof.
  intros Hw Hnot.
  assert (∀ m inn, validBall (ballData m inn b) = false) as Hbad.
  { intros m inn. unfold validBall. rewrite ballData_body, Hw.
    rewrite bool_decide_eq_false_2 by done. apply andb_false_r. }
  split_and!.
  - destruct (recordBall_effect st b)
      as [(_ & c & msg & ->)|(m & i & inn & m' & Hacc & _)]; [done|].
    destruct Hacc as (_ & _ & _ & _ & _ & Hv). by rewrite Hbad in Hv.
  - destruct (recordBall_effect st b)
      as [(_ & c & msg & ->)|(m & i & inn & m' & Hacc & _)]; [eauto|].
    destruct Hacc as (_ & _ & _ & _ & _ & Hv). by rewrite Hbad in Hv.
  - intros m i inn Hreq Hm Hlive Hcur Hopen.
    unfold recordBall. rewrite Hreq, Hm, Hlive, Hcur, Hopen, Hbad. done.
Qed.

Lemma X21_wicket_type_checked_witness :
  let inn := inningsAt "A" "B" 30 2 10 false in
  let m := matchWith 20 live 1 [inn] in
  Body.wicketType (dismissal "run out") = Some "run out" ∧
  ("run out" ∉ wicketTypes) ∧
  recordBall (storeOf m) (dismissal "run out")
  = (Failure 500 "Server error", storeOf m) ∧
  fst (recordBall (storeOf m) (dismissal "run-out"))
  = Created (Ball.mk (dismissal "run-out") 1 1 6) live 1
            [inningsAt "A" "B" 30 3 11 false].
Proof.
  intros inn m.
  assert (Body.wicketType (dismissal "run out") = Some "run out") as Hw
    by reflexivity.
  assert ("run out" ∉ wicketTypes) as Hnot
    by (apply (bool_decide_unpack _); vm_compute; exact I).
  split_and!; [exact Hw | exact Hnot | | vm_compute; reflexivity].
  destruct (X21_wicket_type_checked (storeOf m) _ _ Hw Hnot)
    as (Hst & _ & Hresp).
  specialize (Hresp m 0%nat inn ltac:(vm_compute; reflexivity) eq_refl
                eq_refl eq_refl eq_refl).
  destruct (recordBall (storeOf m) (dismissal "run out")) as [r s'].
  simpl in *. congruence.
Defined.
